(** * The Consul syncer of the Nomad agent (command/agent/consul/syncer.go)

    A shallow embedding of the syncer: the identifier scheme, the
    desired-state registry written by [SetServices], the ownership filters,
    the four-way diff, the sync driver and the periodic handlers, followed
    by the properties of the specification stated against that embedding.

    Go maps are [gmap]s.  A [range] over a Go map visits the entries in an
    order the language leaves open: the class [RangeOrder] supplies the
    order, and every statement below holds for each admissible one.  Calls
    to the Consul agent go through the class [AgentAPI]; every call is
    appended to a log, so that "no call is issued" is a statement about the
    log. *)

From Stdlib Require Import ZArith String Ascii.
From stdpp Require Import base option list gmap sets strings pretty.

Open Scope string_scope.
Open Scope list_scope.

(** ** Constants and identifier types *)

Definition nomadServicePrefix : string := "_nomad".
Definition ServiceTagHTTP : string := "http".
Definition ServiceTagRPC : string := "rpc".
Definition ServiceTagSerf : string := "serf".

(** Nanoseconds, as [time.Duration]. *)
Definition second : Z := 1000000000.
Definition initialSyncBuffer : Z := 30 * second.
Definition initialSyncDelay : Z := 5 * second.
Definition syncInterval : Z := 5 * second.
Definition syncJitter : Z := 8.
Definition ttlCheckBuffer : Z := 31 * second.

Abbreviation consulServiceID := string (only parsing).
Abbreviation consulCheckID := string (only parsing).
Abbreviation ServiceKey := string (only parsing).
Abbreviation ServiceDomain := string (only parsing).

Definition ClientDomain : ServiceDomain := "client".
Definition ServerDomain : ServiceDomain := "server".

(** [fmt.Sprintf("executor-%s-%s", allocID, task)] *)
Definition NewExecutorDomain (allocID task : string) : ServiceDomain :=
  "executor-" +:+ allocID +:+ "-" +:+ task.

(** ** Errors

    [fmt.Errorf("check type %+q not valid", t)] is kept as a constructor
    carrying [t]; a [multierror.Error] is the list of the errors appended
    to it. *)
#[warnings="-register-all"]
Inductive error : Type :=
  | ErrCheckTypeNotValid (checkType : string)
  | ErrMessage (msg : string)
  | MultiError (errs : list error).

(** [ErrorOrNil] of [multierror.Error] *)
Definition ErrorOrNil (errs : list error) : option error :=
  match errs with
  | [] => None
  | _ :: _ => Some (MultiError errs)
  end.

(** ** Records of the Consul API and of nomad/structs, with the fields
    the syncer reads or writes *)

Module api.
Record AgentServiceRegistration : Type := mkServiceReg {
  sr_ID : string;
  sr_Name : string;
  sr_Tags : list string;
  sr_Port : Z;
  sr_Address : string;
  sr_EnableTagOverride : bool
}.

Record AgentService : Type := mkAgentService {
  as_ID : string;
  as_Service : string;
  as_Tags : list string;
  as_Port : Z;
  as_Address : string;
  as_EnableTagOverride : bool
}.

Record AgentCheckRegistration : Type := mkCheckReg {
  cr_ID : string;
  cr_Name : string;
  cr_Notes : string;
  cr_ServiceID : string;
  cr_HTTP : string;
  cr_TCP : string;
  cr_TTL : string;
  cr_Interval : string;
  cr_Timeout : string
}.

Record AgentCheck : Type := mkAgentCheck {
  ac_CheckID : string;
  ac_Name : string;
  ac_Notes : string;
  ac_ServiceID : string;
  ac_Status : string
}.
End api.
Export api.

Module structs.
Definition ServiceCheckHTTP : string := "http".
Definition ServiceCheckTCP : string := "tcp".
Definition ServiceCheckScript : string := "script".

Record ServiceCheck : Type := mkServiceCheck {
  sc_Name : string;
  sc_Type : string;
  sc_Protocol : string;
  sc_Path : string;
  sc_Interval : Z;
  sc_Timeout : Z
}.

Record Service : Type := mkService {
  svc_Name : string;
  svc_Tags : list string;
  svc_PortLabel : string;
  svc_Checks : list ServiceCheck
}.
End structs.
Export structs.

(** ** Identifier scheme *)

(** [strings.Join] *)
Fixpoint Join (elems : list string) (sep : string) : string :=
  match elems with
  | [] => ""
  | [e] => e
  | e :: rest => e +:+ sep +:+ Join rest sep
  end.

Definition GenerateServiceKey (service : Service) : ServiceKey :=
  match length (svc_Tags service) with
  | O => svc_Name service
  | _ => svc_Name service +:+ "-" +:+ Join (svc_Tags service) "-"
  end.

(** [fmt.Sprintf("%s-%s-%s", nomadServicePrefix, domain, key)] *)
Definition generateConsulServiceID (domain : ServiceDomain) (key : ServiceKey)
  : consulServiceID :=
  nomadServicePrefix +:+ "-" +:+ domain +:+ "-" +:+ key.

(** A string without the separator character. *)
Fixpoint hyphen_free (s : string) : bool :=
  match s with
  | EmptyString => true
  | String a s' => negb (Ascii.eqb a "-"%char) && hyphen_free s'
  end.

(** [strings.HasPrefix s p] *)
Definition HasPrefix (s p : string) : bool := String.prefix p s.

(** ** Iteration order of [range] over a map *)

Class RangeOrder : Type := {
  range : ∀ {V : Type}, gmap string V → list (string * V);
  range_perm : ∀ {V : Type} (m : gmap string V), range m ≡ₚ map_to_list m
}.

#[export] Instance canonical_order : RangeOrder :=
  {| range := λ V m, map_to_list m; range_perm := λ V m, reflexivity _ |}.

(** ** Comparison of a local registration with an agent service *)

Section Compare.
Context `{RangeOrder}.

(** The second loop of [compareConsulService]: an unknown tag returns
    false at once ([None]); a known one is marked ['b']. *)
Fixpoint markConsulTags (tags : list string) (serviceTags : gmap string ascii)
  : option (gmap string ascii) :=
  match tags with
  | [] => Some serviceTags
  | tag :: rest =>
      match serviceTags !! tag with
      | None => None
      | Some _ => markConsulTags rest (<[tag := "b"%char]> serviceTags)
      end
  end.

Definition compareConsulService
    (localService : AgentServiceRegistration) (consulService : AgentService)
  : bool :=
  if negb (String.eqb (as_ID consulService) (sr_ID localService))
     || negb (String.eqb (as_Service consulService) (sr_Name localService))
     || negb (Z.eqb (as_Port consulService) (sr_Port localService))
     || negb (String.eqb (as_Address consulService) (sr_Address localService))
     || negb (Bool.eqb (as_EnableTagOverride consulService)
                       (sr_EnableTagOverride localService))
  then false
  else
    let serviceTags :=
      foldl (λ m tag, <[tag := "l"%char]> m) (∅ : gmap string ascii)
            (sr_Tags localService) in
    match markConsulTags (as_Tags consulService) serviceTags with
    | None => false
    | Some serviceTags =>
        negb (existsb (λ kv, Ascii.eqb (snd kv) "l"%char) (range serviceTags))
    end.
End Compare.

(** ** Channels of [struct{}]

    Only the number of buffered elements matters.  [None] is the nil
    channel: a send or a receive on it is never ready.  A send on a full
    channel (or on an unbuffered one, no receiver being parked in this
    sequential model) is not ready either. *)
Record chan : Type := mkChan { ch_cap : nat; ch_len : nat }.

(** [select { case ch <- struct{}{}: default: }]; the boolean tells whether
    the send case ran. *)
Definition trySend (ch : option chan) : option chan * bool :=
  match ch with
  | None => (None, false)
  | Some c =>
      if decide (ch_len c < ch_cap c)
      then (Some (mkChan (ch_cap c) (S (ch_len c))), true)
      else (Some c, false)
  end.

(** Whether [case <-ch:] of a select can proceed. *)
Definition canReceive (ch : option chan) : bool :=
  match ch with
  | None => false
  | Some c => bool_decide (0 < ch_len c)
  end.

(** ** Delegated checks *)

(** The [Check] capability, by what the syncer asks of it. *)
Record Check : Type := mkCheck { check_ID : string; check_Timeout : Z }.

(** Modelled from the spec: [CheckRunner] and [NewCheckRunner] live in
    check.go, which is not among the sources.  The spec gives a runner "a
    start/stop lifecycle" and says "the runner is not yet started" when
    [SetServices] creates it. *)
Record CheckRunner : Type := mkRunner { run_check : Check; run_started : bool }.

Definition NewCheckRunner (check : Check) : CheckRunner := mkRunner check false.
Definition runner_Start (cr : CheckRunner) : CheckRunner := mkRunner (run_check cr) true.
Definition runner_Stop (cr : CheckRunner) : CheckRunner := mkRunner (run_check cr) false.

(** ** Functions of other packages the syncer calls

    [ServiceCheck.Hash] of nomad/structs, [time.Duration.String],
    [fmt.Sprintf("%s:%d", ...)] and [url.URL.String] are taken as given. *)
Class Externals : Type := {
  check_Hash : ServiceCheck → string → string;
  duration_String : Z → string;
  host_port : string → Z → string;
  url_String : string → string → string → string
}.

(** ** The syncer *)

Record Syncer (Env : Type) : Type := mkSyncer {
  consulAvailable : bool;
  servicesGroups : gmap string (gmap string AgentServiceRegistration);
  checkGroups : gmap string (gmap string (list AgentCheckRegistration));
  trackedChecks : gmap string AgentCheckRegistration;
  trackedServices : gmap string AgentServiceRegistration;
  checkRunners : gmap string CheckRunner;
  (** nil until [SetAddrFinder] / [SetDelegatedChecks] are called *)
  addrFinder : option (string → string * Z);
  createDelegatedCheck : option (ServiceCheck → string → Check + error);
  delegateChecks : gset string;
  shutdown : bool;
  notifyShutdownCh : option chan;
  (** a handler acts on the world outside the syncer *)
  periodicCallbacks : gmap string (Env → Env * option error);
  notifySyncCh : option chan
}.

Arguments mkSyncer {Env}.
Arguments consulAvailable {Env}.
Arguments servicesGroups {Env}.
Arguments checkGroups {Env}.
Arguments trackedChecks {Env}.
Arguments trackedServices {Env}.
Arguments checkRunners {Env}.
Arguments addrFinder {Env}.
Arguments createDelegatedCheck {Env}.
Arguments delegateChecks {Env}.
Arguments shutdown {Env}.
Arguments notifyShutdownCh {Env}.
Arguments periodicCallbacks {Env}.
Arguments notifySyncCh {Env}.

Section FieldUpdates.
Context {Env : Type}.
Implicit Types c : Syncer Env.

Definition set_servicesGroups
    (g : gmap string (gmap string AgentServiceRegistration)) c : Syncer Env :=
  mkSyncer (consulAvailable c) g (checkGroups c) (trackedChecks c)
    (trackedServices c) (checkRunners c) (addrFinder c)
    (createDelegatedCheck c) (delegateChecks c) (shutdown c)
    (notifyShutdownCh c) (periodicCallbacks c) (notifySyncCh c).

Definition set_checkGroups
    (g : gmap string (gmap string (list AgentCheckRegistration))) c : Syncer Env :=
  mkSyncer (consulAvailable c) (servicesGroups c) g (trackedChecks c)
    (trackedServices c) (checkRunners c) (addrFinder c)
    (createDelegatedCheck c) (delegateChecks c) (shutdown c)
    (notifyShutdownCh c) (periodicCallbacks c) (notifySyncCh c).

Definition set_trackedChecks (t : gmap string AgentCheckRegistration) c : Syncer Env :=
  mkSyncer (consulAvailable c) (servicesGroups c) (checkGroups c) t
    (trackedServices c) (checkRunners c) (addrFinder c)
    (createDelegatedCheck c) (delegateChecks c) (shutdown c)
    (notifyShutdownCh c) (periodicCallbacks c) (notifySyncCh c).

Definition set_trackedServices (t : gmap string AgentServiceRegistration) c : Syncer Env :=
  mkSyncer (consulAvailable c) (servicesGroups c) (checkGroups c)
    (trackedChecks c) t (checkRunners c) (addrFinder c)
    (createDelegatedCheck c) (delegateChecks c) (shutdown c)
    (notifyShutdownCh c) (periodicCallbacks c) (notifySyncCh c).

Definition set_checkRunners (r : gmap string CheckRunner) c : Syncer Env :=
  mkSyncer (consulAvailable c) (servicesGroups c) (checkGroups c)
    (trackedChecks c) (trackedServices c) r (addrFinder c)
    (createDelegatedCheck c) (delegateChecks c) (shutdown c)
    (notifyShutdownCh c) (periodicCallbacks c) (notifySyncCh c).

Definition set_periodicCallbacks
    (p : gmap string (Env → Env * option error)) c : Syncer Env :=
  mkSyncer (consulAvailable c) (servicesGroups c) (checkGroups c)
    (trackedChecks c) (trackedServices c) (checkRunners c) (addrFinder c)
    (createDelegatedCheck c) (delegateChecks c) (shutdown c)
    (notifyShutdownCh c) p (notifySyncCh c).

Definition set_notifySyncCh (ch : option chan) c : Syncer Env :=
  mkSyncer (consulAvailable c) (servicesGroups c) (checkGroups c)
    (trackedChecks c) (trackedServices c) (checkRunners c) (addrFinder c)
    (createDelegatedCheck c) (delegateChecks c) (shutdown c)
    (notifyShutdownCh c) (periodicCallbacks c) ch.

(** The struct literal at the end of [NewSyncer], for a configuration the
    Consul client accepts.  The literal names neither [notifySyncCh] nor
    [notifyShutdownCh], [addrFinder], [createDelegatedCheck] or
    [delegateChecks]: they keep Go's zero value, nil. *)
Definition NewSyncer : Syncer Env :=
  {| consulAvailable := true;
     servicesGroups := ∅;
     checkGroups := ∅;
     trackedChecks := ∅;
     trackedServices := ∅;
     checkRunners := ∅;
     addrFinder := None;
     createDelegatedCheck := None;
     delegateChecks := ∅;
     shutdown := false;
     notifyShutdownCh := None;
     periodicCallbacks := ∅;
     notifySyncCh := None |}.

Definition SetDelegatedChecks (checks : gset string)
    (createDelegatedCheckFn : ServiceCheck → string → Check + error) c
  : Syncer Env :=
  mkSyncer (consulAvailable c) (servicesGroups c) (checkGroups c)
    (trackedChecks c) (trackedServices c) (checkRunners c) (addrFinder c)
    (Some createDelegatedCheckFn) checks (shutdown c)
    (notifyShutdownCh c) (periodicCallbacks c) (notifySyncCh c).

Definition SetAddrFinder (finder : string → string * Z) c : Syncer Env :=
  mkSyncer (consulAvailable c) (servicesGroups c) (checkGroups c)
    (trackedChecks c) (trackedServices c) (checkRunners c) (Some finder)
    (createDelegatedCheck c) (delegateChecks c) (shutdown c)
    (notifyShutdownCh c) (periodicCallbacks c) (notifySyncCh c).

(** [SyncNow]: a non-blocking send on [notifySyncCh]. *)
Definition SyncNow c : Syncer Env :=
  set_notifySyncCh (fst (trySend (notifySyncCh c))) c.

(** The cases of the [select] in [Run]. *)
Inductive RunCase : Type :=
  | CaseTimer | CaseNotifySync | CaseShutdownCh | CaseNotifyShutdown.

(** Whether a case of the [select] in [Run] can proceed; the timer and
    the caller's [shutdownCh] are outside the syncer's own state. *)
Definition Run_case_ready c (timerFired shutdownChReady : bool) (k : RunCase)
  : bool :=
  match k with
  | CaseTimer => timerFired
  | CaseNotifySync => canReceive (notifySyncCh c)
  | CaseShutdownCh => shutdownChReady
  | CaseNotifyShutdown => canReceive (notifyShutdownCh c)
  end.

Definition AddPeriodicHandler (name : string) (fn : Env → Env * option error) c
  : Syncer Env * bool :=
  match periodicCallbacks c !! name with
  | Some _ => (c, false)
  | None => (set_periodicCallbacks (<[name := fn]> (periodicCallbacks c)) c, true)
  end.
End FieldUpdates.
Arguments NewSyncer : clear implicits.

(** ** Desired-state registry: [SetServices] *)

Section Registry.
Context {Env : Type} `{RangeOrder} `{Externals}.
Implicit Types c : Syncer Env.

(** [createCheckReg].  The write [check.Protocol = "http"] of the HTTP
    case lands in the caller's check record, after the hash was taken;
    the registration built here already uses the defaulted protocol. *)
Definition createCheckReg (check : ServiceCheck) (service : AgentServiceRegistration)
  : AgentCheckRegistration + error :=
  let chkReg :=
    {| cr_ID := check_Hash check (sr_ID service);
       cr_Name := sc_Name check;
       cr_Notes := "";
       cr_ServiceID := sr_ID service;
       cr_HTTP := ""; cr_TCP := ""; cr_TTL := "";
       cr_Interval := duration_String (sc_Interval check);
       cr_Timeout := duration_String (sc_Timeout check) |} in
  if String.eqb (sc_Type check) ServiceCheckHTTP then
    let protocol :=
      if String.eqb (sc_Protocol check) "" then "http" else sc_Protocol check in
    inl {| cr_ID := cr_ID chkReg; cr_Name := cr_Name chkReg;
           cr_Notes := cr_Notes chkReg; cr_ServiceID := cr_ServiceID chkReg;
           cr_HTTP := url_String protocol
                        (host_port (sr_Address service) (sr_Port service))
                        (sc_Path check);
           cr_TCP := ""; cr_TTL := "";
           cr_Interval := cr_Interval chkReg; cr_Timeout := cr_Timeout chkReg |}
  else if String.eqb (sc_Type check) ServiceCheckTCP then
    inl {| cr_ID := cr_ID chkReg; cr_Name := cr_Name chkReg;
           cr_Notes := cr_Notes chkReg; cr_ServiceID := cr_ServiceID chkReg;
           cr_HTTP := "";
           cr_TCP := host_port (sr_Address service) (sr_Port service);
           cr_TTL := "";
           cr_Interval := cr_Interval chkReg; cr_Timeout := cr_Timeout chkReg |}
  else if String.eqb (sc_Type check) ServiceCheckScript then
    inl {| cr_ID := cr_ID chkReg; cr_Name := cr_Name chkReg;
           cr_Notes := cr_Notes chkReg; cr_ServiceID := cr_ServiceID chkReg;
           cr_HTTP := ""; cr_TCP := "";
           cr_TTL := duration_String (sc_Interval check + ttlCheckBuffer);
           cr_Interval := cr_Interval chkReg; cr_Timeout := cr_Timeout chkReg |}
  else inr (ErrCheckTypeNotValid (sc_Type check)).

(** [createService]; [None] is the panic of calling a nil [addrFinder].
    The error result is always nil. *)
Definition createService c (service : Service) (domain : ServiceDomain)
    (key : ServiceKey) : option (AgentServiceRegistration + error) :=
  match addrFinder c with
  | None => None
  | Some finder =>
      let '(host, port) := finder (svc_PortLabel service) in
      Some (inl {| sr_ID := generateConsulServiceID domain key;
                   sr_Name := svc_Name service;
                   sr_Tags := svc_Tags service;
                   sr_Port := if Z.eqb port 0 then 0%Z else port;
                   sr_Address := if String.eqb host "" then "" else host;
                   sr_EnableTagOverride := false |})
  end.

(** What the two loops of [SetServices] carry: the syncer (its runner
    table is written inside the loop), [mErr.Errors], [registeredServices]
    and [registeredChecks]. *)
Record setFrame : Type := mkFrame {
  fr_syncer : Syncer Env;
  fr_errs : list error;
  fr_services : gmap string AgentServiceRegistration;
  fr_checks : gmap string (list AgentCheckRegistration)
}.

(** [registeredChecks[serviceKey] = append(registeredChecks[serviceKey], chkReg)] *)
Definition appendCheck (serviceKey : ServiceKey) (chkReg : AgentCheckRegistration)
    (checks : gmap string (list AgentCheckRegistration))
  : gmap string (list AgentCheckRegistration) :=
  <[serviceKey := default [] (checks !! serviceKey) ++ [chkReg]]> checks.

(** One turn of the inner loop of [SetServices], over the checks of a
    service; [None] is the panic of calling a nil [createDelegatedCheck]. *)
Definition setServiceCheck (serviceKey : ServiceKey)
    (serviceReg : AgentServiceRegistration) (fr : setFrame) (chk : ServiceCheck)
  : option setFrame :=
  let c := fr_syncer fr in
  match createCheckReg chk serviceReg with
  | inr err =>
      Some (mkFrame c (fr_errs fr ++ [err]) (fr_services fr) (fr_checks fr))
  | inl chkReg =>
      if decide (sc_Type chk ∈ delegateChecks c) then
        match checkRunners c !! cr_ID chkReg with
        | Some _ => Some fr
        | None =>
            match createDelegatedCheck c with
            | None => None
            | Some create =>
                match create chk (cr_ID chkReg) with
                | inr err =>
                    Some (mkFrame c (fr_errs fr ++ [err]) (fr_services fr)
                            (fr_checks fr))
                | inl nc =>
                    let cr := NewCheckRunner nc in
                    Some (mkFrame
                            (set_checkRunners
                               (<[check_ID nc := cr]> (checkRunners c)) c)
                            (fr_errs fr) (fr_services fr)
                            (appendCheck serviceKey chkReg (fr_checks fr)))
                end
            end
        end
      else
        Some (mkFrame c (fr_errs fr) (fr_services fr)
                (appendCheck serviceKey chkReg (fr_checks fr)))
  end.

Fixpoint setServiceChecks (serviceKey : ServiceKey)
    (serviceReg : AgentServiceRegistration) (checks : list ServiceCheck)
    (fr : setFrame) : option setFrame :=
  match checks with
  | [] => Some fr
  | chk :: rest =>
      match setServiceCheck serviceKey serviceReg fr chk with
      | None => None
      | Some fr' => setServiceChecks serviceKey serviceReg rest fr'
      end
  end.

(** One turn of the outer loop of [SetServices]. *)
Definition setService (domain : ServiceDomain) (fr : setFrame)
    (entry : ServiceKey * Service) : option setFrame :=
  let '(serviceKey, service) := entry in
  match createService (fr_syncer fr) service domain serviceKey with
  | None => None
  | Some (inr err) =>
      Some (mkFrame (fr_syncer fr) (fr_errs fr ++ [err]) (fr_services fr)
              (fr_checks fr))
  | Some (inl serviceReg) =>
      setServiceChecks serviceKey serviceReg (svc_Checks service)
        (mkFrame (fr_syncer fr) (fr_errs fr)
           (<[serviceKey := serviceReg]> (fr_services fr)) (fr_checks fr))
  end.

Fixpoint setServicesLoop (domain : ServiceDomain)
    (entries : list (ServiceKey * Service)) (fr : setFrame) : option setFrame :=
  match entries with
  | [] => Some fr
  | entry :: rest =>
      match setService domain fr entry with
      | None => None
      | Some fr' => setServicesLoop domain rest fr'
      end
  end.

(** The loops under [groupsLock]: the inner map of the domain is made on
    first use and then written key by key. *)
Definition storeGroup {V : Type} (domain : ServiceDomain)
    (registered : gmap string V) (groups : gmap string (gmap string V))
  : gmap string (gmap string V) :=
  foldl (λ groups entry,
           let serviceKeys := default ∅ (groups !! domain) in
           <[domain := <[fst entry := snd entry]> serviceKeys]> groups)
        groups (range registered).

(** [SetServices]: the syncer afterwards and the returned error; [None]
    is a panic. *)
Definition SetServices c (domain : ServiceDomain) (services : gmap string Service)
  : option (Syncer Env * option error) :=
  match setServicesLoop domain (range services) (mkFrame c [] ∅ ∅) with
  | None => None
  | Some fr =>
      match fr_errs fr with
      | _ :: _ => Some (fr_syncer fr, ErrorOrNil (fr_errs fr))
      | [] =>
          let c1 := fr_syncer fr in
          let c2 := set_servicesGroups
                      (storeGroup domain (fr_services fr) (servicesGroups c1)) c1 in
          let c3 := set_checkGroups
                      (storeGroup domain (fr_checks fr) (checkGroups c2)) c2 in
          Some (SyncNow c3, None)
      end
  end.

(** ** Flattening of the desired state *)

Definition flattenedServices c : list AgentServiceRegistration :=
  foldl (λ services group,
           foldl (λ services entry, services ++ [snd entry]) services
                 (range (snd group)))
        [] (range (servicesGroups c)).

Definition flattenedChecks c : list AgentCheckRegistration :=
  foldl (λ checks group,
           foldl (λ checks entry, checks ++ snd entry) checks
                 (range (snd group)))
        [] (range (checkGroups c)).

(** ** Ownership filters *)

(** The inner loop of both filters: some domain [d] of the group table
    with [id] starting with [fmt.Sprintf("%s-%s", nomadServicePrefix, d)]. *)
Definition ownedBy {V : Type} (groups : gmap string V) (id : string) : bool :=
  existsb (λ group, HasPrefix id (nomadServicePrefix +:+ "-" +:+ fst group))
          (range groups).

Definition filterConsulServices c (consulServices : gmap string AgentService)
  : gmap string AgentService :=
  foldl (λ localServices entry,
           if ownedBy (servicesGroups c) (as_ID (snd entry))
           then <[fst entry := snd entry]> localServices
           else localServices)
        ∅ (range consulServices).

Definition filterConsulChecks c (consulChecks : gmap string AgentCheck)
  : gmap string AgentCheck :=
  foldl (λ localChecks entry,
           if ownedBy (checkGroups c) (ac_ServiceID (snd entry))
           then <[fst entry := snd entry]> localChecks
           else localChecks)
        ∅ (range consulChecks).

(** The domain test of [ReapUnmatched], which does include the hyphen
    after the domain. *)
Definition reapMatch (domains : list ServiceDomain) (serviceID : string) : bool :=
  existsb (λ domain,
             HasPrefix serviceID
               (nomadServicePrefix +:+ "-" +:+ domain +:+ "-"))
          domains.
End Registry.

(** ** Diff engine *)

Section Diff.
Context {Env : Type} `{RangeOrder}.
Implicit Types c : Syncer Env.

(** [compareConsulCheck] *)
Definition compareConsulCheck (localCheck : AgentCheckRegistration)
    (consulCheck : AgentCheck) : bool :=
  if negb (String.eqb (ac_CheckID consulCheck) (cr_ID localCheck))
     || negb (String.eqb (ac_Name consulCheck) (cr_Name localCheck))
     || negb (String.eqb (ac_Notes consulCheck) (cr_Notes localCheck))
     || negb (String.eqb (ac_ServiceID consulCheck) (cr_ServiceID localCheck))
  then false else true.

(** The four slices a diff returns. *)
Record diff (R : Type) : Type := mkDiff {
  missing : list R; equal : list R; changed : list R; stale : list R
}.
Arguments mkDiff {R}.
Arguments missing {R}.
Arguments equal {R}.
Arguments changed {R}.
Arguments stale {R}.

(** The last loop of both diffs: a switch on the state byte. *)
Definition partitionByState {R : Type} (merged : gmap string (R * ascii)) : diff R :=
  foldl (λ d entry,
           let '(r, state) := snd entry in
           if Ascii.eqb state "l" then
             mkDiff (missing d ++ [r]) (equal d) (changed d) (stale d)
           else if Ascii.eqb state "e" then
             mkDiff (missing d) (equal d ++ [r]) (changed d) (stale d)
           else if Ascii.eqb state "c" then
             mkDiff (missing d) (equal d) (changed d ++ [r]) (stale d)
           else if Ascii.eqb state "a" then
             mkDiff (missing d) (equal d) (changed d) (stale d ++ [r])
           else d)
        (mkDiff [] [] [] []) (range merged).

(** [mergedService]: registration and state byte; ['l'] local only,
    ['e'] equal, ['c'] changed, ['a'] agent only. *)
Definition mergeLocalServices (services : list AgentServiceRegistration)
  : gmap string (AgentServiceRegistration * ascii) :=
  foldl (λ localServices localService,
           <[sr_ID localService := (localService, "l"%char)]> localServices)
        ∅ services.

Definition mergeConsulService
    (localServices : gmap string (AgentServiceRegistration * ascii))
    (consulService : AgentService)
  : gmap string (AgentServiceRegistration * ascii) :=
  match localServices !! as_ID consulService with
  | Some localService =>
      if compareConsulService (fst localService) consulService
      then <[as_ID consulService := (fst localService, "e"%char)]> localServices
      else <[as_ID consulService := (fst localService, "c"%char)]> localServices
  | None =>
      let agentServiceReg :=
        {| sr_ID := as_ID consulService;
           sr_Name := as_Service consulService;
           sr_Tags := as_Tags consulService;
           sr_Port := as_Port consulService;
           sr_Address := as_Address consulService;
           sr_EnableTagOverride := false |} in
      <[as_ID consulService := (agentServiceReg, "a"%char)]> localServices
  end.

Definition calcServicesDiff c (consulServices : gmap string AgentService)
  : diff AgentServiceRegistration :=
  let localServices := mergeLocalServices (flattenedServices c) in
  let localServices :=
    foldl (λ m entry, mergeConsulService m (snd entry)) localServices
          (range consulServices) in
  partitionByState localServices.

Definition mergeLocalChecks (checks : list AgentCheckRegistration)
  : gmap string (AgentCheckRegistration * ascii) :=
  foldl (λ localChecks localCheck,
           <[cr_ID localCheck := (localCheck, "l"%char)]> localChecks)
        ∅ checks.

Definition mergeConsulCheck
    (localChecks : gmap string (AgentCheckRegistration * ascii))
    (consulCheck : AgentCheck)
  : gmap string (AgentCheckRegistration * ascii) :=
  match localChecks !! ac_CheckID consulCheck with
  | Some localCheck =>
      if compareConsulCheck (fst localCheck) consulCheck
      then <[ac_CheckID consulCheck := (fst localCheck, "e"%char)]> localChecks
      else <[ac_CheckID consulCheck := (fst localCheck, "c"%char)]> localChecks
  | None =>
      let agentCheckReg :=
        {| cr_ID := ac_CheckID consulCheck;
           cr_Name := ac_Name consulCheck;
           cr_Notes := ac_Notes consulCheck;
           cr_ServiceID := ac_ServiceID consulCheck;
           cr_HTTP := ""; cr_TCP := ""; cr_TTL := "";
           cr_Interval := ""; cr_Timeout := "" |} in
      <[ac_CheckID consulCheck := (agentCheckReg, "a"%char)]> localChecks
  end.

Definition calcChecksDiff c (consulChecks : gmap string AgentCheck)
  : diff AgentCheckRegistration :=
  let localChecks := mergeLocalChecks (flattenedChecks c) in
  let localChecks :=
    foldl (λ m entry, mergeConsulCheck m (snd entry)) localChecks
          (range consulChecks) in
  partitionByState localChecks.
End Diff.
Arguments mkDiff {R}.
Arguments missing {R}.
Arguments equal {R}.
Arguments changed {R}.
Arguments stale {R}.

(** ** The Consul agent and the log of calls *)

(** The agent endpoints the sync driver uses.  Each call may change the
    world outside the syncer and may fail. *)
Class AgentAPI (Env : Type) : Type := {
  agent_Services : Env → Env * (gmap string AgentService + error);
  agent_Checks : Env → Env * (gmap string AgentCheck + error);
  agent_ServiceRegister : AgentServiceRegistration → Env → Env * option error;
  agent_ServiceDeregister : string → Env → Env * option error;
  agent_CheckRegister : AgentCheckRegistration → Env → Env * option error;
  agent_CheckDeregister : string → Env → Env * option error
}.

Inductive Event : Type :=
  | EvHandler (name : string)
  | EvServices
  | EvChecks
  | EvServiceRegister (service : AgentServiceRegistration)
  | EvServiceDeregister (serviceID : string)
  | EvCheckRegister (check : AgentCheckRegistration)
  | EvCheckDeregister (checkID : string).

(** The calls that change the agent's inventory. *)
Definition is_mutation (ev : Event) : bool :=
  match ev with
  | EvServiceRegister _ | EvServiceDeregister _
  | EvCheckRegister _ | EvCheckDeregister _ => true
  | EvHandler _ | EvServices | EvChecks => false
  end.

Record World (Env : Type) : Type := mkWorld {
  w_syncer : Syncer Env;
  w_env : Env;
  w_log : list Event
}.
Arguments mkWorld {Env}.
Arguments w_syncer {Env}.
Arguments w_env {Env}.
Arguments w_log {Env}.

(** State passing over the world. *)
Definition M (Env A : Type) : Type := World Env → A * World Env.

Definition retM {Env A : Type} (a : A) : M Env A := λ w, (a, w).

Definition bindM {Env A B : Type} (m : M Env A) (k : A → M Env B) : M Env B :=
  λ w, let '(a, w') := m w in k a w'.

Notation "'let*' x ':=' m 'in' k" := (bindM m (λ x, k))
  (at level 10, x name, m at level 100, k at level 200, only parsing).

Definition getSyncer {Env : Type} : M Env (Syncer Env) := λ w, (w_syncer w, w).

Definition modifySyncer {Env : Type} (f : Syncer Env → Syncer Env) : M Env unit :=
  λ w, (tt, mkWorld (f (w_syncer w)) (w_env w) (w_log w)).

(** An effect on the outside world, logged as [ev]. *)
Definition callM {Env A : Type} (ev : Event) (f : Env → Env * A) : M Env A :=
  λ w, let '(env', a) := f (w_env w) in
       (a, mkWorld (w_syncer w) env' (w_log w ++ [ev])).

(** [mErr.Errors = append(mErr.Errors, err)] when [err != nil] *)
Definition appendErr (errs : list error) (err : option error) : list error :=
  match err with
  | Some e => errs ++ [e]
  | None => errs
  end.

(** ** Sync driver *)

Section SyncDriver.
Context {Env : Type} `{RangeOrder} `{AgentAPI Env}.

Definition queryAgentServices : M Env (gmap string AgentService + error) :=
  let* r := callM EvServices agent_Services in
  match r with
  | inr err => retM (inr err)
  | inl services =>
      let* c := getSyncer in
      retM (inl (filterConsulServices c services))
  end.

Definition queryChecks : M Env (gmap string AgentCheck + error) :=
  let* r := callM EvChecks agent_Checks in
  match r with
  | inr err => retM (inr err)
  | inl checks =>
      let* c := getSyncer in
      retM (inl (filterConsulChecks c checks))
  end.

(** [deregisterService] *)
Definition deregisterService (serviceID : string) : M Env (option error) :=
  callM (EvServiceDeregister serviceID) (agent_ServiceDeregister serviceID).

(** First loop of [syncServices], over [missingServices]. *)
Fixpoint registerMissingServices (services : list AgentServiceRegistration)
    (errs : list error) : M Env (list error) :=
  match services with
  | [] => retM errs
  | service :: rest =>
      let* err := callM (EvServiceRegister service) (agent_ServiceRegister service) in
      let* _ := modifySyncer (λ c,
              set_trackedServices
                (<[sr_ID service := service]> (trackedServices c)) c) in
      registerMissingServices rest (appendErr errs err)
  end.

(** Second loop, over [changedServices]. *)
Fixpoint registerChangedServices (services : list AgentServiceRegistration)
    (errs : list error) : M Env (list error) :=
  match services with
  | [] => retM errs
  | service :: rest =>
      let* err := callM (EvServiceRegister service) (agent_ServiceRegister service) in
      registerChangedServices rest (appendErr errs err)
  end.

(** Third loop, over [removedServices]. *)
Fixpoint deregisterStaleServices (services : list AgentServiceRegistration)
    (errs : list error) : M Env (list error) :=
  match services with
  | [] => retM errs
  | service :: rest =>
      let* err := deregisterService (sr_ID service) in
      let* _ := modifySyncer (λ c,
              set_trackedServices (delete (sr_ID service) (trackedServices c)) c) in
      deregisterStaleServices rest (appendErr errs err)
  end.

Definition syncServices : M Env (option error) :=
  let* r := queryAgentServices in
  match r with
  | inr err => retM (Some err)
  | inl consulServices =>
      let* c := getSyncer in
      let d := calcServicesDiff c consulServices in
      let* errs := registerMissingServices (missing d) [] in
      let* errs := registerChangedServices (changed d) errs in
      let* errs := deregisterStaleServices (stale d) errs in
      retM (ErrorOrNil errs)
  end.

(** [registerCheck]: a runner of that ID is started, then the agent is
    called. *)
Definition registerCheck (chkReg : AgentCheckRegistration) : M Env (option error) :=
  let* _ := modifySyncer (λ c,
          match checkRunners c !! cr_ID chkReg with
          | Some cr =>
              set_checkRunners
                (<[cr_ID chkReg := runner_Start cr]> (checkRunners c)) c
          | None => c
          end) in
  callM (EvCheckRegister chkReg) (agent_CheckRegister chkReg).

(** [deregisterCheck]: on an agent error the runner is kept. *)
Definition deregisterCheck (id : string) : M Env (option error) :=
  let* err := callM (EvCheckDeregister id) (agent_CheckDeregister id) in
  match err with
  | Some e => retM (Some e)
  | None =>
      let* _ := modifySyncer (λ c,
              match checkRunners c !! id with
              | Some _ => set_checkRunners (delete id (checkRunners c)) c
              | None => c
              end) in
      retM None
  end.

Fixpoint registerMissingChecks (checks : list AgentCheckRegistration)
    (errs : list error) : M Env (list error) :=
  match checks with
  | [] => retM errs
  | check :: rest =>
      let* err := registerCheck check in
      let* _ := modifySyncer (λ c,
              set_trackedChecks (<[cr_ID check := check]> (trackedChecks c)) c) in
      registerMissingChecks rest (appendErr errs err)
  end.

Fixpoint registerChangedChecks (checks : list AgentCheckRegistration)
    (errs : list error) : M Env (list error) :=
  match checks with
  | [] => retM errs
  | check :: rest =>
      let* err := registerCheck check in
      registerChangedChecks rest (appendErr errs err)
  end.

Fixpoint deregisterStaleChecks (checks : list AgentCheckRegistration)
    (errs : list error) : M Env (list error) :=
  match checks with
  | [] => retM errs
  | check :: rest =>
      let* err := deregisterCheck (cr_ID check) in
      let* _ := modifySyncer (λ c,
              set_trackedChecks (delete (cr_ID check) (trackedChecks c)) c) in
      deregisterStaleChecks rest (appendErr errs err)
  end.

Definition syncChecks : M Env (option error) :=
  let* r := queryChecks in
  match r with
  | inr err => retM (Some err)
  | inl consulChecks =>
      let* c := getSyncer in
      let d := calcChecksDiff c consulChecks in
      let* errs := registerMissingChecks (missing d) [] in
      let* errs := registerChangedChecks (changed d) errs in
      let* errs := deregisterStaleChecks (stale d) errs in
      retM (ErrorOrNil errs)
  end.

(** The loop of [RunHandlers] over the copied handler table. *)
Fixpoint runHandlerList (handlers : list (string * (Env → Env * option error)))
    (errs : list error) : M Env (list error) :=
  match handlers with
  | [] => retM errs
  | (name, fn) :: rest =>
      let* err := callM (EvHandler name) (λ env, fn env) in
      runHandlerList rest (appendErr errs err)
  end.

Definition RunHandlers : M Env (option error) :=
  let* c := getSyncer in
  let handlers : gmap string (Env → Env * option error) :=
    foldl (λ handlers entry, <[fst entry := snd entry]> handlers) ∅
          (range (periodicCallbacks c)) in
  let* errs := runHandlerList (range handlers) [] in
  retM (ErrorOrNil errs).

Definition SyncServices : M Env (option error) :=
  let* err := RunHandlers in
  match err with
  | Some e => retM (Some e)
  | None =>
      let* err := syncServices in
      match err with
      | Some e => retM (Some e)
      | None =>
          let* err := syncChecks in
          match err with
          | Some e => retM (Some e)
          | None => retM None
          end
      end
  end.
End SyncDriver.

(** ** Relations used to state the properties *)

(** The shape both diffs share: a table from ID to registration and state
    byte, filled from the local items and then walked with the agent's. *)
Section Merge.
Context {L A : Type} (idL : L → string) (idA : A → string)
  (cmp : L → A → bool) (synth : A → L).

Definition mergeLocals (locals : list L) : gmap string (L * ascii) :=
  foldl (λ merged item, <[idL item := (item, "l"%char)]> merged) ∅ locals.

Definition mergeAgent (merged : gmap string (L * ascii)) (a : A)
  : gmap string (L * ascii) :=
  match merged !! idA a with
  | Some entry =>
      if cmp (fst entry) a
      then <[idA a := (fst entry, "e"%char)]> merged
      else <[idA a := (fst entry, "c"%char)]> merged
  | None => <[idA a := (synth a, "a"%char)]> merged
  end.

(** The local items and the agent's filtered inventory agree: every ID of
    one side is an ID of the other, and items with the same ID compare
    equal. *)
Definition inAgreement (locals : list L) (agent : gmap string A) : Prop :=
  (∀ item, item ∈ locals → ∃ key a, agent !! key = Some a ∧ idA a = idL item)
  ∧ (∀ key a, agent !! key = Some a → ∃ item, item ∈ locals ∧ idL item = idA a)
  ∧ (∀ item key a, item ∈ locals → agent !! key = Some a →
       idA a = idL item → cmp item a = true).
(** Every entry stems from a local item and is local-only or equal. *)
Definition settled (locals : list L) (merged : gmap string (L * ascii)) : Prop :=
  (∀ id item state, merged !! id = Some (item, state) →
     item ∈ locals ∧ idL item = id ∧ (state = "l"%char ∨ state = "e"%char))
  ∧ (∀ item, item ∈ locals → is_Some (merged !! idL item)).


(** [inAgreement], as a test that can be run. *)
Definition agreesb (locals : list L) (agent : gmap string A) : bool :=
  forallb (λ item,
             existsb (λ entry, String.eqb (idA (snd entry)) (idL item))
                     (map_to_list agent)) locals
  && forallb (λ entry,
                existsb (λ item, String.eqb (idL item) (idA (snd entry))) locals)
             (map_to_list agent)
  && forallb (λ item,
                forallb (λ entry,
                           implb (String.eqb (idA (snd entry)) (idL item))
                                 (cmp item (snd entry)))
                        (map_to_list agent)) locals.
End Merge.


(** The entry of key [key] in the group of [domain]. *)
Definition groupLookup {V : Type} (groups : gmap string (gmap string V))
    (domain : ServiceDomain) (key : ServiceKey) : option V :=
  groups !! domain ≫= (λ serviceKeys, serviceKeys !! key).

(** The check types [createCheckReg] knows. *)
Definition validCheckType (checkType : string) : bool :=
  String.eqb checkType ServiceCheckHTTP
  || String.eqb checkType ServiceCheckTCP
  || String.eqb checkType ServiceCheckScript.

Section RegistryRelations.
Context {Env : Type} `{Externals}.
Implicit Types c : Syncer Env.
Implicit Types fr : setFrame (Env := Env).

(** Where an error gathered by [SetServices] comes from: a check of one of
    the entries, either of a type [createCheckReg] rejects or refused by
    the factory of delegated checks. *)
Definition constructionError c (entries : list (string * Service)) (err : error)
  : Prop :=
  ∃ key service chk,
    (key, service) ∈ entries ∧ chk ∈ svc_Checks service
    ∧ ((validCheckType (sc_Type chk) = false
        ∧ err = ErrCheckTypeNotValid (sc_Type chk))
       ∨ ∃ create id, createDelegatedCheck c = Some create
           ∧ create chk id = inr err).

(** A check registration built from a check of [service]. *)
Definition derivedCheck (service : Service) (reg : AgentServiceRegistration)
    (r : AgentCheckRegistration) : Prop :=
  ∃ chk, chk ∈ svc_Checks service ∧ createCheckReg chk reg = inl r.

(** What holds of the frame at every turn: the syncer differs from the
    one [SetServices] was called on in the runner table only, and errors,
    registered services and registered checks all stem from the entries. *)
Record frameSound c (domain : string) (entries : list (string * Service)) fr
  : Prop := {
  sound_syncer :
    fr_syncer fr = set_checkRunners (checkRunners (fr_syncer fr)) c;
  sound_errs :
    ∀ err, err ∈ fr_errs fr → constructionError c entries err;
  sound_services :
    ∀ key reg, fr_services fr !! key = Some reg →
      ∃ service, (key, service) ∈ entries
        ∧ createService c service domain key = Some (inl reg);
  sound_checks :
    ∀ key chks, fr_checks fr !! key = Some chks →
      ∃ service reg, (key, service) ∈ entries
        ∧ createService c service domain key = Some (inl reg)
        ∧ Forall (derivedCheck service reg) chks
}.

End RegistryRelations.

(** [handlers_ran hs env env' errs]: the handlers [hs] ran one after the
    other from [env] to [env'], each on the world its predecessor left,
    whether or not that one failed, and [errs] are the errors they
    returned, in that order. *)
Inductive handlers_ran {Env : Type}
  : list (string * (Env → Env * option error)) → Env → Env → list error → Prop :=
  | ran_nil (env : Env) : handlers_ran [] env env []
  | ran_ok name fn rest env env1 env2 errs :
      fn env = (env1, None) →
      handlers_ran rest env1 env2 errs →
      handlers_ran ((name, fn) :: rest) env env2 errs
  | ran_failed name fn rest env env1 env2 err errs :
      fn env = (env1, Some err) →
      handlers_ran rest env1 env2 errs →
      handlers_ran ((name, fn) :: rest) env env2 (err :: errs).

(** ** A stand-in agent and sample data for the closed statements below *)

Module Sample.
(** An in-memory agent: it stores what is registered; when [fa_failing]
    is set every register and deregister call fails and stores nothing. *)
Record FakeAgent : Type := mkFake {
  fa_services : gmap string AgentService;
  fa_checks : gmap string AgentCheck;
  fa_failing : bool
}.

Definition refused : error := ErrMessage "agent refused the call".

#[export] Instance fake_agent : AgentAPI FakeAgent := {|
  agent_Services := λ a, (a, inl (fa_services a));
  agent_Checks := λ a, (a, inl (fa_checks a));
  agent_ServiceRegister := λ reg a,
    if fa_failing a then (a, Some refused)
    else (mkFake
            (<[sr_ID reg := mkAgentService (sr_ID reg) (sr_Name reg) (sr_Tags reg)
                              (sr_Port reg) (sr_Address reg)
                              (sr_EnableTagOverride reg)]> (fa_services a))
            (fa_checks a) false, None);
  agent_ServiceDeregister := λ id a,
    if fa_failing a then (a, Some refused)
    else (mkFake (delete id (fa_services a)) (fa_checks a) false, None);
  agent_CheckRegister := λ reg a,
    if fa_failing a then (a, Some refused)
    else (mkFake (fa_services a)
            (<[cr_ID reg := mkAgentCheck (cr_ID reg) (cr_Name reg) (cr_Notes reg)
                              (cr_ServiceID reg) "critical"]> (fa_checks a))
            false, None);
  agent_CheckDeregister := λ id a,
    if fa_failing a then (a, Some refused)
    else (mkFake (fa_services a) (delete id (fa_checks a)) false, None)
|}.

(** Stand-ins for the functions of other packages: the "hash" is the
    service ID followed by the check name, and a duration is printed in
    whole seconds. *)
#[export] Instance sample_externals : Externals := {|
  check_Hash := λ check serviceID, serviceID +:+ "/" +:+ sc_Name check;
  duration_String := λ d, pretty (d / second)%Z +:+ "s";
  host_port := λ host port, host +:+ ":" +:+ pretty port;
  url_String := λ scheme host path, scheme +:+ "://" +:+ host +:+ path
|}.

Definition finder : string → string * Z := λ _, ("1.2.3.4", 4647%Z).

Definition makeCheck : ServiceCheck → string → Check + error :=
  λ check id, inl (mkCheck id (sc_Timeout check)).

(** A syncer as the agent sets one up: address finder installed, script
    checks delegated. *)
Definition fresh : Syncer FakeAgent :=
  SetDelegatedChecks {[ServiceCheckScript]} makeCheck
    (SetAddrFinder finder (NewSyncer FakeAgent)).

(** The service of scenario S1 of the specification. *)
Definition nomadService : Service :=
  mkService "nomad" ["rpc"; "serf"] "rpc" [].

Definition tcpCheck : ServiceCheck :=
  mkServiceCheck "alive" "tcp" "" "" (10 * second) (10 * second).
Definition scriptCheck : ServiceCheck :=
  mkServiceCheck "probe" "script" "" "" (10 * second) (10 * second).

(** A service with a delegated (script) check and a TCP check. *)
Definition webService : Service :=
  mkService "web" [] "http" [scriptCheck; tcpCheck].


Definition nomadKey : ServiceKey := GenerateServiceKey nomadService.

Definition failingHandler : FakeAgent → FakeAgent * option error :=
  λ a, (a, Some (ErrMessage "handler failed")).

Definition emptyAgent : FakeAgent := mkFake ∅ ∅ false.
Definition downAgent : FakeAgent := mkFake ∅ ∅ true.

(** The syncer after a call of [SetServices]; a panic or an error leaves
    the argument. *)
Definition afterSet (c : Syncer FakeAgent) (domain : ServiceDomain)
    (services : gmap string Service) : Syncer FakeAgent :=
  match SetServices c domain services with
  | Some (c', None) => c'
  | _ => c
  end.
End Sample.

(** ** Further operations of the syncer *)

(** Health states of the Consul API. *)
Definition HealthPassing : string := "passing".
Definition HealthWarning : string := "warning".
Definition HealthCritical : string := "critical".

(** What [check.Run()] hands back to [runCheck]; [res_Err] carries the
    text of [res.Err.Error()]. *)
Record CheckRes : Type := mkCheckRes {
  res_ExitCode : Z;
  res_Output : string;
  res_Err : option string;
  res_Duration : Z
}.

(** The TTL endpoint of the agent, used by [runCheck] only. *)
Class AgentTTL (Env : Type) : Type := {
  agent_UpdateTTL : string → string → string → Env → Env * option error
}.

(** The arguments of one [UpdateTTL] call. *)
Record TTLUpdate : Type := mkTTLUpdate {
  ttl_checkID : string; ttl_output : string; ttl_status : string
}.

Section MoreFieldUpdates.
Context {Env : Type}.
Implicit Types c : Syncer Env.

Definition set_consulAvailable (b : bool) c : Syncer Env :=
  mkSyncer b (servicesGroups c) (checkGroups c) (trackedChecks c)
    (trackedServices c) (checkRunners c) (addrFinder c)
    (createDelegatedCheck c) (delegateChecks c) (shutdown c)
    (notifyShutdownCh c) (periodicCallbacks c) (notifySyncCh c).

Definition set_shutdown (b : bool) c : Syncer Env :=
  mkSyncer (consulAvailable c) (servicesGroups c) (checkGroups c)
    (trackedChecks c) (trackedServices c) (checkRunners c) (addrFinder c)
    (createDelegatedCheck c) (delegateChecks c) b
    (notifyShutdownCh c) (periodicCallbacks c) (notifySyncCh c).

Definition set_notifyShutdownCh (ch : option chan) c : Syncer Env :=
  mkSyncer (consulAvailable c) (servicesGroups c) (checkGroups c)
    (trackedChecks c) (trackedServices c) (checkRunners c) (addrFinder c)
    (createDelegatedCheck c) (delegateChecks c) (shutdown c)
    ch (periodicCallbacks c) (notifySyncCh c).

(** [<-ch] once the case is taken: one element leaves the buffer. *)
Definition chanRecv (ch : option chan) : option chan :=
  match ch with
  | None => None
  | Some c => Some (mkChan (ch_cap c) (pred (ch_len c)))
  end.

(** [signalShutdown]: a non-blocking send on [notifyShutdownCh]. *)
Definition signalShutdown c : Syncer Env :=
  set_notifyShutdownCh (fst (trySend (notifyShutdownCh c))) c.

(** [NumHandlers] *)
Definition NumHandlers c : nat := size (periodicCallbacks c).

(** [RemovePeriodicHandler] *)
Definition RemovePeriodicHandler (name : string) c : Syncer Env :=
  set_periodicCallbacks (delete name (periodicCallbacks c)) c.

(** The status and output [runCheck] reports: the exit code picks the
    status, an error of the probe overrides both. *)
Definition checkStatus (res : CheckRes) : string * string :=
  let state :=
    if Z.eqb (res_ExitCode res) 0 then HealthPassing
    else if Z.eqb (res_ExitCode res) 1 then HealthWarning
    else HealthCritical in
  match res_Err res with
  | Some msg => (HealthCritical, msg)
  | None => (state, res_Output res)
  end.

(** [runCheck], given the result [res] of [check.Run()]; the log line on a
    run longer than the timeout is left out.  Returned with the syncer and
    the world: the call made to the agent. *)
Definition runCheck `{AgentTTL Env} (res : CheckRes) (check : Check) c (env : Env)
  : Syncer Env * Env * TTLUpdate :=
  let '(state, output) := checkStatus res in
  let '(env', err) := agent_UpdateTTL (check_ID check) output state env in
  let c' :=
    match err with
    | Some _ =>
        if consulAvailable c then set_consulAvailable false c
        else set_consulAvailable true c
    | None => c
    end in
  (c', env', mkTTLUpdate (check_ID check) output state).
End MoreFieldUpdates.

Section Lifecycle.
Context {Env : Type} `{RangeOrder} `{AgentAPI Env}.

(** The loop of [Shutdown] over [c.checkRunners]: every runner is
    stopped in place. *)
Definition stopRunners (c : Syncer Env) : Syncer Env :=
  foldl (λ c entry,
           set_checkRunners
             (<[fst entry := runner_Stop (snd entry)]> (checkRunners c)) c)
        c (range (checkRunners c)).

(** The loop of [Shutdown] over the IDs of [c.trackedServices]. *)
Fixpoint deregisterTracked (serviceIDs : list string) (errs : list error)
  : M Env (list error) :=
  match serviceIDs with
  | [] => retM errs
  | serviceID :: rest =>
      let* err := callM (EvServiceDeregister serviceID)
                    (agent_ServiceDeregister serviceID) in
      deregisterTracked rest (appendErr errs err)
  end.

Definition Shutdown : M Env (option error) :=
  let* _ := modifySyncer (λ c, if shutdown c then c else set_shutdown true c) in
  let* _ := modifySyncer signalShutdown in
  let* _ := modifySyncer stopRunners in
  let* c := getSyncer in
  let* errs := deregisterTracked (fst <$> range (trackedServices c)) [] in
  retM (ErrorOrNil errs).

(** The loop of [ReapUnmatched] over the IDs the agent returned. *)
Fixpoint reapLoop (domains : list ServiceDomain) (serviceIDs : list string)
    (errs : list error) : M Env (list error) :=
  match serviceIDs with
  | [] => retM errs
  | serviceID :: rest =>
      if negb (HasPrefix serviceID nomadServicePrefix) then
        reapLoop domains rest errs
      else if reapMatch domains serviceID then
        reapLoop domains rest errs
      else
        let* err := deregisterService serviceID in
        reapLoop domains rest (appendErr errs err)
  end.

Definition ReapUnmatched (domains : list ServiceDomain) : M Env (option error) :=
  let* r := callM EvServices agent_Services in
  match r with
  | inr err => retM (Some err)
  | inl servicesInConsul =>
      let* errs := reapLoop domains (fst <$> range servicesInConsul) [] in
      retM (ErrorOrNil errs)
  end.

(** The timer of [Run]: the duration it is armed with, [None] once
    stopped. *)
Record RunState : Type := mkRun {
  run_world : World Env;
  run_timer : option Z;
  run_returned : bool
}.

(** One turn of the loop of [Run] for the case the [select] took (a case
    that was ready); [stagger] is what
    [lib.RandomStagger(syncInterval/syncJitter)] returned. *)
Definition Run_step (stagger : Z) (k : RunCase) (st : RunState) : RunState :=
  match k with
  | CaseTimer =>
      let d := (syncInterval - stagger)%Z in
      let '(err, w) := SyncServices (run_world st) in
      let available := match err with Some _ => false | None => true end in
      mkRun (mkWorld (set_consulAvailable available (w_syncer w)) (w_env w)
               (w_log w))
            (Some d) false
  | CaseNotifySync =>
      let w := run_world st in
      mkRun (mkWorld (set_notifySyncCh (chanRecv (notifySyncCh (w_syncer w)))
                        (w_syncer w)) (w_env w) (w_log w))
            (Some syncInterval) false
  | CaseShutdownCh =>
      let '(_, w) := Shutdown (run_world st) in
      mkRun w (run_timer st) false
  | CaseNotifyShutdown =>
      let w := run_world st in
      mkRun (mkWorld (set_notifyShutdownCh
                        (chanRecv (notifyShutdownCh (w_syncer w))) (w_syncer w))
               (w_env w) (w_log w))
            None true
  end.
End Lifecycle.

(** ** Relations used to state the further properties *)

(** The desired state is well formed: a stored service carries the ID of
    its domain and key, a stored check belongs to the service of its
    domain and key, and checks are stored only under keys that hold a
    service. *)
Definition registryWf {Env : Type} (c : Syncer Env) : Prop :=
  (∀ domain key reg,
     groupLookup (servicesGroups c) domain key = Some reg →
     sr_ID reg = generateConsulServiceID domain key)
  ∧ (∀ domain key chks r,
       groupLookup (checkGroups c) domain key = Some chks → r ∈ chks →
       cr_ServiceID r = generateConsulServiceID domain key)
  ∧ (∀ domain key,
       is_Some (groupLookup (checkGroups c) domain key) →
       is_Some (groupLookup (servicesGroups c) domain key)).

(** The syncer can build every service and check it is given: the address
    finder is installed, and so is the factory unless no check type is
    delegated. *)
Definition configured {Env : Type} (c : Syncer Env) : Prop :=
  is_Some (addrFinder c)
  ∧ (delegateChecks c = ∅ ∨ is_Some (createDelegatedCheck c)).

(** One turn of the last loop of a diff, and the four slices end to end. *)
Definition diffStep {R : Type} (d : diff R) (entry : string * (R * ascii))
  : diff R :=
  let '(r, state) := snd entry in
  if Ascii.eqb state "l" then
    mkDiff (missing d ++ [r]) (equal d) (changed d) (stale d)
  else if Ascii.eqb state "e" then
    mkDiff (missing d) (equal d ++ [r]) (changed d) (stale d)
  else if Ascii.eqb state "c" then
    mkDiff (missing d) (equal d) (changed d ++ [r]) (stale d)
  else if Ascii.eqb state "a" then
    mkDiff (missing d) (equal d) (changed d) (stale d ++ [r])
  else d.

Definition allSlices {R : Type} (d : diff R) : list R :=
  missing d ++ equal d ++ changed d ++ stale d.

(** The agent calls of a phase of the sync, each under the ID it is made
    for, in the shape [handlers_ran] takes. *)
Definition serviceCalls {Env : Type} `{AgentAPI Env}
    (d : diff AgentServiceRegistration)
  : list (string * (Env → Env * option error)) :=
  ((λ service, (sr_ID service, agent_ServiceRegister service))
     <$> missing d ++ changed d)
  ++ ((λ service, (sr_ID service, agent_ServiceDeregister (sr_ID service)))
        <$> stale d).

Definition checkCalls {Env : Type} `{AgentAPI Env}
    (d : diff AgentCheckRegistration)
  : list (string * (Env → Env * option error)) :=
  ((λ check, (cr_ID check, agent_CheckRegister check))
     <$> missing d ++ changed d)
  ++ ((λ check, (cr_ID check, agent_CheckDeregister (cr_ID check)))
        <$> stale d).

(** The events of those calls. *)
Definition serviceEvents (d : diff AgentServiceRegistration) : list Event :=
  (EvServiceRegister <$> missing d ++ changed d)
  ++ ((λ service, EvServiceDeregister (sr_ID service)) <$> stale d).

Definition checkEvents (d : diff AgentCheckRegistration) : list Event :=
  (EvCheckRegister <$> missing d ++ changed d)
  ++ ((λ check, EvCheckDeregister (cr_ID check)) <$> stale d).

(** * Properties *)

Import Sample.

(** ** Strings *)

Lemma append_cons (a : ascii) (s t : string) :
  String a s +:+ t = String a (s +:+ t).
Proof. reflexivity. Qed.

Lemma append_nil_l (t : string) : "" +:+ t = t.
Proof. reflexivity. Qed.

Lemma append_nil_r (s : string) : s +:+ "" = s.
Proof.
  induction s as [|a s IH]; [done | by rewrite append_cons, IH].
Qed.

Lemma append_assoc (s1 s2 s3 : string) :
  (s1 +:+ s2) +:+ s3 = s1 +:+ (s2 +:+ s3).
Proof.
  induction s1 as [|a s1 IH]; [done | by rewrite !append_cons, IH].
Qed.

Lemma append_inv_head (p s1 s2 : string) : p +:+ s1 = p +:+ s2 → s1 = s2.
Proof.
  induction p as [|a p IH]; [done | rewrite !append_cons; intros [=]; auto].
Qed.

Lemma hyphen_free_split (a b r r' : string) :
  hyphen_free a = true → hyphen_free b = true →
  a +:+ "-" +:+ r = b +:+ "-" +:+ r' → a = b ∧ r = r'.
Proof.
  revert b. induction a as [|x a IH]; intros [|y b];
    rewrite ?append_cons, ?append_nil_l; simpl.
  - intros _ _ [=]. done.
  - intros _ [Hy _]%andb_prop [= <- _]. done.
  - intros [Hx _]%andb_prop _ [= -> _]. done.
  - intros [_ Ha]%andb_prop [_ Hb]%andb_prop [= -> Heq].
    destruct (IH b Ha Hb Heq) as [-> ->]. done.
Qed.

Lemma hyphen_free_no_sep (a b r : string) :
  hyphen_free a = true → a ≠ b +:+ "-" +:+ r.
Proof.
  revert b. induction a as [|x a IH]; intros [|y b];
    rewrite ?append_cons, ?append_nil_l; simpl; try done.
  - intros [Hx _]%andb_prop [= -> _]. done.
  - intros [_ Ha]%andb_prop [= _ Heq]. by eapply IH.
Qed.

(** ** Facts on [range] *)

Section RangeFacts.
Context `{RangeOrder}.

Lemma range_elem_of {V : Type} (m : gmap string V) (k : string) (v : V) :
  (k, v) ∈ range m ↔ m !! k = Some v.
Proof. by rewrite range_perm, elem_of_map_to_list. Qed.

Lemma range_NoDup_fst {V : Type} (m : gmap string V) : NoDup (range m).*1.
Proof. rewrite range_perm. apply NoDup_fst_map_to_list. Qed.

Lemma range_empty {V : Type} : range (∅ : gmap string V) = [].
Proof.
  apply Permutation_nil_r. rewrite range_perm. by rewrite map_to_list_empty.
Qed.

Lemma range_keys_perm {V : Type} (m : gmap string V) :
  (range m).*1 ≡ₚ (map_to_list m).*1.
Proof. by rewrite range_perm. Qed.

(** Writing the entries of a list one by one into a map. *)
Lemma foldl_insert_lookup {V : Type} (l : list (string * V))
    (acc : gmap string V) (k : string) :
  NoDup l.*1 →
  foldl (λ m entry, <[fst entry := snd entry]> m) acc l !! k =
    match (list_to_map l : gmap string V) !! k with
    | Some v => Some v
    | None => acc !! k
    end.
Proof.
  revert acc. induction l as [|[k0 v0] l IH]; intros acc Hnd; [done|].
  apply NoDup_cons in Hnd as [Hk0 Hnd]. cbn [foldl fst snd list_to_map foldr].
  rewrite IH by done. simpl. rewrite !lookup_insert.
  destruct (decide (k0 = k)) as [->|Hne].
  - by rewrite (not_elem_of_list_to_map_1 l k).
  - done.
Qed.

Lemma list_to_map_range {V : Type} (m : gmap string V) :
  list_to_map (range m) = m.
Proof.
  rewrite <- (list_to_map_to_list m) at 2.
  apply list_to_map_proper; [apply range_NoDup_fst | apply range_perm].
Qed.

(** The copy loop at the head of [RunHandlers]. *)
Lemma copy_by_range {V : Type} (m : gmap string V) :
  foldl (λ h entry, <[fst entry := snd entry]> h) ∅ (range m) = m.
Proof.
  apply map_eq. intros k.
  rewrite foldl_insert_lookup by apply range_NoDup_fst.
  rewrite list_to_map_range, lookup_empty. by destruct (m !! k).
Qed.
End RangeFacts.

(** ** Identifier scheme *)

Lemma Join_cons2 (a b : string) (r : list string) (sep : string) :
  Join (a :: b :: r) sep = a +:+ sep +:+ Join (b :: r) sep.
Proof. reflexivity. Qed.

Lemma Join_hyphen_free_inj (l1 l2 : list string) :
  Forall (λ t, hyphen_free t = true) l1 →
  Forall (λ t, hyphen_free t = true) l2 →
  l1 ≠ [] → l2 ≠ [] →
  Join l1 "-" = Join l2 "-" → l1 = l2.
Proof.
  revert l2. induction l1 as [|a [|b r1] IH]; intros [|a' [|b' r2]];
    try done; intros H1 H2 _ _.
  - simpl. by intros ->.
  - rewrite Join_cons2. simpl Join at 1. intros Heq.
    apply Forall_cons_1 in H1 as [Ha _].
    by apply hyphen_free_no_sep in Heq.
  - rewrite Join_cons2. simpl Join at 2. intros Heq. symmetry in Heq.
    apply Forall_cons_1 in H2 as [Ha _].
    by apply hyphen_free_no_sep in Heq.
  - rewrite !Join_cons2. intros Heq.
    apply Forall_cons_1 in H1 as [Ha H1].
    apply Forall_cons_1 in H2 as [Ha' H2].
    apply hyphen_free_split in Heq as [-> Heq]; [|done..].
    f_equal. by apply IH.
Qed.

Lemma GenerateServiceKey_nil (n p : string) :
  GenerateServiceKey (mkService n [] p []) = n.
Proof. reflexivity. Qed.

Lemma GenerateServiceKey_unfold (s : Service) :
  GenerateServiceKey s =
    match svc_Tags s with
    | [] => svc_Name s
    | _ :: _ => svc_Name s +:+ "-" +:+ Join (svc_Tags s) "-"
    end.
Proof. unfold GenerateServiceKey. by destruct (svc_Tags s). Qed.

(** Without hyphens inside names and tags the key determines both. *)
Lemma GenerateServiceKey_hyphen_free_inj (s1 s2 : Service) :
  hyphen_free (svc_Name s1) = true →
  hyphen_free (svc_Name s2) = true →
  Forall (λ t, hyphen_free t = true) (svc_Tags s1) →
  Forall (λ t, hyphen_free t = true) (svc_Tags s2) →
  GenerateServiceKey s1 = GenerateServiceKey s2 →
  svc_Name s1 = svc_Name s2 ∧ svc_Tags s1 = svc_Tags s2.
Proof.
  intros Hn1 Hn2 Ht1 Ht2. rewrite !GenerateServiceKey_unfold.
  destruct (svc_Tags s1) as [|t1 r1] eqn:E1, (svc_Tags s2) as [|t2 r2] eqn:E2.
  - done.
  - intros Heq. by apply hyphen_free_no_sep in Heq.
  - intros Heq. symmetry in Heq. by apply hyphen_free_no_sep in Heq.
  - intros Heq. apply hyphen_free_split in Heq as [-> Heq]; [|done..].
    split; [done|]. by apply Join_hyphen_free_inj.
Qed.

(** Inside one domain the Consul service ID determines the key. *)
Lemma generateConsulServiceID_inj (domain : ServiceDomain) (k1 k2 : ServiceKey) :
  generateConsulServiceID domain k1 = generateConsulServiceID domain k2 →
  k1 = k2.
Proof.
  unfold generateConsulServiceID. intros Heq.
  do 4 apply append_inv_head in Heq. done.
Qed.

(** C10, as amended: inside one domain, two services with hyphen-free
    names and tags whose (name, tag list) pairs differ get distinct service
    keys and distinct Consul service IDs; two distinct keys always get
    distinct IDs. *)
Theorem C10_keys_distinct_when_hyphen_free
    (domain : ServiceDomain) (s1 s2 : Service) :
  hyphen_free (svc_Name s1) = true →
  hyphen_free (svc_Name s2) = true →
  Forall (λ t, hyphen_free t = true) (svc_Tags s1) →
  Forall (λ t, hyphen_free t = true) (svc_Tags s2) →
  (svc_Name s1, svc_Tags s1) ≠ (svc_Name s2, svc_Tags s2) →
  GenerateServiceKey s1 ≠ GenerateServiceKey s2
  ∧ generateConsulServiceID domain (GenerateServiceKey s1)
    ≠ generateConsulServiceID domain (GenerateServiceKey s2)
  ∧ (∀ k1 k2 : ServiceKey, k1 ≠ k2 →
       generateConsulServiceID domain k1 ≠ generateConsulServiceID domain k2).
Proof.
  intros Hn1 Hn2 Ht1 Ht2 Hne.
  assert (GenerateServiceKey s1 ≠ GenerateServiceKey s2) as Hk.
  { intros Heq. apply Hne.
    destruct (GenerateServiceKey_hyphen_free_inj s1 s2) as [-> ->]; done. }
  split; [done|]. split.
  - intros Heq. by apply generateConsulServiceID_inj in Heq.
  - intros k1 k2 Hk12 Heq. by apply generateConsulServiceID_inj in Heq.
Qed.

(** The keys of the same service with its two tags in either order. *)
Lemma C10_keys_distinct_witness :
  GenerateServiceKey (mkService "nomad" ["rpc"; "serf"] "rpc" [])
    ≠ GenerateServiceKey (mkService "nomad" ["serf"; "rpc"] "rpc" [])
  ∧ generateConsulServiceID "server"
      (GenerateServiceKey (mkService "nomad" ["rpc"; "serf"] "rpc" []))
    ≠ generateConsulServiceID "server"
      (GenerateServiceKey (mkService "nomad" ["serf"; "rpc"] "rpc" []))
  ∧ (∀ k1 k2 : ServiceKey, k1 ≠ k2 →
       generateConsulServiceID "server" k1 ≠ generateConsulServiceID "server" k2).
Proof.
  apply (C10_keys_distinct_when_hyphen_free "server"
           (mkService "nomad" ["rpc"; "serf"] "rpc" [])
           (mkService "nomad" ["serf"; "rpc"] "rpc" [])).
  - reflexivity.
  - reflexivity.
  - simpl. repeat constructor.
  - simpl. repeat constructor.
  - simpl. intros [=].
Defined.

(** C10 as stated fails: a hyphen inside a name is indistinguishable from
    the separator, so (name "a-b", no tags) and (name "a", tags ["b"])
    differ and share one key and one Consul service ID. *)
Lemma C10_collision :
  (svc_Name (mkService "a-b" [] "" []), svc_Tags (mkService "a-b" [] "" []))
    ≠ (svc_Name (mkService "a" ["b"] "" []), svc_Tags (mkService "a" ["b"] "" []))
  ∧ GenerateServiceKey (mkService "a-b" [] "" [])
    = GenerateServiceKey (mkService "a" ["b"] "" [])
  ∧ generateConsulServiceID "client" (GenerateServiceKey (mkService "a-b" [] "" []))
    = generateConsulServiceID "client" (GenerateServiceKey (mkService "a" ["b"] "" [])).
Proof. split; [intros [=] | split; reflexivity]. Qed.

(** ** Service comparison *)

Section CompareProps.
Context `{RangeOrder}.

Lemma local_tags_lookup (tags : list string) (m : gmap string ascii) (t : string) :
  foldl (λ m tag, <[tag := "l"%char]> m) m tags !! t =
    if decide (t ∈ tags) then Some "l"%char else m !! t.
Proof.
  revert m. induction tags as [|tag tags IH]; intros m.
  - case_decide; [set_solver | done].
  - cbn [foldl]. rewrite IH, lookup_insert.
    repeat case_decide; subst; set_solver.
Qed.

Lemma markConsulTags_Some (tags : list string) (m m' : gmap string ascii) :
  markConsulTags tags m = Some m' →
  (∀ t, t ∈ tags → is_Some (m !! t))
  ∧ (∀ t, m' !! t = if decide (t ∈ tags) then Some "b"%char else m !! t).
Proof.
  revert m. induction tags as [|tag tags IH]; intros m.
  - intros [= <-]. split; [set_solver|].
    intros t. case_decide; [set_solver | done].
  - cbn [markConsulTags]. destruct (m !! tag) as [st|] eqn:Hm; [|done].
    intros [Hall Hlk]%IH. split.
    + intros t [->|Hin]%elem_of_cons; [by eexists|].
      specialize (Hall t Hin). rewrite lookup_insert in Hall.
      case_decide; subst; [by eexists | done].
    + intros t. rewrite Hlk, lookup_insert.
      repeat case_decide; subst; set_solver.
Qed.

Lemma markConsulTags_None (tags : list string) (m : gmap string ascii) :
  markConsulTags tags m = None → ∃ t, t ∈ tags ∧ m !! t = None.
Proof.
  revert m. induction tags as [|tag tags IH]; intros m; [done|].
  cbn [markConsulTags]. destruct (m !! tag) as [st|] eqn:Hm.
  - intros (t & Hin & Hlk)%IH. exists t. split; [by right|].
    rewrite lookup_insert in Hlk. by case_decide.
  - intros _. exists tag. split; [by left | done].
Qed.

Lemma still_local_spec (m : gmap string ascii) :
  existsb (λ kv, Ascii.eqb (snd kv) "l"%char) (range m) = true
  ↔ ∃ t, m !! t = Some "l"%char.
Proof.
  rewrite existsb_exists. split.
  - intros ([t st] & Hin & Heq). simpl in Heq.
    apply Ascii.eqb_eq in Heq as ->.
    exists t. apply range_elem_of. by apply list_elem_of_In.
  - intros [t Ht]. exists (t, "l"%char). split.
    + apply list_elem_of_In. by apply range_elem_of.
    + by apply Ascii.eqb_eq.
Qed.

(** The tag comparison of [compareConsulService] is equality of the two
    tag lists as sets. *)
Lemma compare_tags_spec (localTags consulTags : list string) :
  match markConsulTags consulTags
          (foldl (λ m tag, <[tag := "l"%char]> m) ∅ localTags) with
  | None => false
  | Some serviceTags =>
      negb (existsb (λ kv, Ascii.eqb (snd kv) "l"%char) (range serviceTags))
  end = true
  ↔ ∀ t, t ∈ localTags ↔ t ∈ consulTags.
Proof.
  destruct (markConsulTags _ _) as [m'|] eqn:Hmark.
  - apply markConsulTags_Some in Hmark as [Hall Hlk].
    rewrite negb_true_iff, <- not_true_iff_false, still_local_spec. split.
    + intros Hno t. split.
      * intros Hin. destruct (decide (t ∈ consulTags)) as [|Hnin]; [done|].
        exfalso. apply Hno. exists t.
        rewrite Hlk, decide_False, local_tags_lookup, decide_True by done.
        done.
      * intros Hin. specialize (Hall t Hin).
        rewrite local_tags_lookup in Hall.
        destruct (decide (t ∈ localTags)); [done|].
        rewrite lookup_empty in Hall. by destruct Hall.
    + intros Heq [t Ht]. rewrite Hlk in Ht.
      destruct (decide (t ∈ consulTags)) as [|Hnin]; [done|].
      rewrite local_tags_lookup in Ht.
      destruct (decide (t ∈ localTags)) as [Hin|]; [|by rewrite lookup_empty in Ht].
      by apply Heq in Hin.
  - apply markConsulTags_None in Hmark as (t & Hin & Hlk).
    rewrite local_tags_lookup in Hlk.
    destruct (decide (t ∈ localTags)) as [|Hnin]; [done|].
    split; [done|]. intros Heq. by apply Heq in Hin.
Qed.

(** C6, as amended: [compareConsulService] holds exactly when ID, display
    name, port, address and EnableTagOverride agree and the two tag lists
    have the same members; order and repetition of tags are ignored. *)
Theorem C6_compareConsulService_iff
    (localService : AgentServiceRegistration) (consulService : AgentService) :
  compareConsulService localService consulService = true
  ↔ as_ID consulService = sr_ID localService
    ∧ as_Service consulService = sr_Name localService
    ∧ as_Port consulService = sr_Port localService
    ∧ as_Address consulService = sr_Address localService
    ∧ as_EnableTagOverride consulService = sr_EnableTagOverride localService
    ∧ (∀ t, t ∈ sr_Tags localService ↔ t ∈ as_Tags consulService).
Proof.
  unfold compareConsulService.
  destruct (String.eqb_spec (as_ID consulService) (sr_ID localService));
    [|simpl; naive_solver].
  destruct (String.eqb_spec (as_Service consulService) (sr_Name localService));
    [|simpl; naive_solver].
  destruct (Z.eqb_spec (as_Port consulService) (sr_Port localService));
    [|simpl; naive_solver].
  destruct (String.eqb_spec (as_Address consulService) (sr_Address localService));
    [|simpl; naive_solver].
  destruct (Bool.eqb_spec (as_EnableTagOverride consulService)
              (sr_EnableTagOverride localService));
    [|simpl; naive_solver].
  simpl. rewrite compare_tags_spec. naive_solver.
Qed.
End CompareProps.

(** C6 as stated fails on repeated tags: the local tag list ["a"; "a"] and
    the agent's tag list ["a"] compare equal. *)
Lemma C6_duplicate_tags_compare_equal :
  compareConsulService
    (mkServiceReg "_nomad-client-web-a-a" "web" ["a"; "a"] 80 "10.0.0.1" false)
    (mkAgentService "_nomad-client-web-a-a" "web" ["a"] 80 "10.0.0.1" false)
  = true.
Proof. vm_compute. reflexivity. Qed.

(** ** The loops of [SetServices] *)

Section SetServicesLoops.
Context {Env : Type} `{RangeOrder} `{Externals}.
Implicit Types c : Syncer Env.
Implicit Types fr : setFrame (Env := Env).

Lemma set_checkRunners_same c : set_checkRunners (checkRunners c) c = c.
Proof. by destruct c. Qed.

Lemma set_checkRunners_twice c r r' :
  set_checkRunners r (set_checkRunners r' c) = set_checkRunners r c.
Proof. done. Qed.

Lemma createCheckReg_inr (check : ServiceCheck) (service : AgentServiceRegistration)
    (err : error) :
  createCheckReg check service = inr err
  ↔ validCheckType (sc_Type check) = false
    ∧ err = ErrCheckTypeNotValid (sc_Type check).
Proof.
  unfold createCheckReg, validCheckType.
  destruct (String.eqb (sc_Type check) ServiceCheckHTTP); [naive_solver|].
  destruct (String.eqb (sc_Type check) ServiceCheckTCP); [naive_solver|].
  destruct (String.eqb (sc_Type check) ServiceCheckScript); naive_solver.
Qed.

Lemma createService_runners c r (service : Service) (domain key : string) :
  createService (set_checkRunners r c) service domain key
  = createService c service domain key.
Proof. done. Qed.

(** Invariants are carried over the two loops turn by turn. *)
Lemma setServiceChecks_invariant (P : setFrame → Prop) (key : string)
    (reg : AgentServiceRegistration) (checks : list ServiceCheck) fr fr' :
  (∀ fr1 chk fr2, P fr1 → chk ∈ checks →
     setServiceCheck key reg fr1 chk = Some fr2 → P fr2) →
  P fr → setServiceChecks key reg checks fr = Some fr' → P fr'.
Proof.
  revert fr. induction checks as [|chk rest IH]; intros fr Hstep HP.
  - by intros [= <-].
  - cbn [setServiceChecks].
    destruct (setServiceCheck key reg fr chk) as [fr1|] eqn:H1; [|done].
    apply IH.
    + intros fr2 chk' fr3 HP2 Hin. apply Hstep; [done | by right].
    + eapply Hstep; [done | by left | done].
Qed.

Lemma setServicesLoop_invariant (P : setFrame → Prop) (domain : string)
    (entries : list (string * Service)) fr fr' :
  (∀ fr1 entry fr2, P fr1 → entry ∈ entries →
     setService domain fr1 entry = Some fr2 → P fr2) →
  P fr → setServicesLoop domain entries fr = Some fr' → P fr'.
Proof.
  revert fr. induction entries as [|entry rest IH]; intros fr Hstep HP.
  - by intros [= <-].
  - cbn [setServicesLoop].
    destruct (setService domain fr entry) as [fr1|] eqn:H1; [|done].
    apply IH.
    + intros fr2 entry' fr3 HP2 Hin. apply Hstep; [done | by right].
    + eapply Hstep; [done | by left | done].
Qed.

(** What one turn of the inner loop can do to the frame. *)
Lemma setServiceCheck_cases (key : string) (reg : AgentServiceRegistration)
    fr (chk : ServiceCheck) fr' :
  setServiceCheck key reg fr chk = Some fr' →
  (∃ err, fr' = mkFrame (fr_syncer fr) (fr_errs fr ++ [err]) (fr_services fr)
                  (fr_checks fr)
          ∧ (createCheckReg chk reg = inr err
             ∨ ∃ create r, createCheckReg chk reg = inl r
                 ∧ createDelegatedCheck (fr_syncer fr) = Some create
                 ∧ create chk (cr_ID r) = inr err))
  ∨ fr' = fr ∧ (∃ r, createCheckReg chk reg = inl r)
  ∨ (∃ r runners, createCheckReg chk reg = inl r
       ∧ fr' = mkFrame (set_checkRunners runners (fr_syncer fr)) (fr_errs fr)
                 (fr_services fr) (appendCheck key r (fr_checks fr))).
Proof.
  unfold setServiceCheck.
  destruct (createCheckReg chk reg) as [r|err] eqn:Hreg.
  - destruct (decide (sc_Type chk ∈ delegateChecks (fr_syncer fr))).
    + destruct (checkRunners (fr_syncer fr) !! cr_ID r) eqn:Hrun.
      * intros [= <-]. right. left. eauto.
      * destruct (createDelegatedCheck (fr_syncer fr)) as [create|] eqn:Hc; [|done].
        destruct (create chk (cr_ID r)) as [nc|err] eqn:Hmk.
        -- intros [= <-]. right. right. eauto.
        -- intros [= <-]. left. exists err. split; [done|]. right. eauto.
    + intros [= <-]. right. right. exists r, (checkRunners (fr_syncer fr)).
      by rewrite set_checkRunners_same.
  - intros [= <-]. left. eauto.
Qed.

Lemma frameSound_init c domain entries :
  frameSound c domain entries (mkFrame c [] ∅ ∅).
Proof.
  split; simpl.
  - by rewrite set_checkRunners_same.
  - by intros err ?%not_elem_of_nil.
  - intros key reg. by rewrite lookup_empty.
  - intros key chks. by rewrite lookup_empty.
Qed.

Lemma entries_functional (entries : list (string * Service)) key s1 s2 :
  NoDup entries.*1 → (key, s1) ∈ entries → (key, s2) ∈ entries → s1 = s2.
Proof.
  intros Hnd H1%(elem_of_list_to_map_1 (M := gmap string)) H2%(elem_of_list_to_map_1 (M := gmap string));
    [|done..].
  congruence.
Qed.

Lemma frameSound_check c domain entries key service reg fr chk fr' :
  NoDup entries.*1 →
  (key, service) ∈ entries →
  createService c service domain key = Some (inl reg) →
  chk ∈ svc_Checks service →
  frameSound c domain entries fr →
  setServiceCheck key reg fr chk = Some fr' →
  frameSound c domain entries fr'.
Proof.
  intros Hnd Hentry Hreg Hchk [Hs He Hsv Hck]
    [(err & -> & Herr)|[[-> _]|(r & runners & Hr & ->)]]%setServiceCheck_cases.
  - split; simpl; try done.
    intros err' [Hin| ->%list_elem_of_singleton]%elem_of_app; [by apply He|].
    exists key, service, chk. split; [done|]. split; [done|].
    destruct Herr as [Herr|(create & r & Hr & Hc & Hmk)].
    + left. by apply createCheckReg_inr in Herr.
    + right. exists create, (cr_ID r). split; [|done].
      rewrite Hs in Hc. done.
  - done.
  - split; simpl; try done.
    + rewrite Hs. done.
    + intros key' chks. unfold appendCheck. rewrite lookup_insert.
      destruct (decide (key = key')) as [<-|Hne]; [|by apply Hck].
      intros [= <-]. exists service, reg. split; [done|]. split; [done|].
      apply Forall_app. split.
      * destruct (fr_checks fr !! key) as [old|] eqn:Hold; simpl; [|done].
        destruct (Hck key old Hold) as (service' & reg' & Hin' & Hreg' & Hall).
        assert (service' = service) as -> by by eapply entries_functional.
        by replace reg with reg' by congruence.
      * apply Forall_singleton. by exists chk.
Qed.

Lemma frameSound_entry c domain entries entry fr fr' :
  NoDup entries.*1 →
  entry ∈ entries →
  frameSound c domain entries fr →
  setService domain fr entry = Some fr' →
  frameSound c domain entries fr'.
Proof.
  intros Hnd Hentry Hfr. destruct entry as [key service].
  unfold setService.
  destruct (createService (fr_syncer fr) service domain key)
    as [[reg|err]|] eqn:Hreg; [| |done].
  - rewrite (sound_syncer _ _ _ _ Hfr), createService_runners in Hreg.
    apply setServiceChecks_invariant.
    + intros fr1 chk fr2 H1 Hin. by eapply frameSound_check.
    + destruct Hfr as [Hs He Hsv Hck]. split; simpl; try done.
      intros key' reg'. rewrite lookup_insert.
      destruct (decide (key = key')) as [<-|Hne]; [|by apply Hsv].
      intros [= <-]. by exists service.
  - unfold createService in Hreg.
    destruct (addrFinder (fr_syncer fr)); [|done].
    by destruct (_ (svc_PortLabel service)).
Qed.

Lemma frameSound_loop c domain entries fr' :
  NoDup entries.*1 →
  setServicesLoop domain entries (mkFrame c [] ∅ ∅) = Some fr' →
  frameSound c domain entries fr'.
Proof.
  intros Hnd. apply setServicesLoop_invariant.
  - intros fr1 entry fr2 H1 Hin. by apply frameSound_entry.
  - apply frameSound_init.
Qed.

(** Nothing is lost on the way: errors only accumulate, every entry gets
    its registration, and every check of a rejected type leaves its
    error. *)
Lemma setServiceChecks_complete key reg (checks : list ServiceCheck) fr fr' :
  setServiceChecks key reg checks fr = Some fr' →
  fr_services fr' = fr_services fr
  ∧ (∃ new, fr_errs fr' = fr_errs fr ++ new)
  ∧ (∀ chk, chk ∈ checks → validCheckType (sc_Type chk) = false →
       ErrCheckTypeNotValid (sc_Type chk) ∈ fr_errs fr').
Proof.
  revert fr. induction checks as [|chk rest IH]; intros fr.
  - intros [= <-]. split; [done|]. split; [by exists []; rewrite app_nil_r|].
    by intros chk ?%not_elem_of_nil.
  - cbn [setServiceChecks].
    destruct (setServiceCheck key reg fr chk) as [fr1|] eqn:H1; [|done].
    intros (Hsv & [new Hnew] & Hall)%IH.
    assert (fr_services fr1 = fr_services fr
            ∧ (∃ new1, fr_errs fr1 = fr_errs fr ++ new1)
            ∧ (validCheckType (sc_Type chk) = false →
               ErrCheckTypeNotValid (sc_Type chk) ∈ fr_errs fr1))
      as (Hsv1 & [new1 Hnew1] & Hbad).
    { pose proof H1 as
        [(err & -> & Herr)|[[-> [r Hr]]|(r & runners & Hr & ->)]]%setServiceCheck_cases;
        simpl.
      - split; [done|]. split; [by eexists|]. intros Hinv.
        assert (createCheckReg chk reg = inr (ErrCheckTypeNotValid (sc_Type chk)))
          as Hc' by by apply createCheckReg_inr.
        destruct Herr as [Herr|(? & ? & Herr & _)]; [|congruence].
        rewrite Hc' in Herr. injection Herr as <-.
        apply elem_of_app. right. by left.
      - split; [done|]. split; [by exists []; rewrite app_nil_r|]. intros Hinv.
        assert (createCheckReg chk reg = inr (ErrCheckTypeNotValid (sc_Type chk)))
          as Hc' by by apply createCheckReg_inr.
        congruence.
      - split; [done|]. split; [by exists []; rewrite app_nil_r|]. intros Hinv.
        assert (createCheckReg chk reg = inr (ErrCheckTypeNotValid (sc_Type chk)))
          as Hc' by by apply createCheckReg_inr.
        congruence. }
    split; [congruence|]. split.
    { exists (new1 ++ new). by rewrite Hnew, Hnew1, app_assoc. }
    intros chk' [->|Hin]%elem_of_cons Hinv; [|by apply Hall].
    rewrite Hnew. apply elem_of_app. left. by apply Hbad.
Qed.

Lemma setService_complete domain fr key service fr' :
  setService domain fr (key, service) = Some fr' →
  (∃ new, fr_errs fr' = fr_errs fr ++ new)
  ∧ (∀ key', is_Some (fr_services fr !! key') → is_Some (fr_services fr' !! key'))
  ∧ is_Some (fr_services fr' !! key)
  ∧ (∀ chk, chk ∈ svc_Checks service → validCheckType (sc_Type chk) = false →
       ErrCheckTypeNotValid (sc_Type chk) ∈ fr_errs fr').
Proof.
  unfold setService.
  destruct (createService (fr_syncer fr) service domain key)
    as [[reg|err]|] eqn:Hreg; [| |done].
  - intros (Hsv & Hnew & Hbad)%setServiceChecks_complete. simpl in *.
    rewrite Hsv. split; [done|]. split; [|split; [|done]].
    + intros key' Hsome. rewrite lookup_insert. by case_decide.
    + rewrite lookup_insert_eq. by eexists.
  - unfold createService in Hreg.
    destruct (addrFinder (fr_syncer fr)); [|done].
    by destruct (_ (svc_PortLabel service)).
Qed.

Lemma setServicesLoop_complete domain (entries : list (string * Service)) fr fr' :
  setServicesLoop domain entries fr = Some fr' →
  (∃ new, fr_errs fr' = fr_errs fr ++ new)
  ∧ (∀ key, is_Some (fr_services fr !! key) → is_Some (fr_services fr' !! key))
  ∧ (∀ key service, (key, service) ∈ entries →
       is_Some (fr_services fr' !! key)
       ∧ ∀ chk, chk ∈ svc_Checks service → validCheckType (sc_Type chk) = false →
           ErrCheckTypeNotValid (sc_Type chk) ∈ fr_errs fr').
Proof.
  revert fr. induction entries as [|[key service] rest IH]; intros fr.
  - intros [= <-]. split; [by exists []; rewrite app_nil_r|]. split; [done|].
    by intros key service ?%not_elem_of_nil.
  - cbn [setServicesLoop].
    destruct (setService domain fr (key, service)) as [fr1|] eqn:H1; [|done].
    apply setService_complete in H1 as ([new1 Hnew1] & Hmono1 & Hkey & Hbad).
    intros ([new Hnew] & Hmono & Hall)%IH.
    split. { exists (new1 ++ new). by rewrite Hnew, Hnew1, app_assoc. }
    split. { intros key' Hsome. by apply Hmono, Hmono1. }
    intros key' service' [[= -> ->]|Hin]%elem_of_cons; [|by apply Hall].
    split; [by apply Hmono|]. intros chk Hin Hinv.
    rewrite Hnew. apply elem_of_app. left. by apply Hbad.
Qed.

(** The store loops: the group of [domain] takes every registered entry
    and keeps the other keys; other domains stay; nothing registered,
    nothing written. *)
Lemma storeGroup_list_lookup {V : Type} (domain : string) (l : list (string * V))
    (groups : gmap string (gmap string V)) (key : string) :
  NoDup l.*1 →
  groupLookup
    (foldl (λ groups entry,
              let serviceKeys := default ∅ (groups !! domain) in
              <[domain := <[fst entry := snd entry]> serviceKeys]> groups)
           groups l) domain key
  = match (list_to_map l : gmap string V) !! key with
    | Some v => Some v
    | None => groupLookup groups domain key
    end.
Proof.
  revert groups. induction l as [|[k0 v0] l IH]; intros groups Hnd; [done|].
  apply NoDup_cons in Hnd as [Hk0 Hnd]. cbn [foldl fst snd list_to_map foldr].
  rewrite IH by done. simpl. rewrite lookup_insert.
  destruct (decide (k0 = key)) as [->|Hne].
  - rewrite (not_elem_of_list_to_map_1 l key) by done.
    unfold groupLookup. rewrite lookup_insert_eq. simpl.
    by rewrite lookup_insert_eq.
  - destruct (list_to_map l !! key); [done|].
    unfold groupLookup. rewrite lookup_insert_eq. simpl.
    rewrite lookup_insert_ne by done.
    destruct (groups !! domain); simpl; [done|]. apply lookup_empty.
Qed.

Lemma storeGroup_lookup {V : Type} (domain : string) (registered : gmap string V)
    (groups : gmap string (gmap string V)) (key : string) :
  groupLookup (storeGroup domain registered groups) domain key
  = match registered !! key with
    | Some v => Some v
    | None => groupLookup groups domain key
    end.
Proof.
  unfold storeGroup. rewrite storeGroup_list_lookup by apply range_NoDup_fst.
  by rewrite list_to_map_range.
Qed.

Lemma storeGroup_other {V : Type} (domain domain' : string)
    (registered : gmap string V) (groups : gmap string (gmap string V)) :
  domain' ≠ domain →
  storeGroup domain registered groups !! domain' = groups !! domain'.
Proof.
  intros Hne. unfold storeGroup. generalize (range registered). intros l.
  revert groups. induction l as [|e l IH]; intros groups; [done|].
  cbn [foldl]. rewrite IH. by rewrite lookup_insert_ne.
Qed.

Lemma storeGroup_empty {V : Type} (domain : string)
    (groups : gmap string (gmap string V)) :
  storeGroup domain ∅ groups = groups.
Proof. unfold storeGroup. by rewrite range_empty. Qed.

(** A nil [notifySyncCh] stays nil over [SetServices], whatever it
    returns. *)
Lemma SetServices_nil_channel c (domain : string)
    (services : gmap string Service) c' (err : option error) :
  notifySyncCh c = None →
  SetServices c domain services = Some (c', err) →
  notifySyncCh c' = None ∧ canReceive (notifySyncCh c') = false.
Proof.
  intros Hnil. unfold SetServices.
  destruct (setServicesLoop domain (range services) (mkFrame c [] ∅ ∅))
    as [fr|] eqn:Hloop; [|done].
  pose proof (frameSound_loop _ _ _ _ (range_NoDup_fst services) Hloop)
    as [Hs _ _ _].
  assert (notifySyncCh (fr_syncer fr) = None) as Hfr by by rewrite Hs.
  destruct (fr_errs fr).
  - intros [= <- <-]. simpl. by rewrite Hfr.
  - intros [= <- <-]. by rewrite Hfr.
Qed.

End SetServicesLoops.

(** ** [SetServices] on sample input *)





(** ** The immediate-sync signal *)

Lemma SyncNow_nil_channel {Env : Type} (c : Syncer Env) :
  notifySyncCh c = None → notifySyncCh (SyncNow c) = None.
Proof. unfold SyncNow. simpl. by intros ->. Qed.

(** What [SyncNow] does on a channel that was made with one slot: an empty
    slot is filled, a filled slot stays as it is. *)
Lemma SyncNow_one_slot {Env : Type} (c : Syncer Env) (n : nat) :
  notifySyncCh c = Some (mkChan 1 n) →
  notifySyncCh (SyncNow c) = Some (mkChan 1 (if decide (n = 0) then 1 else n)).
Proof.
  unfold SyncNow. simpl. intros ->. simpl.
  destruct n as [|n]; simpl; [done|].
  destruct (decide (S n < 1)); [lia | done].
Qed.

(** C2 fails on the code: [NewSyncer] leaves [notifySyncCh] nil, so the
    send in [SyncNow] always falls to [default].  After a successful
    [SetServices] on a syncer made by [NewSyncer] no signal is pending and
    the receive case of the loop's [select] cannot proceed. *)
Theorem C2_no_signal_after_SetServices :
  notifySyncCh (NewSyncer FakeAgent) = None
  ∧ match SetServices fresh "server" {[nomadKey := nomadService]} with
    | Some (c', None) =>
        canReceive (notifySyncCh c') = false
        ∧ ∀ timerFired shutdownChReady,
            Run_case_ready c' timerFired shutdownChReady CaseNotifySync = false
    | _ => False
    end.
Proof. vm_compute. repeat split. Qed.

(** ** Ownership filters *)

Lemma prefix_append_l (p q s : string) :
  String.prefix (p +:+ q) s = true → String.prefix p s = true.
Proof.
  revert s. induction p as [|a p IH]; intros s.
  - intros _. by destruct s.
  - rewrite append_cons. destruct s as [|b s]; [done|]. simpl.
    destruct (ascii_dec a b); [apply IH | done].
Qed.

Section FilterFacts.
Context {Env : Type} `{RangeOrder}.
Implicit Types c : Syncer Env.

Lemma ownedBy_spec {V : Type} (groups : gmap string V) (id : string) :
  ownedBy groups id = true
  ↔ ∃ domain, is_Some (groups !! domain)
      ∧ HasPrefix id (nomadServicePrefix +:+ "-" +:+ domain) = true.
Proof.
  unfold ownedBy. rewrite existsb_exists. split.
  - intros ([domain v] & Hin%list_elem_of_In%range_elem_of & Hp).
    exists domain. split; [by eexists | done].
  - intros (domain & [v Hlk] & Hp). exists (domain, v).
    split; [by apply list_elem_of_In, range_elem_of | done].
Qed.

Lemma filter_fold_lookup {V : Type} (keep : V → bool) (l : list (string * V))
    (acc : gmap string V) (key : string) :
  NoDup l.*1 →
  foldl (λ kept entry,
           if keep (snd entry) then <[fst entry := snd entry]> kept else kept)
        acc l !! key
  = match (list_to_map l : gmap string V) !! key with
    | Some v => if keep v then Some v else acc !! key
    | None => acc !! key
    end.
Proof.
  revert acc. induction l as [|[k0 v0] l IH]; intros acc Hnd; [done|].
  apply NoDup_cons in Hnd as [Hk0 Hnd]. cbn [foldl fst snd list_to_map foldr].
  rewrite IH by done. simpl. rewrite lookup_insert.
  destruct (decide (k0 = key)) as [->|Hne].
  - rewrite (not_elem_of_list_to_map_1 l key) by done.
    destruct (keep v0); [by rewrite lookup_insert_eq | done].
  - destruct (list_to_map l !! key) as [v|]; [destruct (keep v); [done|]|];
      destruct (keep v0); by rewrite ?lookup_insert_ne.
Qed.

(** A service is kept exactly when its ID starts with "_nomad-" + domain,
    hyphen after the domain not included, for a domain of [servicesGroups]. *)
Lemma filterConsulServices_lookup c (consulServices : gmap string AgentService)
    (key : string) (service : AgentService) :
  filterConsulServices c consulServices !! key = Some service
  ↔ consulServices !! key = Some service
    ∧ ∃ domain, is_Some (servicesGroups c !! domain)
        ∧ HasPrefix (as_ID service) (nomadServicePrefix +:+ "-" +:+ domain) = true.
Proof.
  unfold filterConsulServices. rewrite <- ownedBy_spec.
  rewrite (filter_fold_lookup (λ s, ownedBy (servicesGroups c) (as_ID s)))
    by apply range_NoDup_fst.
  rewrite list_to_map_range, lookup_empty.
  destruct (consulServices !! key) as [s|].
  - destruct (ownedBy (servicesGroups c) (as_ID s)) eqn:Ho.
    + split; [by intros [= ->] | by intros [[= ->] _]].
    + split; [done | intros [[= ->] ?]; congruence].
  - split; [done | by intros [? _]].
Qed.

Lemma filterConsulChecks_lookup c (consulChecks : gmap string AgentCheck)
    (key : string) (check : AgentCheck) :
  filterConsulChecks c consulChecks !! key = Some check
  ↔ consulChecks !! key = Some check
    ∧ ∃ domain, is_Some (checkGroups c !! domain)
        ∧ HasPrefix (ac_ServiceID check) (nomadServicePrefix +:+ "-" +:+ domain) = true.
Proof.
  unfold filterConsulChecks. rewrite <- ownedBy_spec.
  rewrite (filter_fold_lookup (λ k, ownedBy (checkGroups c) (ac_ServiceID k)))
    by apply range_NoDup_fst.
  rewrite list_to_map_range, lookup_empty.
  destruct (consulChecks !! key) as [k|].
  - destruct (ownedBy (checkGroups c) (ac_ServiceID k)) eqn:Ho.
    + split; [by intros [= ->] | by intros [[= ->] _]].
    + split; [done | intros [[= ->] ?]; congruence].
  - split; [done | by intros [? _]].
Qed.

(** One half of the ownership rule holds: a service whose ID carries the
    full prefix "_nomad-" + domain + "-" of a known domain is kept. *)
Lemma filterConsulServices_keeps_owned c (consulServices : gmap string AgentService)
    (key domain : string) (service : AgentService) :
  consulServices !! key = Some service →
  is_Some (servicesGroups c !! domain) →
  HasPrefix (as_ID service) (nomadServicePrefix +:+ "-" +:+ domain +:+ "-") = true →
  filterConsulServices c consulServices !! key = Some service.
Proof.
  intros Hlk Hdom Hp. apply filterConsulServices_lookup. split; [done|].
  exists domain. split; [done|]. unfold HasPrefix in *.
  apply (prefix_append_l _ "-").
  by rewrite !append_assoc in *.
Qed.
End FilterFacts.

(** C3 fails on the code: the filters test the prefix "_nomad-" + domain
    without the hyphen that closes the domain.  With "client" the only
    known domain, a service of the domain "clientele" and a check of that
    service are kept, although the hyphenated test of [ReapUnmatched]
    rejects the ID. *)
Theorem C3_filter_keeps_foreign_domain :
  let c := afterSet fresh "client" {["web" := webService]} in
  let foreign := mkAgentService "_nomad-clientele-db" "db" [] 5432 "10.0.0.9" false in
  let foreignCheck := mkAgentCheck "c1" "db alive" "" "_nomad-clientele-db" "passing" in
  (map_to_list (servicesGroups c)).*1 = ["client"]
  ∧ (map_to_list (checkGroups c)).*1 = ["client"]
  ∧ HasPrefix (as_ID foreign) (nomadServicePrefix +:+ "-" +:+ "client" +:+ "-") = false
  ∧ filterConsulServices c {["_nomad-clientele-db" := foreign]} !! "_nomad-clientele-db"
    = Some foreign
  ∧ filterConsulChecks c {["c1" := foreignCheck]} !! "c1" = Some foreignCheck
  ∧ reapMatch ["client"] "_nomad-clientele-db" = false.
Proof. vm_compute. repeat split. Qed.

(** The check filter walks the domains of [checkGroups], not those of
    [servicesGroups]: while a domain holds services without checks, a check
    the agent holds for one of its services is not kept. *)
Lemma filterConsulChecks_walks_checkGroups :
  let c := afterSet fresh "server" {[nomadKey := nomadService]} in
  let check :=
    mkAgentCheck "c1" "alive" "" (generateConsulServiceID "server" nomadKey)
      "passing" in
  (map_to_list (servicesGroups c)).*1 = ["server"]
  ∧ checkGroups c = ∅
  ∧ filterConsulChecks c {["c1" := check]} = ∅.
Proof. vm_compute. repeat split. Qed.

(** ** Tracked state *)

Section TrackedFacts.
Context {Env : Type} `{AgentAPI Env}.

(** Whatever the agent answers, the loop over the missing services
    leaves every one of them tracked. *)
Lemma registerMissingServices_tracks (services : list AgentServiceRegistration)
    (errs errs' : list error) (w w' : World Env) :
  registerMissingServices services errs w = (errs', w') →
  (∀ id, is_Some (trackedServices (w_syncer w) !! id) →
     is_Some (trackedServices (w_syncer w') !! id))
  ∧ ∀ service, service ∈ services →
      is_Some (trackedServices (w_syncer w') !! sr_ID service).
Proof.
  revert errs w. induction services as [|service rest IH]; intros errs w.
  - intros [= <- <-]. split; [done|]. by intros service ?%not_elem_of_nil.
  - cbn [registerMissingServices]. unfold bindM, callM, modifySyncer.
    destruct (agent_ServiceRegister service (w_env w)) as [env1 err].
    intros [Hmono Hall]%IH. cbn [w_syncer trackedServices set_trackedServices]
      in Hmono.
    split.
    + intros id Hid. apply Hmono. rewrite lookup_insert.
      by case_decide; [eexists|].
    + intros service' [->|Hin]%elem_of_cons; [|by apply Hall].
      apply Hmono. rewrite lookup_insert_eq. by eexists.
Qed.
End TrackedFacts.

(** C4 fails on the code: the loops over the missing and the stale items
    write the tracked maps after the agent call whatever it returned.  With
    an agent that refuses every call, [syncServices] and [syncChecks] return
    the error, the agent holds nothing, and the service and the check are
    tracked all the same. *)
Theorem C4_tracked_after_failed_register :
  let c := afterSet fresh "client" {["web" := webService]} in
  let serviceID := generateConsulServiceID "client" "web" in
  let checkID := check_Hash tcpCheck serviceID in
  let '(err1, w1) := syncServices (mkWorld c downAgent []) in
  let '(err2, w2) := syncChecks w1 in
  trackedServices c !! serviceID = None
  ∧ trackedChecks c !! checkID = None
  ∧ err1 = Some (MultiError [refused])
  ∧ err2 = Some (MultiError [refused; refused])
  ∧ fa_services (w_env w2) = ∅
  ∧ fa_checks (w_env w2) = ∅
  ∧ is_Some (trackedServices (w_syncer w1) !! serviceID)
  ∧ is_Some (trackedChecks (w_syncer w2) !! checkID).
Proof. vm_compute. repeat split; by eexists. Qed.

(** ** Runner table *)

(** C7 fails on the code: when a delegated check already has a runner,
    [SetServices] skips the check altogether, so a second, identical and
    successful [SetServices] stores the service's check list without the
    delegated check while its runner stays in the table. *)
Theorem C7_runner_without_desired_check :
  let checkID := check_Hash scriptCheck (generateConsulServiceID "client" "web") in
  match SetServices fresh "client" {["web" := webService]} with
  | Some (c1, None) =>
      checkID ∈ cr_ID <$> flattenedChecks c1
      ∧ is_Some (checkRunners c1 !! checkID)
      ∧ match SetServices c1 "client" {["web" := webService]} with
        | Some (c2, None) =>
            is_Some (checkRunners c2 !! checkID)
            ∧ (cr_ID <$> flattenedChecks c2)
              = [check_Hash tcpCheck (generateConsulServiceID "client" "web")]
            ∧ checkID ∉ cr_ID <$> flattenedChecks c2
        | _ => False
        end
  | _ => False
  end.
Proof.
  vm_compute. split; [by left|]. split; [by eexists|].
  split; [by eexists|]. split; [done|].
  intros [=]%list_elem_of_singleton.
Qed.

(** ** Periodic handlers *)

Section Handlers.
Context {Env : Type} `{RangeOrder} `{AgentAPI Env}.

Lemma runHandlerList_spec (handlers : list (string * (Env → Env * option error)))
    (errs errs' : list error) (w w' : World Env) :
  runHandlerList handlers errs w = (errs', w') →
  w_syncer w' = w_syncer w
  ∧ w_log w' = w_log w ++ (EvHandler <$> handlers.*1)
  ∧ ∃ new, errs' = errs ++ new ∧ handlers_ran handlers (w_env w) (w_env w') new.
Proof.
  revert errs w. induction handlers as [|[name fn] rest IH]; intros errs w.
  - intros [= <- <-]. rewrite !app_nil_r. repeat split.
    exists []. rewrite app_nil_r. split; [done | constructor].
  - cbn [runHandlerList]. unfold bindM, callM at 1.
    destruct (fn (w_env w)) as [env1 err] eqn:Hfn.
    intros (Hs & Hl & new & -> & Hran)%IH. simpl in Hs, Hl, Hran.
    split; [done|]. split.
    { rewrite Hl, <- app_assoc. done. }
    destruct err as [e|]; simpl.
    + exists (e :: new). rewrite <- app_assoc. split; [done|].
      by eapply ran_failed.
    + exists new. split; [done|]. by eapply ran_ok.
Qed.

Lemma RunHandlers_spec (w w' : World Env) (err : option error) :
  RunHandlers w = (err, w') →
  w_syncer w' = w_syncer w
  ∧ ∃ order errs,
      order ≡ₚ map_to_list (periodicCallbacks (w_syncer w))
      ∧ w_log w' = w_log w ++ (EvHandler <$> order.*1)
      ∧ handlers_ran order (w_env w) (w_env w') errs
      ∧ err = ErrorOrNil errs.
Proof.
  unfold RunHandlers, bindM, getSyncer, retM. rewrite copy_by_range.
  destruct (runHandlerList _ _ w) as [errs w1] eqn:Hrun.
  intros [= <- <-].
  apply runHandlerList_spec in Hrun as (Hs & Hl & new & -> & Hran).
  split; [done|]. exists (range (periodicCallbacks (w_syncer w))), new.
  split; [apply range_perm|]. done.
Qed.

(** C9, as amended: every handler of the table runs once, also after an
    earlier one has failed, and the errors they return are gathered in one
    multi-error; when that error is not nil [SyncServices] returns it at
    once: the syncer is as it was and no call to the agent is made. *)
Theorem C9_handler_error_skips_sync (w w1 : World Env) (e : error) :
  RunHandlers w = (Some e, w1) →
  SyncServices w = (Some e, w1)
  ∧ w_syncer w1 = w_syncer w
  ∧ ∃ order errs,
      order ≡ₚ map_to_list (periodicCallbacks (w_syncer w))
      ∧ w_log w1 = w_log w ++ (EvHandler <$> order.*1)
      ∧ handlers_ran order (w_env w) (w_env w1) errs
      ∧ errs ≠ []
      ∧ e = MultiError errs.
Proof.
  intros Hrun. split.
  { unfold SyncServices, bindM. by rewrite Hrun. }
  apply RunHandlers_spec in Hrun as (Hs & order & errs & Hp & Hl & Hran & He).
  split; [done|]. exists order, errs.
  destruct errs as [|e1 errs]; [done|]. simpl in He. injection He as ->.
  done.
Qed.
End Handlers.

(** One failing handler in front of a sync that has a service to register. *)
Lemma C9_handler_error_witness :
  let c := fst (AddPeriodicHandler "reaper" failingHandler
                  (afterSet fresh "server" {[nomadKey := nomadService]})) in
  let w := mkWorld c emptyAgent [] in
  SyncServices w
    = (Some (MultiError [ErrMessage "handler failed"]), mkWorld c emptyAgent [EvHandler "reaper"])
  ∧ w_syncer (snd (RunHandlers w)) = w_syncer w.
Proof.
  intros c w.
  pose proof (C9_handler_error_skips_sync w (snd (RunHandlers w))
                (MultiError [ErrMessage "handler failed"])) as Hthm.
  destruct Hthm as (Hsync & Hs & _).
  - vm_compute. reflexivity.
  - split; [|exact Hs]. rewrite Hsync. vm_compute. reflexivity.
Defined.

(** C9 as stated fails: with one failing handler [SyncServices] returns the
    handlers' error and stops; the agent is not even queried, and the
    service that is missing there is not registered, which the same sync
    without the handler does. *)
Lemma C9_sync_phases_skipped :
  let c0 := afterSet fresh "server" {[nomadKey := nomadService]} in
  let c := fst (AddPeriodicHandler "reaper" failingHandler c0) in
  let '(err, w1) := SyncServices (mkWorld c emptyAgent []) in
  err = Some (MultiError [ErrMessage "handler failed"])
  ∧ w_log w1 = [EvHandler "reaper"]
  ∧ fa_services (w_env w1) = ∅
  ∧ is_mutation <$> w_log (snd (SyncServices (mkWorld c0 emptyAgent [])))
    = [false; true; false].
Proof. vm_compute. repeat split. Qed.

(** ** The diff of two inventories in agreement *)

Section MergeFacts.
Context `{RangeOrder}.
Context {L A : Type} (idL : L → string) (idA : A → string)
  (cmp : L → A → bool) (synth : A → L).
Implicit Types merged : gmap string (L * ascii).

Lemma mergeLocals_settled (locals : list L) :
  settled idL locals (mergeLocals idL locals).
Proof.
  unfold mergeLocals.
  assert (∀ done todo merged, locals = done ++ todo → settled idL done merged →
            settled idL locals
              (foldl (λ merged item, <[idL item := (item, "l"%char)]> merged)
                 merged todo)) as Hgen.
  { intros done todo. revert done.
    induction todo as [|item todo IH]; intros done merged Heq Hs.
    - rewrite app_nil_r in Heq. by subst.
    - cbn [foldl]. apply (IH (done ++ [item])).
      + by rewrite <- app_assoc.
      + destruct Hs as [Hs1 Hs2]. split.
        * intros id item' state. rewrite lookup_insert.
          case_decide as Hid.
          -- intros [= <- <-]. split; [|by auto].
             apply elem_of_app. right. by left.
          -- intros (? & ? & ?)%Hs1. split; [|done].
             apply elem_of_app. by left.
        * intros item' [Hin| ->%list_elem_of_singleton]%elem_of_app.
          -- rewrite lookup_insert. case_decide; [by eexists | by apply Hs2].
          -- rewrite lookup_insert_eq. by eexists. }
  apply (Hgen [] locals ∅); [done|]. split.
  - intros id item state. by rewrite lookup_empty.
  - by intros item ?%not_elem_of_nil.
Qed.

Lemma mergeAgent_agreeing (locals : list L) merged (a : A) :
  (∃ item, item ∈ locals ∧ idL item = idA a) →
  (∀ item, item ∈ locals → idA a = idL item → cmp item a = true) →
  settled idL locals merged →
  settled idL locals (mergeAgent idA cmp synth merged a)
  ∧ (∃ item, mergeAgent idA cmp synth merged a !! idA a = Some (item, "e"%char))
  ∧ (∀ id item, merged !! id = Some (item, "e"%char) →
       mergeAgent idA cmp synth merged a !! id = Some (item, "e"%char)).
Proof.
  intros (item0 & Hin0 & Hid0) Hcmp [Hs1 Hs2]. unfold mergeAgent.
  destruct (Hs2 item0 Hin0) as [[item state] Hlk]. rewrite Hid0 in Hlk.
  rewrite Hlk. cbn [fst].
  destruct (Hs1 _ _ _ Hlk) as (Hin & Hid & Hstate).
  rewrite (Hcmp item Hin) by done.
  split; [split|split].
  - intros id item' state'. rewrite lookup_insert. case_decide as Hcase.
    + intros [= <- <-]. split; [done|]. split; [congruence | by right].
    + apply Hs1.
  - intros item' Hin'. rewrite lookup_insert.
    case_decide; [by eexists | by apply Hs2].
  - exists item. by rewrite lookup_insert_eq.
  - intros id item' Hlk'. rewrite lookup_insert. case_decide as Hcase; [|done].
    subst id. rewrite Hlk in Hlk'. by injection Hlk' as <- _.
Qed.

Lemma mergeAgent_loop_agreeing (locals : list L) (agents : list (string * A)) merged :
  (∀ entry, entry ∈ agents →
     (∃ item, item ∈ locals ∧ idL item = idA (snd entry))
     ∧ (∀ item, item ∈ locals → idA (snd entry) = idL item →
          cmp item (snd entry) = true)) →
  settled idL locals merged →
  let merged' :=
    foldl (λ m entry, mergeAgent idA cmp synth m (snd entry)) merged agents in
  settled idL locals merged'
  ∧ (∀ id item, merged !! id = Some (item, "e"%char) →
       merged' !! id = Some (item, "e"%char))
  ∧ (∀ entry, entry ∈ agents →
       ∃ item, merged' !! idA (snd entry) = Some (item, "e"%char)).
Proof.
  revert merged. induction agents as [|entry agents IH]; intros merged Hag Hs.
  - simpl. split; [done|]. split; [done|]. by intros entry ?%not_elem_of_nil.
  - cbn [foldl].
    destruct (Hag entry) as [Hex Hcmp]; [by left|].
    destruct (mergeAgent_agreeing locals merged (snd entry) Hex Hcmp Hs)
      as (Hs' & [item He] & Hkeep).
    destruct (IH (mergeAgent idA cmp synth merged (snd entry))) as (Hs'' & Hkeep' & Hdone);
      [by intros e ?; apply Hag; right | done |].
    split; [done|]. split; [by intros id it ?; apply Hkeep', Hkeep|].
    intros entry' [->|Hin]%elem_of_cons; [|by apply Hdone].
    exists item. by apply Hkeep'.
Qed.

(** With the two sides in agreement every entry of the table ends in
    state ['e']. *)
Lemma merged_all_equal (locals : list L) (agent : gmap string A) :
  inAgreement idL idA cmp locals agent →
  let merged :=
    foldl (λ m entry, mergeAgent idA cmp synth m (snd entry))
          (mergeLocals idL locals) (range agent) in
  (∀ id item state, merged !! id = Some (item, state) →
     state = "e"%char ∧ item ∈ locals ∧ idL item = id)
  ∧ (∀ item, item ∈ locals → ∃ item', merged !! idL item = Some (item', "e"%char)).
Proof.
  intros (Hl & Ha & Hc) merged.
  destruct (mergeAgent_loop_agreeing locals (range agent) (mergeLocals idL locals))
    as ([Hs1 Hs2] & _ & Hdone).
  { intros [key a] Hin%range_elem_of. simpl. split; [by eapply Ha|].
    intros item Hitem Hid. by eapply Hc. }
  { apply mergeLocals_settled. }
  fold merged in Hs1, Hs2, Hdone.
  assert (∀ item, item ∈ locals →
            ∃ item', merged !! idL item = Some (item', "e"%char)) as Hall.
  { intros item Hin. destruct (Hl item Hin) as (key & a & Hlk & Hid).
    destruct (Hdone (key, a)) as [item' He]; [by apply range_elem_of|].
    simpl in He. rewrite Hid in He. by exists item'. }
  split; [|done].
  intros id item state Hlk. destruct (Hs1 _ _ _ Hlk) as (Hin & Hid & _).
  destruct (Hall item Hin) as [item' He]. rewrite Hid, Hlk in He.
  by injection He as _ ->.
Qed.

(** A table whose entries are all in state ['e'] fills the equal slice
    only. *)
Lemma partitionByState_all_equal {R : Type} (merged : gmap string (R * ascii)) :
  (∀ id item state, merged !! id = Some (item, state) → state = "e"%char) →
  partitionByState merged
  = mkDiff [] ((λ entry, fst (snd entry)) <$> range merged) [] [].
Proof.
  intros Hall. unfold partitionByState.
  assert (Forall (λ entry : string * (R * ascii), snd (snd entry) = "e"%char)
            (range merged)) as Hf.
  { apply Forall_forall. intros [id [item state]] Hin%range_elem_of. simpl.
    by eapply Hall. }
  revert Hf. generalize (range merged). intros l Hf.
  assert (∀ d : diff R,
            foldl (λ d entry,
                     let '(r, state) := snd entry in
                     if Ascii.eqb state "l" then
                       mkDiff (missing d ++ [r]) (equal d) (changed d) (stale d)
                     else if Ascii.eqb state "e" then
                       mkDiff (missing d) (equal d ++ [r]) (changed d) (stale d)
                     else if Ascii.eqb state "c" then
                       mkDiff (missing d) (equal d) (changed d ++ [r]) (stale d)
                     else if Ascii.eqb state "a" then
                       mkDiff (missing d) (equal d) (changed d) (stale d ++ [r])
                     else d) d l
            = mkDiff (missing d)
                (equal d ++ ((λ entry, fst (snd entry)) <$> l))
                (changed d) (stale d)) as Hgen.
  { induction Hf as [|[id [item state]] l Hst Hf IH]; intros d.
    - simpl. rewrite app_nil_r. by destruct d.
    - simpl in Hst. subst state. cbn [foldl snd]. rewrite IH. simpl.
      by rewrite <- app_assoc. }
  apply Hgen.
Qed.
End MergeFacts.

Lemma agreesb_sound {L A : Type} (idL : L → string) (idA : A → string)
    (cmp : L → A → bool) (locals : list L) (agent : gmap string A) :
  agreesb idL idA cmp locals agent = true →
  inAgreement idL idA cmp locals agent.
Proof.
  unfold agreesb. intros [[H1 H2]%andb_prop H3]%andb_prop.
  rewrite forallb_forall in H1, H2, H3.
  split; [|split].
  - intros item Hin%list_elem_of_In.
    apply H1, existsb_exists in Hin as ([key a] & Hin%list_elem_of_In & Heq).
    apply elem_of_map_to_list in Hin. apply String.eqb_eq in Heq.
    by exists key, a.
  - intros key a Hlk%elem_of_map_to_list%list_elem_of_In.
    apply H2, existsb_exists in Hlk as (item & Hin%list_elem_of_In & Heq).
    apply String.eqb_eq in Heq. by exists item.
  - intros item key a Hin%list_elem_of_In Hlk%elem_of_map_to_list%list_elem_of_In Hid.
    specialize (H3 item Hin). rewrite forallb_forall in H3.
    specialize (H3 _ Hlk). simpl in H3.
    apply String.eqb_eq in Hid. by rewrite Hid in H3.
Qed.

Section Idempotence.
Context {Env : Type} `{RangeOrder} `{AgentAPI Env}.
Implicit Types c : Syncer Env.

Lemma calcServicesDiff_agreement c (consulServices : gmap string AgentService) :
  inAgreement sr_ID as_ID compareConsulService (flattenedServices c) consulServices →
  missing (calcServicesDiff c consulServices) = []
  ∧ changed (calcServicesDiff c consulServices) = []
  ∧ stale (calcServicesDiff c consulServices) = []
  ∧ ∀ service, service ∈ flattenedServices c →
      ∃ service', service' ∈ equal (calcServicesDiff c consulServices)
        ∧ sr_ID service' = sr_ID service.
Proof.
  intros Hag.
  pose proof (merged_all_equal sr_ID as_ID compareConsulService
                (λ consulService,
                   {| sr_ID := as_ID consulService;
                      sr_Name := as_Service consulService;
                      sr_Tags := as_Tags consulService;
                      sr_Port := as_Port consulService;
                      sr_Address := as_Address consulService;
                      sr_EnableTagOverride := false |})
                _ _ Hag) as [Hall Hloc].
  unfold calcServicesDiff.
  change (foldl (λ m entry, mergeConsulService m (snd entry))
            (mergeLocalServices (flattenedServices c)) (range consulServices))
    with (foldl (λ m entry,
                   mergeAgent as_ID compareConsulService
                     (λ consulService,
                        {| sr_ID := as_ID consulService;
                           sr_Name := as_Service consulService;
                           sr_Tags := as_Tags consulService;
                           sr_Port := as_Port consulService;
                           sr_Address := as_Address consulService;
                           sr_EnableTagOverride := false |}) m (snd entry))
            (mergeLocals sr_ID (flattenedServices c)) (range consulServices)).
  set (merged := foldl _ _ _) in *.
  rewrite partitionByState_all_equal by (intros id item state Hlk; by eapply Hall).
  simpl. do 3 (split; [done|]).
  intros service Hin. destruct (Hloc service Hin) as [service' Hlk].
  exists service'. split; [|by eapply Hall].
  apply list_elem_of_fmap. exists (sr_ID service, (service', "e"%char)).
  split; [done|]. by apply range_elem_of.
Qed.

Lemma calcChecksDiff_agreement c (consulChecks : gmap string AgentCheck) :
  inAgreement cr_ID ac_CheckID compareConsulCheck (flattenedChecks c) consulChecks →
  missing (calcChecksDiff c consulChecks) = []
  ∧ changed (calcChecksDiff c consulChecks) = []
  ∧ stale (calcChecksDiff c consulChecks) = []
  ∧ ∀ check, check ∈ flattenedChecks c →
      ∃ check', check' ∈ equal (calcChecksDiff c consulChecks)
        ∧ cr_ID check' = cr_ID check.
Proof.
  intros Hag.
  pose proof (merged_all_equal cr_ID ac_CheckID compareConsulCheck
                (λ consulCheck,
                   {| cr_ID := ac_CheckID consulCheck;
                      cr_Name := ac_Name consulCheck;
                      cr_Notes := ac_Notes consulCheck;
                      cr_ServiceID := ac_ServiceID consulCheck;
                      cr_HTTP := ""; cr_TCP := ""; cr_TTL := "";
                      cr_Interval := ""; cr_Timeout := "" |})
                _ _ Hag) as [Hall Hloc].
  unfold calcChecksDiff.
  change (foldl (λ m entry, mergeConsulCheck m (snd entry))
            (mergeLocalChecks (flattenedChecks c)) (range consulChecks))
    with (foldl (λ m entry,
                   mergeAgent ac_CheckID compareConsulCheck
                     (λ consulCheck,
                        {| cr_ID := ac_CheckID consulCheck;
                           cr_Name := ac_Name consulCheck;
                           cr_Notes := ac_Notes consulCheck;
                           cr_ServiceID := ac_ServiceID consulCheck;
                           cr_HTTP := ""; cr_TCP := ""; cr_TTL := "";
                           cr_Interval := ""; cr_Timeout := "" |}) m (snd entry))
            (mergeLocals cr_ID (flattenedChecks c)) (range consulChecks)).
  set (merged := foldl _ _ _) in *.
  rewrite partitionByState_all_equal by (intros id item state Hlk; by eapply Hall).
  simpl. do 3 (split; [done|]).
  intros check Hin. destruct (Hloc check Hin) as [check' Hlk].
  exists check'. split; [|by eapply Hall].
  apply list_elem_of_fmap. exists (cr_ID check, (check', "e"%char)).
  split; [done|]. by apply range_elem_of.
Qed.

Lemma syncServices_agreement (w : World Env) (env' : Env)
    (services : gmap string AgentService) :
  agent_Services (w_env w) = (env', inl services) →
  inAgreement sr_ID as_ID compareConsulService
    (flattenedServices (w_syncer w)) (filterConsulServices (w_syncer w) services) →
  syncServices w = (None, mkWorld (w_syncer w) env' (w_log w ++ [EvServices])).
Proof.
  intros Hq (Hm & Hc & Hs & _)%calcServicesDiff_agreement.
  unfold syncServices, queryAgentServices, bindM, callM, getSyncer, retM.
  rewrite Hq. cbn [w_syncer]. rewrite Hm, Hc, Hs. reflexivity.
Qed.

Lemma syncChecks_agreement (w : World Env) (env' : Env)
    (checks : gmap string AgentCheck) :
  agent_Checks (w_env w) = (env', inl checks) →
  inAgreement cr_ID ac_CheckID compareConsulCheck
    (flattenedChecks (w_syncer w)) (filterConsulChecks (w_syncer w) checks) →
  syncChecks w = (None, mkWorld (w_syncer w) env' (w_log w ++ [EvChecks])).
Proof.
  intros Hq (Hm & Hc & Hs & _)%calcChecksDiff_agreement.
  unfold syncChecks, queryChecks, bindM, callM, getSyncer, retM.
  rewrite Hq. cbn [w_syncer]. rewrite Hm, Hc, Hs. reflexivity.
Qed.

Lemma filter_mutation_handlers (names : list string) :
  List.filter is_mutation (EvHandler <$> names) = [].
Proof. induction names as [|name names IH]; [done | by simpl]. Qed.

(** C8: when the agent's filtered inventories agree with the flattened
    local state, [SyncServices] returns nil and issues no register or
    deregister call: after the handlers the log gains the two queries only,
    the syncer and its tracked maps are as before, and in both diffs the
    missing, changed and stale slices are empty while every local service
    and check has its ID in the equal slice. *)
Theorem C8_sync_in_agreement_issues_no_call (w w1 : World Env) (env2 env3 : Env)
    (services : gmap string AgentService) (checks : gmap string AgentCheck) :
  RunHandlers w = (None, w1) →
  agent_Services (w_env w1) = (env2, inl services) →
  inAgreement sr_ID as_ID compareConsulService
    (flattenedServices (w_syncer w)) (filterConsulServices (w_syncer w) services) →
  agent_Checks env2 = (env3, inl checks) →
  inAgreement cr_ID ac_CheckID compareConsulCheck
    (flattenedChecks (w_syncer w)) (filterConsulChecks (w_syncer w) checks) →
  let servicesDiff :=
    calcServicesDiff (w_syncer w) (filterConsulServices (w_syncer w) services) in
  let checksDiff :=
    calcChecksDiff (w_syncer w) (filterConsulChecks (w_syncer w) checks) in
  ∃ w',
    SyncServices w = (None, w')
    ∧ w_syncer w' = w_syncer w
    ∧ w_log w' = w_log w1 ++ [EvServices; EvChecks]
    ∧ List.filter is_mutation (w_log w') = List.filter is_mutation (w_log w)
    ∧ missing servicesDiff = [] ∧ changed servicesDiff = []
    ∧ stale servicesDiff = []
    ∧ missing checksDiff = [] ∧ changed checksDiff = [] ∧ stale checksDiff = []
    ∧ (∀ service, service ∈ flattenedServices (w_syncer w) →
         ∃ service', service' ∈ equal servicesDiff
           ∧ sr_ID service' = sr_ID service)
    ∧ (∀ check, check ∈ flattenedChecks (w_syncer w) →
         ∃ check', check' ∈ equal checksDiff ∧ cr_ID check' = cr_ID check).
Proof.
  intros Hh Hqs Hags Hqc Hagc servicesDiff checksDiff.
  pose proof Hh as (Hsyncer & order & errs & _ & Hlog & _)%RunHandlers_spec.
  rewrite <- Hsyncer in Hags, Hagc.
  pose proof (syncServices_agreement w1 env2 services Hqs Hags) as Hss.
  pose proof (syncChecks_agreement (mkWorld (w_syncer w1) env2 (w_log w1 ++ [EvServices]))
                env3 checks Hqc Hagc) as Hsc.
  cbn [w_syncer w_log] in Hsc.
  exists (mkWorld (w_syncer w1) env3 ((w_log w1 ++ [EvServices]) ++ [EvChecks])).
  split. { unfold SyncServices, bindM, retM. by rewrite Hh, Hss, Hsc. }
  cbn [w_syncer w_log]. split; [done|]. rewrite <- app_assoc.
  split; [done|]. split.
  { rewrite Hlog, !List.filter_app, filter_mutation_handlers. simpl.
    by rewrite !app_nil_r. }
  rewrite Hsyncer in Hags, Hagc.
  apply calcServicesDiff_agreement in Hags as (? & ? & ? & ?).
  apply calcChecksDiff_agreement in Hagc as (? & ? & ? & ?).
  done.
Qed.
End Idempotence.

(** A first sync against an empty agent registers a service and its two
    checks; the sync that follows issues nothing. *)
Lemma C8_second_sync_witness :
  let c := afterSet fresh "client" {["web" := webService]} in
  let w1 := snd (SyncServices (mkWorld c emptyAgent [])) in
  length (List.filter is_mutation (w_log w1)) = 3
  ∧ ∃ w2, SyncServices w1 = (None, w2)
      ∧ List.filter is_mutation (w_log w2) = List.filter is_mutation (w_log w1).
Proof.
  intros c w1. split; [vm_compute; reflexivity|].
  destruct (C8_sync_in_agreement_issues_no_call w1 w1 (w_env w1) (w_env w1)
              (fa_services (w_env w1)) (fa_checks (w_env w1)))
    as (w2 & Hsync & _ & _ & Hlog & _).
  - vm_compute. reflexivity.
  - reflexivity.
  - apply agreesb_sound. vm_compute. reflexivity.
  - reflexivity.
  - apply agreesb_sound. vm_compute. reflexivity.
  - exists w2. split; [exact Hsync | exact Hlog].
Defined.
(** * Further properties *)

(** ** Periodic handler table *)

Section HandlerTable.
Context {Env : Type}.
Implicit Types c : Syncer Env.
Implicit Types f g : Env → Env * option error.

(** A second handler under a taken name is refused: the call returns
    false, the table keeps the first handler and its size. *)
Theorem AddPeriodicHandler_rejects_duplicate c (name : string) f g :
  let '(c1, ok1) := AddPeriodicHandler name f c in
  let '(c2, ok2) := AddPeriodicHandler name g c1 in
  ok2 = false ∧ c2 = c1
  ∧ ok1 = bool_decide (periodicCallbacks c !! name = None)
  ∧ periodicCallbacks c2 !! name
    = (if ok1 then Some f else periodicCallbacks c !! name)
  ∧ NumHandlers c2 = (if ok1 then S (NumHandlers c) else NumHandlers c)
  ∧ ∀ other, other ≠ name →
      periodicCallbacks c2 !! other = periodicCallbacks c !! other.
Proof.
  unfold AddPeriodicHandler, NumHandlers.
  destruct (periodicCallbacks c !! name) as [h|] eqn:Hlk.
  - rewrite Hlk. repeat split; done.
  - cbn [periodicCallbacks set_periodicCallbacks]. rewrite lookup_insert_eq.
    repeat split; try done; cbn [periodicCallbacks set_periodicCallbacks].
    + by rewrite lookup_insert_eq.
    + by rewrite map_size_insert_None.
    + intros other Hne. by rewrite lookup_insert_ne.
Qed.

(** Removing a handler frees its name and leaves the others; removing the
    handler just added under a free name gives the table back, and a name
    that is not in the table is removed without effect. *)
Theorem RemovePeriodicHandler_spec c (name : string) f :
  periodicCallbacks (RemovePeriodicHandler name c) !! name = None
  ∧ (∀ other, other ≠ name →
       periodicCallbacks (RemovePeriodicHandler name c) !! other
       = periodicCallbacks c !! other)
  ∧ NumHandlers (RemovePeriodicHandler name c)
    = (if bool_decide (periodicCallbacks c !! name = None)
       then NumHandlers c else pred (NumHandlers c))
  ∧ snd (AddPeriodicHandler name f (RemovePeriodicHandler name c)) = true
  ∧ (periodicCallbacks c !! name = None →
       RemovePeriodicHandler name c = c
       ∧ RemovePeriodicHandler name (fst (AddPeriodicHandler name f c)) = c).
Proof.
  unfold RemovePeriodicHandler, AddPeriodicHandler, NumHandlers.
  cbn [periodicCallbacks set_periodicCallbacks].
  rewrite lookup_delete_eq. split; [done|]. split.
  { intros other Hne. by rewrite lookup_delete_ne. }
  split.
  { destruct (periodicCallbacks c !! name) as [h|] eqn:Hlk.
    - rewrite bool_decide_eq_false_2 by done. by rewrite map_size_delete_Some.
    - rewrite bool_decide_eq_true_2 by done. by rewrite delete_id. }
  split; [done|]. intros Hnone. rewrite Hnone.
  cbn [fst periodicCallbacks set_periodicCallbacks].
  rewrite delete_insert_id by done. rewrite delete_id by done.
  by destruct c.
Qed.
End HandlerTable.

(** ** Delegated check results *)

Section RunCheck.
Context {Env : Type} `{AgentTTL Env}.
Implicit Types c : Syncer Env.

(** [runCheck] reports "passing" for exit code 0, "warning" for 1 and
    "critical" for every other code, with the probe's output; an error of
    the probe makes it "critical" with the error text whatever the code.
    The update goes to the check's own ID.  A refused update flips
    [consulAvailable] (false when it was true, true when it was false) and
    an accepted one leaves the syncer as it was. *)
Theorem runCheck_spec (res : CheckRes) (check : Check) c (env : Env) :
  ∃ status output,
    (status = HealthPassing ↔ res_ExitCode res = 0%Z ∧ res_Err res = None)
    ∧ (status = HealthWarning ↔ res_ExitCode res = 1%Z ∧ res_Err res = None)
    ∧ (status = HealthCritical
       ↔ (res_ExitCode res ≠ 0%Z ∧ res_ExitCode res ≠ 1%Z)
         ∨ is_Some (res_Err res))
    ∧ output = default (res_Output res) (res_Err res)
    ∧ runCheck res check c env
      = (let '(env', err) :=
           agent_UpdateTTL (check_ID check) output status env in
         (match err with
          | Some _ => set_consulAvailable (negb (consulAvailable c)) c
          | None => c
          end, env', mkTTLUpdate (check_ID check) output status)).
Proof.
  unfold runCheck, checkStatus.
  destruct (res_Err res) as [msg|] eqn:Herr.
  - exists HealthCritical, msg. repeat split; try done; try naive_solver.
    destruct (agent_UpdateTTL _ _ _ env) as [env' [err|]]; [|done].
    by destruct (consulAvailable c).
  - assert (∀ status : string,
              (let '(env', err) :=
                 agent_UpdateTTL (check_ID check) (res_Output res) status env in
               (match err with
                | Some _ =>
                    if consulAvailable c then set_consulAvailable false c
                    else set_consulAvailable true c
                | None => c
                end, env', mkTTLUpdate (check_ID check) (res_Output res) status))
              = (let '(env', err) :=
                   agent_UpdateTTL (check_ID check) (res_Output res) status env in
                 (match err with
                  | Some _ => set_consulAvailable (negb (consulAvailable c)) c
                  | None => c
                  end, env', mkTTLUpdate (check_ID check) (res_Output res) status)))
      as Hflip.
    { intros status.
      destruct (agent_UpdateTTL _ _ _ env) as [env' [err|]]; [|done].
      by destruct (consulAvailable c). }
    destruct (Z.eqb_spec (res_ExitCode res) 0) as [H0|H0];
      [|destruct (Z.eqb_spec (res_ExitCode res) 1) as [H1|H1]].
    + exists HealthPassing, (res_Output res).
      repeat split; try done; try (intros; lia); try naive_solver.
    + exists HealthWarning, (res_Output res).
      repeat split; try done; try (intros; lia); try naive_solver.
    + exists HealthCritical, (res_Output res).
      repeat split; try done; try (intros; lia); try naive_solver.
Qed.
End RunCheck.

(** ** Check registrations *)

Section CheckRegs.
Context `{Externals}.

End CheckRegs.

(** [compareConsulCheck] holds exactly when check ID, name, notes and
    service ID agree; the probe fields of the registration (HTTP, TCP, TTL,
    interval, timeout) and the agent's status play no part. *)
Theorem compareConsulCheck_iff (localCheck : AgentCheckRegistration)
    (consulCheck : AgentCheck) :
  compareConsulCheck localCheck consulCheck = true
  ↔ ac_CheckID consulCheck = cr_ID localCheck
    ∧ ac_Name consulCheck = cr_Name localCheck
    ∧ ac_Notes consulCheck = cr_Notes localCheck
    ∧ ac_ServiceID consulCheck = cr_ServiceID localCheck.
Proof.
  unfold compareConsulCheck.
  destruct (String.eqb_spec (ac_CheckID consulCheck) (cr_ID localCheck));
    [|simpl; naive_solver].
  destruct (String.eqb_spec (ac_Name consulCheck) (cr_Name localCheck));
    [|simpl; naive_solver].
  destruct (String.eqb_spec (ac_Notes consulCheck) (cr_Notes localCheck));
    [|simpl; naive_solver].
  destruct (String.eqb_spec (ac_ServiceID consulCheck) (cr_ServiceID localCheck));
    simpl; naive_solver.
Qed.

(** ** Flattening *)

Section Flatten.
Context {Env : Type} `{RangeOrder}.
Implicit Types c : Syncer Env.

Lemma foldl_snoc_snd {V : Type} (l : list (string * V)) (acc : list V) :
  foldl (λ acc entry, acc ++ [snd entry]) acc l = acc ++ (snd <$> l).
Proof.
  revert acc. induction l as [|e l IH]; intros acc; simpl.
  - by rewrite app_nil_r.
  - by rewrite IH, <- app_assoc.
Qed.

Lemma foldl_app_snd {V : Type} (l : list (string * list V)) (acc : list V) :
  foldl (λ acc entry, acc ++ snd entry) acc l = acc ++ concat (snd <$> l).
Proof.
  revert acc. induction l as [|e l IH]; intros acc; simpl.
  - by rewrite app_nil_r.
  - by rewrite IH, <- app_assoc.
Qed.

Lemma foldl_groups {V W : Type} (f : gmap string V → list W)
    (l : list (string * gmap string V)) (acc : list W) :
  foldl (λ acc group, acc ++ f (snd group)) acc l
  = acc ++ concat ((λ group, f (snd group)) <$> l).
Proof.
  revert acc. induction l as [|g l IH]; intros acc; simpl.
  - by rewrite app_nil_r.
  - by rewrite IH, <- app_assoc.
Qed.

Lemma elem_of_concat {A : Type} (x : A) (ls : list (list A)) :
  x ∈ concat ls ↔ ∃ l, x ∈ l ∧ l ∈ ls.
Proof.
  rewrite list_elem_of_In, in_concat. split.
  - intros (l & Hl & Hx). exists l. by rewrite !list_elem_of_In.
  - intros (l & Hx & Hl). exists l. by rewrite <- !list_elem_of_In.
Qed.

Lemma foldl_pointwise {A B : Type} (f g : A → B → A) (l : list B) (a : A) :
  (∀ a x, f a x = g a x) → foldl f a l = foldl g a l.
Proof.
  intros Hfg. revert a. induction l as [|x l IH]; intros a; [done|].
  simpl. by rewrite Hfg, IH.
Qed.

Lemma flattenedServices_unfold c :
  flattenedServices c
  = concat ((λ group, snd <$> range (snd group)) <$> range (servicesGroups c)).
Proof.
  unfold flattenedServices.
  rewrite <- (app_nil_l (concat _)).
  rewrite <- (foldl_groups (λ inner, snd <$> range inner)).
  apply foldl_pointwise. intros acc g. apply foldl_snoc_snd.
Qed.

Lemma flattenedChecks_unfold c :
  flattenedChecks c
  = concat ((λ group, concat (snd <$> range (snd group)))
              <$> range (checkGroups c)).
Proof.
  unfold flattenedChecks.
  rewrite <- (app_nil_l (concat _)).
  rewrite <- (foldl_groups (λ inner, concat (snd <$> range inner))).
  apply foldl_pointwise. intros acc g. apply foldl_app_snd.
Qed.

Lemma flattenedServices_elem_of c (reg : AgentServiceRegistration) :
  reg ∈ flattenedServices c
  ↔ ∃ domain key, groupLookup (servicesGroups c) domain key = Some reg.
Proof.
  rewrite flattenedServices_unfold, elem_of_concat. split.
  - intros (l & Hin & [[domain inner] [-> Hg%range_elem_of]]%list_elem_of_fmap).
    simpl in Hin.
    apply list_elem_of_fmap in Hin as ([key reg'] & -> & Hk%range_elem_of).
    exists domain, key. unfold groupLookup. by rewrite Hg.
  - intros (domain & key & Hlk). unfold groupLookup in Hlk.
    destruct (servicesGroups c !! domain) as [inner|] eqn:Hg; [|done].
    simpl in Hlk. exists (snd <$> range inner). split.
    + apply list_elem_of_fmap. exists (key, reg). split; [done|].
      by apply range_elem_of.
    + apply list_elem_of_fmap. exists (domain, inner). split; [done|].
      by apply range_elem_of.
Qed.

Lemma flattenedChecks_elem_of c (r : AgentCheckRegistration) :
  r ∈ flattenedChecks c
  ↔ ∃ domain key chks,
      groupLookup (checkGroups c) domain key = Some chks ∧ r ∈ chks.
Proof.
  rewrite flattenedChecks_unfold, elem_of_concat. split.
  - intros (l & Hin & [[domain inner] [-> Hg%range_elem_of]]%list_elem_of_fmap).
    simpl in Hin. apply elem_of_concat in Hin as (chks & Hr & Hin).
    apply list_elem_of_fmap in Hin as ([key chks'] & -> & Hk%range_elem_of).
    exists domain, key, chks'. unfold groupLookup. by rewrite Hg.
  - intros (domain & key & chks & Hlk & Hr). unfold groupLookup in Hlk.
    destruct (checkGroups c !! domain) as [inner|] eqn:Hg; [|done].
    simpl in Hlk. exists (concat (snd <$> range inner)). split.
    + apply elem_of_concat. exists chks. split; [done|].
      apply list_elem_of_fmap. exists (key, chks). split; [done|].
      by apply range_elem_of.
    + apply list_elem_of_fmap. exists (domain, inner). split; [done|].
      by apply range_elem_of.
Qed.

(** The flattened lists hold exactly what the registries store: a service
    registration is in [flattenedServices] iff some domain stores it under
    some key, a check registration is in [flattenedChecks] iff it is in the
    check list of some domain and key; an empty registry flattens to the
    empty list. *)
Theorem flattened_elem_of c :
  (∀ reg, reg ∈ flattenedServices c
          ↔ ∃ domain key, groupLookup (servicesGroups c) domain key = Some reg)
  ∧ (∀ r, r ∈ flattenedChecks c
          ↔ ∃ domain key chks,
              groupLookup (checkGroups c) domain key = Some chks ∧ r ∈ chks)
  ∧ (servicesGroups c = ∅ → flattenedServices c = [])
  ∧ (checkGroups c = ∅ → flattenedChecks c = []).
Proof.
  split; [apply flattenedServices_elem_of|].
  split; [apply flattenedChecks_elem_of|]. split.
  - intros Hempty. unfold flattenedServices. by rewrite Hempty, range_empty.
  - intros Hempty. unfold flattenedChecks. by rewrite Hempty, range_empty.
Qed.
End Flatten.

(** ** The registry under [SetServices] *)

Section RegistryInvariant.
Context {Env : Type} `{RangeOrder} `{Externals}.
Implicit Types c : Syncer Env.
Implicit Types fr : setFrame (Env := Env).

Lemma createService_ID c (service : Service) (domain key : string)
    (reg : AgentServiceRegistration) :
  createService c service domain key = Some (inl reg) →
  sr_ID reg = generateConsulServiceID domain key
  ∧ sr_Name reg = svc_Name service ∧ sr_Tags reg = svc_Tags service.
Proof.
  unfold createService. destruct (addrFinder c) as [finder|]; [|done].
  destruct (finder (svc_PortLabel service)) as [host port].
  by intros [= <-].
Qed.

Lemma createCheckReg_ServiceID (check : ServiceCheck)
    (service : AgentServiceRegistration) (r : AgentCheckRegistration) :
  createCheckReg check service = inl r → cr_ServiceID r = sr_ID service.
Proof.
  unfold createCheckReg.
  destruct (String.eqb (sc_Type check) ServiceCheckHTTP); [by intros [= <-]|].
  destruct (String.eqb (sc_Type check) ServiceCheckTCP); [by intros [= <-]|].
  destruct (String.eqb (sc_Type check) ServiceCheckScript); [by intros [= <-]|].
  done.
Qed.

(** What a returning [SetServices] did, in terms of the loop's frame. *)
Lemma SetServices_outcome c (domain : string) (services : gmap string Service)
    c' (err : option error) :
  SetServices c domain services = Some (c', err) →
  ∃ fr,
    setServicesLoop domain (range services) (mkFrame c [] ∅ ∅) = Some fr
    ∧ frameSound c domain (range services) fr
    ∧ (∀ key, is_Some (fr_checks fr !! key) → is_Some (fr_services fr !! key))
    ∧ ((err = None
        ∧ servicesGroups c' = storeGroup domain (fr_services fr) (servicesGroups c)
        ∧ checkGroups c' = storeGroup domain (fr_checks fr) (checkGroups c))
       ∨ (is_Some err
          ∧ servicesGroups c' = servicesGroups c
          ∧ checkGroups c' = checkGroups c)).
Proof.
  unfold SetServices.
  destruct (setServicesLoop domain (range services) (mkFrame c [] ∅ ∅))
    as [fr|] eqn:Hloop; [|done].
  pose proof (frameSound_loop _ _ _ _ (range_NoDup_fst services) Hloop) as Hfr.
  pose proof Hloop as (_ & _ & Hall)%setServicesLoop_complete.
  intros Hret. exists fr. split; [done|]. split; [done|]. split.
  { intros key [chks Hchks].
    destruct (sound_checks _ _ _ _ Hfr key chks Hchks) as (s & reg & Hin & _).
    by apply (Hall key s). }
  pose proof (sound_syncer _ _ _ _ Hfr) as Hs.
  destruct (fr_errs fr) as [|e1 errs].
  - injection Hret as <- <-. left. split; [done|].
    cbn [SyncNow set_notifySyncCh set_checkGroups set_servicesGroups
         servicesGroups checkGroups].
    rewrite Hs. done.
  - injection Hret as <- <-. right. split; [by eexists|]. by rewrite Hs.
Qed.

Lemma registryWf_NewSyncer : registryWf (NewSyncer Env).
Proof.
  split; [|split]; intros domain key; unfold groupLookup; simpl;
    rewrite lookup_empty; simpl; try done; try by intros [? ?].
Qed.

Lemma SetServices_registryWf c (domain : string)
    (services : gmap string Service) c' (err : option error) :
  registryWf c →
  SetServices c domain services = Some (c', err) →
  registryWf c'.
Proof.
  intros (Hsv & Hck & Hkeys)
    (fr & _ & Hfr & Hsub & [(_ & Hs & Hc)|(_ & Hs & Hc)])%SetServices_outcome;
    unfold registryWf; rewrite Hs, Hc; [|done].
  assert (∀ {V : Type} (registered : gmap string V) groups domain' key,
            groupLookup (storeGroup domain registered groups) domain' key
            = if decide (domain' = domain)
              then match registered !! key with
                   | Some v => Some v
                   | None => groupLookup groups domain' key
                   end
              else groupLookup groups domain' key) as Hstore.
  { intros V registered groups domain' key. case_decide as Hd.
    - subst. apply storeGroup_lookup.
    - unfold groupLookup. by rewrite storeGroup_other. }
  split; [|split].
  - intros domain' key reg. rewrite Hstore. case_decide as Hd; [subst|apply Hsv].
    destruct (fr_services fr !! key) as [reg'|] eqn:Hreg; [|apply Hsv].
    intros [= <-].
    destruct (sound_services _ _ _ _ Hfr key reg' Hreg) as (s & _ & Hcreate).
    by apply createService_ID in Hcreate as [? _].
  - intros domain' key chks r. rewrite Hstore.
    case_decide as Hd; [subst|apply Hck].
    destruct (fr_checks fr !! key) as [chks'|] eqn:Hchks; [|apply Hck].
    intros [= <-] Hr.
    destruct (sound_checks _ _ _ _ Hfr key chks' Hchks)
      as (s & reg & _ & Hcreate & Hall).
    rewrite Forall_forall in Hall.
    destruct (Hall r Hr) as (chk & _ & Hreg).
    apply createCheckReg_ServiceID in Hreg. rewrite Hreg.
    by apply createService_ID in Hcreate as [? _].
  - intros domain' key. rewrite !Hstore.
    case_decide as Hd; [subst|apply Hkeys].
    destruct (fr_checks fr !! key) as [chks'|] eqn:Hchks.
    + intros _. destruct (Hsub key) as [reg ->]; [by eexists|]. by eexists.
    + intros Hold%Hkeys. by destruct (fr_services fr !! key); [eexists|].
Qed.

(** The desired state is well formed from [NewSyncer] on and stays so
    under [SetServices], whether it returns nil or an error: stored
    services carry the ID "_nomad-" + domain + "-" + key of the place they
    are stored at, stored checks name that service, and no check list is
    stored under a key without a service. *)
Theorem SetServices_keeps_registry_wf :
  registryWf (NewSyncer Env)
  ∧ ∀ c (domain : string) (services : gmap string Service) c'
      (err : option error),
      registryWf c →
      SetServices c domain services = Some (c', err) →
      registryWf c'.
Proof.
  split; [apply registryWf_NewSyncer|].
  intros c domain services c' err. apply SetServices_registryWf.
Qed.

(** Without an address finder [SetServices] panics on every non-empty
    map, and on the empty map it returns nil having done nothing but the
    [SyncNow]. *)
Theorem SetServices_without_addrFinder c (domain : string)
    (services : gmap string Service) :
  addrFinder c = None →
  SetServices c domain services
  = if decide (services = ∅) then Some (SyncNow c, None) else None.
Proof.
  intros Hnil. unfold SetServices. case_decide as Hempty.
  - subst. rewrite range_empty. cbn [setServicesLoop fr_errs fr_syncer
      fr_services fr_checks]. rewrite !storeGroup_empty. by destruct c.
  - destruct (range services) as [|[key service] rest] eqn:Hrange.
    + exfalso. apply Hempty. apply map_empty. intros key.
      destruct (services !! key) as [s|] eqn:Hs; [|done].
      apply range_elem_of in Hs. rewrite Hrange in Hs.
      by apply not_elem_of_nil in Hs.
    + cbn [setServicesLoop setService fr_syncer]. unfold createService.
      by rewrite Hnil.
Qed.

Lemma configured_runners c (runners : gmap string CheckRunner) :
  configured c → configured (set_checkRunners runners c).
Proof. done. Qed.



End RegistryInvariant.

(** ** Ownership of the desired state *)

Lemma prefix_self_append (p s : string) : String.prefix p (p +:+ s) = true.
Proof.
  induction p as [|a p IH]; [by destruct s|].
  rewrite append_cons. simpl. by destruct (ascii_dec a a).
Qed.

Lemma generateConsulServiceID_prefix (domain key : string) :
  HasPrefix (generateConsulServiceID domain key)
    (nomadServicePrefix +:+ "-" +:+ domain +:+ "-") = true.
Proof.
  unfold HasPrefix, generateConsulServiceID.
  replace (nomadServicePrefix +:+ "-" +:+ domain +:+ "-" +:+ key)
    with ((nomadServicePrefix +:+ "-" +:+ domain +:+ "-") +:+ key)
    by by rewrite !append_assoc.
  apply prefix_self_append.
Qed.

Section Ownership.
Context {Env : Type} `{RangeOrder}.
Implicit Types c : Syncer Env.

(** What a well-formed desired state holds is never filtered away: every
    flattened service has an ID with the prefix
    "_nomad-" + domain + "-" of a domain of [servicesGroups], and any record
    the agent holds under that ID passes [filterConsulServices]; a check
    the agent holds for the service of a flattened check passes
    [filterConsulChecks]. *)
Theorem desired_state_passes_filters c :
  registryWf c →
  (∀ reg, reg ∈ flattenedServices c →
     (∃ domain, is_Some (servicesGroups c !! domain)
        ∧ HasPrefix (sr_ID reg) (nomadServicePrefix +:+ "-" +:+ domain +:+ "-")
          = true)
     ∧ ∀ consulServices key service,
         consulServices !! key = Some service → as_ID service = sr_ID reg →
         filterConsulServices c consulServices !! key = Some service)
  ∧ (∀ r, r ∈ flattenedChecks c →
       ∀ consulChecks key check,
         consulChecks !! key = Some check →
         ac_ServiceID check = cr_ServiceID r →
         filterConsulChecks c consulChecks !! key = Some check).
Proof.
  intros (Hsv & Hck & _).
  split.
  - intros reg (domain & key & Hlk)%flattenedServices_elem_of.
    assert (is_Some (servicesGroups c !! domain)) as Hdom.
    { unfold groupLookup in Hlk. by destruct (servicesGroups c !! domain). }
    assert (HasPrefix (sr_ID reg) (nomadServicePrefix +:+ "-" +:+ domain +:+ "-")
            = true) as Hp.
    { rewrite (Hsv _ _ _ Hlk). apply generateConsulServiceID_prefix. }
    split; [by exists domain|].
    intros consulServices key' service Hs Hid.
    eapply filterConsulServices_keeps_owned; [done.. |]. by rewrite Hid.
  - intros r (domain & key & chks & Hlk & Hr)%flattenedChecks_elem_of
      consulChecks key' check Hc Hid.
    apply filterConsulChecks_lookup. split; [done|]. exists domain. split.
    { unfold groupLookup in Hlk. by destruct (checkGroups c !! domain). }
    rewrite Hid, (Hck _ _ _ _ Hlk Hr). unfold HasPrefix.
    apply (prefix_append_l _ "-").
    pose proof (generateConsulServiceID_prefix domain key) as Hp.
    unfold HasPrefix in Hp. by rewrite !append_assoc in *.
Qed.
End Ownership.

(** An ID made by [generateConsulServiceID] for one of the domains given
    to [ReapUnmatched] matches, whatever the key. *)
Lemma reapMatch_listed_domain (domains : list ServiceDomain)
    (domain : ServiceDomain) (key : ServiceKey) :
  domain ∈ domains →
  reapMatch domains (generateConsulServiceID domain key) = true.
Proof.
  intros Hin. unfold reapMatch. apply existsb_exists. exists domain.
  split; [by apply list_elem_of_In | apply generateConsulServiceID_prefix].
Qed.

(** ** The four slices of a diff *)

Section PartitionFacts.
Context `{RangeOrder} {R : Type}.
Implicit Types d : diff R.

Lemma partitionByState_fold (merged : gmap string (R * ascii)) :
  partitionByState merged = foldl diffStep (mkDiff [] [] [] []) (range merged).
Proof. reflexivity. Qed.

Lemma diffStep_cases d (id : string) (r : R) (state : ascii) :
  (state = "l"%char
   ∧ diffStep d (id, (r, state))
     = mkDiff (missing d ++ [r]) (equal d) (changed d) (stale d))
  ∨ (state = "e"%char
     ∧ diffStep d (id, (r, state))
       = mkDiff (missing d) (equal d ++ [r]) (changed d) (stale d))
  ∨ (state = "c"%char
     ∧ diffStep d (id, (r, state))
       = mkDiff (missing d) (equal d) (changed d ++ [r]) (stale d))
  ∨ (state = "a"%char
     ∧ diffStep d (id, (r, state))
       = mkDiff (missing d) (equal d) (changed d) (stale d ++ [r]))
  ∨ (state ≠ "l"%char ∧ state ≠ "e"%char ∧ state ≠ "c"%char
     ∧ state ≠ "a"%char ∧ diffStep d (id, (r, state)) = d).
Proof.
  unfold diffStep. cbn [snd].
  destruct (Ascii.eqb_spec state "l"); [by left|].
  destruct (Ascii.eqb_spec state "e"); [by right; left|].
  destruct (Ascii.eqb_spec state "c"); [by right; right; left|].
  destruct (Ascii.eqb_spec state "a"); [by right; right; right; left|].
  by right; right; right; right.
Qed.

Lemma diffStep_elem_of d (id : string) (r' : R) (state : ascii) (r : R) :
  (r ∈ missing (diffStep d (id, (r', state)))
   ↔ r ∈ missing d ∨ (r = r' ∧ state = "l"%char))
  ∧ (r ∈ equal (diffStep d (id, (r', state)))
     ↔ r ∈ equal d ∨ (r = r' ∧ state = "e"%char))
  ∧ (r ∈ changed (diffStep d (id, (r', state)))
     ↔ r ∈ changed d ∨ (r = r' ∧ state = "c"%char))
  ∧ (r ∈ stale (diffStep d (id, (r', state)))
     ↔ r ∈ stale d ∨ (r = r' ∧ state = "a"%char)).
Proof.
  destruct (diffStep_cases d id r' state)
    as [[-> ->]|[[-> ->]|[[-> ->]|[[-> ->]|(? & ? & ? & ? & ->)]]]];
    cbn [missing equal changed stale];
    rewrite ?elem_of_app, ?list_elem_of_singleton;
    (split; [|split; [|split]]); naive_solver.
Qed.

Lemma cons_entry_elem_of (l : list (string * (R * ascii))) (id : string)
    (r' : R) (state st : ascii) (r : R) :
  (∃ id0, (id0, (r, st)) ∈ (id, (r', state)) :: l)
  ↔ (r = r' ∧ state = st) ∨ ∃ id0, (id0, (r, st)) ∈ l.
Proof.
  split.
  - intros [id0 [[= -> -> ->]|Hin]%elem_of_cons]; [by left|]. right. by exists id0.
  - intros [[-> ->]|[id0 Hin]]; [exists id; by left|]. exists id0. by right.
Qed.

(** Which entries end in which slice. *)
Lemma diff_fold_elem_of (l : list (string * (R * ascii))) d (r : R) :
  (r ∈ missing (foldl diffStep d l)
   ↔ r ∈ missing d ∨ ∃ id, (id, (r, "l"%char)) ∈ l)
  ∧ (r ∈ equal (foldl diffStep d l)
     ↔ r ∈ equal d ∨ ∃ id, (id, (r, "e"%char)) ∈ l)
  ∧ (r ∈ changed (foldl diffStep d l)
     ↔ r ∈ changed d ∨ ∃ id, (id, (r, "c"%char)) ∈ l)
  ∧ (r ∈ stale (foldl diffStep d l)
     ↔ r ∈ stale d ∨ ∃ id, (id, (r, "a"%char)) ∈ l).
Proof.
  revert d. induction l as [|[id [r' state]] l IH]; intros d.
  - simpl. repeat split; try (by left);
      intros [?|[? ?%not_elem_of_nil]]; done.
  - cbn [foldl]. destruct (IH (diffStep d (id, (r', state))))
      as (IHm & IHe & IHc & IHs).
    destruct (diffStep_elem_of d id r' state r) as (Sm & Se & Sc & Ss).
    rewrite IHm, IHe, IHc, IHs, Sm, Se, Sc, Ss, !cons_entry_elem_of.
    repeat split; tauto.
Qed.

Lemma diffStep_slices d (id : string) (r : R) (state : ascii) :
  state ∈ ["l"%char; "e"%char; "c"%char; "a"%char] →
  allSlices (diffStep d (id, (r, state))) ≡ₚ r :: allSlices d.
Proof.
  intros Hst. unfold allSlices.
  destruct (diffStep_cases d id r state)
    as [[-> ->]|[[-> ->]|[[-> ->]|[[-> ->]|(? & ? & ? & ? & _)]]]];
    cbn [missing equal changed stale].
  - rewrite <- app_assoc. simpl. by rewrite <- Permutation_middle.
  - rewrite <- !app_assoc. simpl. by rewrite <- !Permutation_middle.
  - rewrite <- !app_assoc. simpl. by rewrite <- !Permutation_middle.
  - rewrite !app_assoc. by rewrite <- Permutation_cons_append.
  - set_solver.
Qed.

Lemma diff_fold_slices (l : list (string * (R * ascii))) d :
  Forall (λ entry, snd (snd entry) ∈ ["l"%char; "e"%char; "c"%char; "a"%char]) l →
  allSlices (foldl diffStep d l)
  ≡ₚ allSlices d ++ ((λ entry, fst (snd entry)) <$> l).
Proof.
  intros Hf. revert d. induction Hf as [|[id [r state]] l Hst Hf IH]; intros d.
  - simpl. by rewrite app_nil_r.
  - cbn [foldl]. rewrite IH. simpl in Hst. rewrite diffStep_slices by done.
    cbn [fmap list_fmap fst snd]. simpl. apply Permutation_middle.
Qed.
End PartitionFacts.

Section MergeLookup.
Context `{RangeOrder}.
Context {L A : Type} (idL : L → string) (idA : A → string)
  (cmp : L → A → bool) (synth : A → L).
Implicit Types merged : gmap string (L * ascii).

Lemma mergeLocals_lookup (locals : list L) (id : string) :
  match mergeLocals idL locals !! id with
  | Some (item, state) => state = "l"%char ∧ item ∈ locals ∧ idL item = id
  | None => ∀ item, item ∈ locals → idL item ≠ id
  end.
Proof.
  unfold mergeLocals.
  assert (∀ done todo merged,
            match merged !! id with
            | Some (item, state) => state = "l"%char ∧ item ∈ done ∧ idL item = id
            | None => ∀ item, item ∈ done → idL item ≠ id
            end →
            match foldl (λ merged item, <[idL item := (item, "l"%char)]> merged)
                    merged todo !! id with
            | Some (item, state) =>
                state = "l"%char ∧ item ∈ done ++ todo ∧ idL item = id
            | None => ∀ item, item ∈ done ++ todo → idL item ≠ id
            end) as Hgen.
  { intros done todo. revert done.
    induction todo as [|item todo IH]; intros done merged Hm.
    - simpl. by rewrite app_nil_r.
    - cbn [foldl]. rewrite (cons_middle item done todo), app_assoc.
      apply IH. rewrite lookup_insert. case_decide as Hid.
      + split; [done|]. split; [|done]. apply elem_of_app. right. by left.
      + destruct (merged !! id) as [[item' state]|].
        * destruct Hm as (? & ? & ?). split; [done|]. split; [|done].
          apply elem_of_app. by left.
        * intros item' [Hin| ->%list_elem_of_singleton]%elem_of_app;
            [by apply Hm | done]. }
  apply (Hgen [] locals ∅). rewrite lookup_empty.
  by intros item ?%not_elem_of_nil.
Qed.

Lemma mergeAgent_lookup merged (a : A) (id : string) :
  mergeAgent idA cmp synth merged a !! id
  = if decide (idA a = id) then
      match merged !! id with
      | Some entry =>
          Some (fst entry, if cmp (fst entry) a then "e"%char else "c"%char)
      | None => Some (synth a, "a"%char)
      end
    else merged !! id.
Proof.
  unfold mergeAgent. case_decide as Hid.
  - subst id. destruct (merged !! idA a) as [entry|].
    + destruct (cmp (fst entry) a); by rewrite lookup_insert_eq.
    + by rewrite lookup_insert_eq.
  - destruct (merged !! idA a) as [entry|].
    + destruct (cmp (fst entry) a); by rewrite lookup_insert_ne.
    + by rewrite lookup_insert_ne.
Qed.

(** The table after the walk over the agent's items, when each item sits
    under its own ID. *)
Lemma mergeAgent_loop_lookup (agents : list (string * A)) merged (id : string) :
  NoDup agents.*1 →
  (∀ entry, entry ∈ agents → idA (snd entry) = fst entry) →
  foldl (λ m entry, mergeAgent idA cmp synth m (snd entry)) merged agents !! id
  = match (list_to_map agents : gmap string A) !! id with
    | Some a =>
        match merged !! id with
        | Some entry =>
            Some (fst entry, if cmp (fst entry) a then "e"%char else "c"%char)
        | None => Some (synth a, "a"%char)
        end
    | None => merged !! id
    end.
Proof.
  revert merged. induction agents as [|[key a] agents IH]; intros merged Hnd Hkey;
    [done|].
  apply NoDup_cons in Hnd as [Hfresh Hnd].
  assert (idA a = key) as Ha by (apply (Hkey (key, a)); by left).
  cbn [foldl snd]. rewrite IH; [|done|by intros e ?; apply Hkey; right].
  cbn [list_to_map foldr fst snd]. rewrite lookup_insert, !mergeAgent_lookup, Ha.
  destruct (decide (key = id)) as [->|Hne]; [|done].
  by rewrite (not_elem_of_list_to_map_1 agents id).
Qed.

Hypothesis synth_id : ∀ a, idL (synth a) = idA a.

(** The four slices, read off the two inventories. *)
Lemma merged_diff_spec (locals : list L) (agent : gmap string A) :
  (∀ key a, agent !! key = Some a → idA a = key) →
  let d :=
    partitionByState
      (foldl (λ m entry, mergeAgent idA cmp synth m (snd entry))
             (mergeLocals idL locals) (range agent)) in
  (∀ r, r ∈ missing d → r ∈ locals ∧ agent !! idL r = None)
  ∧ (∀ item, item ∈ locals → agent !! idL item = None →
       ∃ r, r ∈ missing d ∧ idL r = idL item)
  ∧ (∀ r, r ∈ equal d →
       r ∈ locals ∧ ∃ a, agent !! idL r = Some a ∧ cmp r a = true)
  ∧ (∀ r, r ∈ changed d →
       r ∈ locals ∧ ∃ a, agent !! idL r = Some a ∧ cmp r a = false)
  ∧ (∀ item a, item ∈ locals → agent !! idL item = Some a →
       ∃ r, (r ∈ equal d ∨ r ∈ changed d) ∧ idL r = idL item)
  ∧ (∀ r, r ∈ stale d
          ↔ ∃ a, agent !! idA a = Some a
              ∧ (∀ item, item ∈ locals → idL item ≠ idA a) ∧ r = synth a)
  ∧ NoDup (idL <$> allSlices d).
Proof.
  intros Hkey d.
  set (merged := foldl (λ m entry, mergeAgent idA cmp synth m (snd entry))
                   (mergeLocals idL locals) (range agent)) in *.
  assert (∀ id, merged !! id
                = match agent !! id with
                  | Some a =>
                      match mergeLocals idL locals !! id with
                      | Some entry =>
                          Some (fst entry,
                                if cmp (fst entry) a then "e"%char else "c"%char)
                      | None => Some (synth a, "a"%char)
                      end
                  | None => mergeLocals idL locals !! id
                  end) as Hlk.
  { intros id. unfold merged. rewrite mergeAgent_loop_lookup.
    - by rewrite list_to_map_range.
    - apply range_NoDup_fst.
    - intros [key a] Hin%range_elem_of. by apply Hkey. }
  assert (∀ r state, state ∈ ["l"%char; "e"%char; "c"%char; "a"%char] →
            (∃ id, merged !! id = Some (r, state))
            ↔ r ∈ match state with
                  | "l"%char => missing d | "e"%char => equal d
                  | "c"%char => changed d | _ => stale d
                  end) as Hslice.
  { intros r state Hst. unfold d. rewrite partitionByState_fold.
    destruct (diff_fold_elem_of (range merged) (mkDiff [] [] [] []) r)
      as (Hm & He & Hc & Hs).
    cbn [missing equal changed stale] in Hm, He, Hc, Hs.
    assert (∀ st, (∃ id, merged !! id = Some (r, st))
                  ↔ ∃ id, (id, (r, st)) ∈ range merged) as Hrange.
    { intros st. split; intros [id Hid]; exists id; by apply range_elem_of. }
    apply elem_of_cons in Hst as [->|Hst]; [rewrite Hm, Hrange|];
      [|apply elem_of_cons in Hst as [->|Hst]; [rewrite He, Hrange|]];
      [| |apply elem_of_cons in Hst as [->|Hst]; [rewrite Hc, Hrange|]];
      [| | |apply list_elem_of_singleton in Hst as ->; rewrite Hs, Hrange];
      split; try (intros [?%not_elem_of_nil|?]; done); by right. }
  assert (∀ id, match merged !! id with
                | Some (r, state) =>
                    idL r = id
                    ∧ state ∈ ["l"%char; "e"%char; "c"%char; "a"%char]
                | None => True
                end) as Hids.
  { intros id. rewrite Hlk. pose proof (mergeLocals_lookup locals id) as Hloc.
    destruct (agent !! id) as [a|] eqn:Ha;
      destruct (mergeLocals idL locals !! id) as [[item st]|]; simpl.
    - destruct Hloc as (_ & _ & ?). split; [done|].
      destruct (cmp item a); set_solver.
    - split; [|set_solver]. rewrite synth_id. by apply Hkey in Ha.
    - destruct Hloc as (-> & _ & ?). split; [done | set_solver].
    - done. }
  split; [|split; [|split; [|split; [|split; [|split]]]]].
  - intros r [id Hid]%(Hslice r "l"%char); [|set_solver].
    rewrite Hlk in Hid. pose proof (mergeLocals_lookup locals id) as Hloc.
    destruct (agent !! id) as [a|] eqn:Ha.
    + destruct (mergeLocals idL locals !! id) as [[item st]|]; simpl in Hid;
        [destruct (cmp item a)|]; congruence.
    + rewrite Hid in Hloc. destruct Hloc as (_ & ? & <-). done.
  - intros item Hin Hnone.
    pose proof (mergeLocals_lookup locals (idL item)) as Hloc.
    destruct (mergeLocals idL locals !! idL item) as [[r st]|] eqn:Hm;
      [|by destruct (Hloc item Hin)].
    destruct Hloc as (-> & _ & Hid). exists r. split; [|done].
    apply (Hslice r "l"%char); [set_solver|]. exists (idL item).
    by rewrite Hlk, Hnone.
  - intros r [id Hid]%(Hslice r "e"%char); [|set_solver].
    rewrite Hlk in Hid. pose proof (mergeLocals_lookup locals id) as Hloc.
    destruct (agent !! id) as [a|] eqn:Ha.
    + destruct (mergeLocals idL locals !! id) as [[item st]|]; simpl in Hid;
        [|congruence].
      destruct Hloc as (_ & Hin & <-).
      destruct (cmp item a) eqn:Hcmp; [|congruence].
      injection Hid as <-. split; [done|]. by exists a.
    + rewrite Hid in Hloc. by destruct Hloc as ([=] & _).
  - intros r [id Hid]%(Hslice r "c"%char); [|set_solver].
    rewrite Hlk in Hid. pose proof (mergeLocals_lookup locals id) as Hloc.
    destruct (agent !! id) as [a|] eqn:Ha.
    + destruct (mergeLocals idL locals !! id) as [[item st]|]; simpl in Hid;
        [|congruence].
      destruct Hloc as (_ & Hin & <-).
      destruct (cmp item a) eqn:Hcmp; [congruence|].
      injection Hid as <-. split; [done|]. by exists a.
    + rewrite Hid in Hloc. by destruct Hloc as ([=] & _).
  - intros item a Hin Ha.
    pose proof (mergeLocals_lookup locals (idL item)) as Hloc.
    destruct (mergeLocals idL locals !! idL item) as [[r st]|] eqn:Hm;
      [|by destruct (Hloc item Hin)].
    destruct Hloc as (_ & _ & Hid). exists r. split; [|done].
    destruct (cmp r a) eqn:Hcmp.
    + left. apply (Hslice r "e"%char); [set_solver|]. exists (idL item).
      rewrite Hlk, Ha, Hm. simpl. by rewrite Hcmp.
    + right. apply (Hslice r "c"%char); [set_solver|]. exists (idL item).
      rewrite Hlk, Ha, Hm. simpl. by rewrite Hcmp.
  - intros r. rewrite <- (Hslice r "a"%char) by set_solver. split.
    + intros [id Hid]. rewrite Hlk in Hid.
      pose proof (mergeLocals_lookup locals id) as Hloc.
      destruct (agent !! id) as [a|] eqn:Ha.
      * pose proof (Hkey _ _ Ha) as Hida.
        destruct (mergeLocals idL locals !! id) as [[item st]|]; simpl in Hid.
        -- destruct (cmp item a); congruence.
        -- injection Hid as <-. exists a. rewrite Hida. done.
      * rewrite Hid in Hloc. by destruct Hloc as ([=] & _).
    + intros (a & Ha & Hno & ->). exists (idA a). rewrite Hlk, Ha.
      pose proof (mergeLocals_lookup locals (idA a)) as Hloc.
      destruct (mergeLocals idL locals !! idA a) as [[item st]|]; [|done].
      destruct Hloc as (_ & Hin & Hid). by destruct (Hno item Hin).
  - unfold d. rewrite partitionByState_fold, diff_fold_slices.
    + cbn [allSlices missing equal changed stale app].
      rewrite <- list_fmap_compose.
      replace ((idL ∘ λ entry : string * (L * ascii), fst (snd entry))
                 <$> range merged) with (fst <$> range merged);
        [apply range_NoDup_fst|].
      apply list_fmap_ext.
      intros i [id [r st]] Hin%list_elem_of_lookup_2%range_elem_of. simpl.
      specialize (Hids id). rewrite Hin in Hids. by destruct Hids.
    + apply Forall_forall. intros [id [r st]] Hin%range_elem_of. simpl.
      specialize (Hids id). rewrite Hin in Hids. by destruct Hids.
Qed.
End MergeLookup.

Section DiffSpec.
Context {Env : Type} `{RangeOrder}.
Implicit Types c : Syncer Env.

(** The service diff sorts every ID into one slice.  With the agent's
    services keyed by their IDs: missing holds local services whose ID the
    agent lacks, and every such ID is there; equal and changed hold local
    services whose ID the agent has, told apart by [compareConsulService],
    and every such ID is in one of the two; stale holds exactly the
    registrations synthesized (with EnableTagOverride false) from agent
    services whose ID no local service has; and no ID occurs twice over the
    four slices. *)
Theorem calcServicesDiff_spec c (consulServices : gmap string AgentService) :
  (∀ key service, consulServices !! key = Some service → as_ID service = key) →
  let d := calcServicesDiff c consulServices in
  let locals := flattenedServices c in
  (∀ r, r ∈ missing d → r ∈ locals ∧ consulServices !! sr_ID r = None)
  ∧ (∀ item, item ∈ locals → consulServices !! sr_ID item = None →
       ∃ r, r ∈ missing d ∧ sr_ID r = sr_ID item)
  ∧ (∀ r, r ∈ equal d →
       r ∈ locals
       ∧ ∃ a, consulServices !! sr_ID r = Some a
           ∧ compareConsulService r a = true)
  ∧ (∀ r, r ∈ changed d →
       r ∈ locals
       ∧ ∃ a, consulServices !! sr_ID r = Some a
           ∧ compareConsulService r a = false)
  ∧ (∀ item a, item ∈ locals → consulServices !! sr_ID item = Some a →
       ∃ r, (r ∈ equal d ∨ r ∈ changed d) ∧ sr_ID r = sr_ID item)
  ∧ (∀ r, r ∈ stale d
          ↔ ∃ a, consulServices !! as_ID a = Some a
              ∧ (∀ item, item ∈ locals → sr_ID item ≠ as_ID a)
              ∧ r = mkServiceReg (as_ID a) (as_Service a) (as_Tags a)
                      (as_Port a) (as_Address a) false)
  ∧ NoDup (sr_ID <$> allSlices d).
Proof.
  intros Hkey.
  apply (merged_diff_spec sr_ID as_ID compareConsulService
           (λ a, mkServiceReg (as_ID a) (as_Service a) (as_Tags a)
                   (as_Port a) (as_Address a) false));
    done.
Qed.

(** The check diff sorts every check ID into one slice in the same way,
    with [compareConsulCheck] between equal and changed; a stale entry is
    synthesized from the agent's check with its ID, name, notes and
    service ID and no probe. *)
Theorem calcChecksDiff_spec c (consulChecks : gmap string AgentCheck) :
  (∀ key check, consulChecks !! key = Some check → ac_CheckID check = key) →
  let d := calcChecksDiff c consulChecks in
  let locals := flattenedChecks c in
  (∀ r, r ∈ missing d → r ∈ locals ∧ consulChecks !! cr_ID r = None)
  ∧ (∀ item, item ∈ locals → consulChecks !! cr_ID item = None →
       ∃ r, r ∈ missing d ∧ cr_ID r = cr_ID item)
  ∧ (∀ r, r ∈ equal d →
       r ∈ locals
       ∧ ∃ a, consulChecks !! cr_ID r = Some a ∧ compareConsulCheck r a = true)
  ∧ (∀ r, r ∈ changed d →
       r ∈ locals
       ∧ ∃ a, consulChecks !! cr_ID r = Some a ∧ compareConsulCheck r a = false)
  ∧ (∀ item a, item ∈ locals → consulChecks !! cr_ID item = Some a →
       ∃ r, (r ∈ equal d ∨ r ∈ changed d) ∧ cr_ID r = cr_ID item)
  ∧ (∀ r, r ∈ stale d
          ↔ ∃ a, consulChecks !! ac_CheckID a = Some a
              ∧ (∀ item, item ∈ locals → cr_ID item ≠ ac_CheckID a)
              ∧ r = mkCheckReg (ac_CheckID a) (ac_Name a) (ac_Notes a)
                      (ac_ServiceID a) "" "" "" "" "")
  ∧ NoDup (cr_ID <$> allSlices d).
Proof.
  intros Hkey.
  apply (merged_diff_spec cr_ID ac_CheckID compareConsulCheck
           (λ a, mkCheckReg (ac_CheckID a) (ac_Name a) (ac_Notes a)
                   (ac_ServiceID a) "" "" "" "" ""));
    done.
Qed.
End DiffSpec.

(** A local service the agent lacks, one it has with another port, and an
    agent service nobody wants: one entry in missing, changed and stale. *)
Lemma calcServicesDiff_spec_witness :
  let c := afterSet (afterSet fresh "client" {["web" := webService]})
             "server" {[nomadKey := nomadService]} in
  let agent : gmap string AgentService :=
    {["_nomad-client-web" :=
        mkAgentService "_nomad-client-web" "web" [] 80 "1.2.3.4" false;
      "_nomad-client-old" :=
        mkAgentService "_nomad-client-old" "old" [] 80 "1.2.3.4" false]} in
  sr_ID <$> missing (calcServicesDiff c agent) = ["_nomad-server-nomad-rpc-serf"]
  ∧ sr_ID <$> changed (calcServicesDiff c agent) = ["_nomad-client-web"]
  ∧ sr_ID <$> stale (calcServicesDiff c agent) = ["_nomad-client-old"]
  ∧ NoDup (sr_ID <$> allSlices (calcServicesDiff c agent)).
Proof.
  intros c agent.
  assert (∀ key service, agent !! key = Some service → as_ID service = key)
    as Hkey.
  { intros key service Hlk. apply elem_of_map_to_list in Hlk.
    vm_compute in Hlk.
    repeat (apply elem_of_cons in Hlk as [Hlk|Hlk];
            [by injection Hlk as -> ->|]).
    by apply not_elem_of_nil in Hlk. }
  destruct (calcServicesDiff_spec c agent Hkey) as (_ & _ & _ & _ & _ & _ & Hnd).
  split; [vm_compute; reflexivity|]. split; [vm_compute; reflexivity|].
  split; [vm_compute; reflexivity|]. exact Hnd.
Defined.

Lemma calcChecksDiff_spec_witness :
  let c := afterSet fresh "client" {["web" := webService]} in
  let agent : gmap string AgentCheck :=
    {["_nomad-client-web/alive" :=
        mkAgentCheck "_nomad-client-web/alive" "alive" "" "_nomad-client-web"
          "passing";
      "stray" := mkAgentCheck "stray" "stray" "" "_nomad-client-web" "critical"]} in
  cr_ID <$> missing (calcChecksDiff c agent) = ["_nomad-client-web/probe"]
  ∧ cr_ID <$> equal (calcChecksDiff c agent) = ["_nomad-client-web/alive"]
  ∧ cr_ID <$> stale (calcChecksDiff c agent) = ["stray"]
  ∧ NoDup (cr_ID <$> allSlices (calcChecksDiff c agent)).
Proof.
  intros c agent.
  assert (∀ key check, agent !! key = Some check → ac_CheckID check = key)
    as Hkey.
  { intros key check Hlk. apply elem_of_map_to_list in Hlk.
    vm_compute in Hlk.
    repeat (apply elem_of_cons in Hlk as [Hlk|Hlk];
            [by injection Hlk as -> ->|]).
    by apply not_elem_of_nil in Hlk. }
  destruct (calcChecksDiff_spec c agent Hkey) as (_ & _ & _ & _ & _ & _ & Hnd).
  split; [vm_compute; reflexivity|]. split; [vm_compute; reflexivity|].
  split; [vm_compute; reflexivity|]. exact Hnd.
Defined.

(** ** What a sync phase does *)

Section HandlersRan.
Context {Env : Type}.

Lemma handlers_ran_app (hs1 hs2 : list (string * (Env → Env * option error)))
    (env env1 env2 : Env) (errs1 errs2 : list error) :
  handlers_ran hs1 env env1 errs1 → handlers_ran hs2 env1 env2 errs2 →
  handlers_ran (hs1 ++ hs2) env env2 (errs1 ++ errs2).
Proof.
  induction 1 as [env|name fn rest env enva envb errs Hfn Hran IH
                  |name fn rest env enva envb err errs Hfn Hran IH];
    intros H2; simpl.
  - done.
  - eapply ran_ok; [done | by apply IH].
  - eapply ran_failed; [done | by apply IH].
Qed.
End HandlersRan.

Section SyncEffects.
Context {Env : Type} `{RangeOrder} `{AgentAPI Env}.
Implicit Types w : World Env.

Lemma set_trackedServices_same (c : Syncer Env) :
  set_trackedServices (trackedServices c) c = c.
Proof. by destruct c. Qed.

Lemma registerMissingServices_effect (services : list AgentServiceRegistration)
    (errs : list error) w :
  ∃ env' new,
    registerMissingServices services errs w
    = (errs ++ new,
       mkWorld
         (set_trackedServices
            (foldl (λ t service, <[sr_ID service := service]> t)
                   (trackedServices (w_syncer w)) services) (w_syncer w))
         env' (w_log w ++ (EvServiceRegister <$> services)))
    ∧ handlers_ran
        ((λ service, (sr_ID service, agent_ServiceRegister service)) <$> services)
        (w_env w) env' new.
Proof.
  revert errs w. induction services as [|service rest IH]; intros errs w.
  - exists (w_env w), []. simpl. rewrite !app_nil_r, set_trackedServices_same.
    split; [by destruct w | constructor].
  - cbn [registerMissingServices]. unfold bindM, callM, modifySyncer.
    destruct (agent_ServiceRegister service (w_env w)) as [env1 err] eqn:Hcall.
    edestruct IH as (env' & new & -> & Hran).
    cbn [w_syncer w_env w_log trackedServices set_trackedServices].
    exists env'. destruct err as [e|]; simpl.
    + exists (e :: new). rewrite <- !app_assoc. split; [done|].
      by eapply ran_failed.
    + exists new. rewrite <- !app_assoc. split; [done|]. by eapply ran_ok.
Qed.

Lemma registerChangedServices_effect (services : list AgentServiceRegistration)
    (errs : list error) w :
  ∃ env' new,
    registerChangedServices services errs w
    = (errs ++ new,
       mkWorld (w_syncer w) env' (w_log w ++ (EvServiceRegister <$> services)))
    ∧ handlers_ran
        ((λ service, (sr_ID service, agent_ServiceRegister service)) <$> services)
        (w_env w) env' new.
Proof.
  revert errs w. induction services as [|service rest IH]; intros errs w.
  - exists (w_env w), []. simpl. rewrite !app_nil_r.
    split; [by destruct w | constructor].
  - cbn [registerChangedServices]. unfold bindM, callM.
    destruct (agent_ServiceRegister service (w_env w)) as [env1 err] eqn:Hcall.
    edestruct IH as (env' & new & -> & Hran).
    cbn [w_syncer w_env w_log].
    exists env'. destruct err as [e|]; simpl.
    + exists (e :: new). rewrite <- !app_assoc. split; [done|].
      by eapply ran_failed.
    + exists new. rewrite <- !app_assoc. split; [done|]. by eapply ran_ok.
Qed.

Lemma deregisterStaleServices_effect (services : list AgentServiceRegistration)
    (errs : list error) w :
  ∃ env' new,
    deregisterStaleServices services errs w
    = (errs ++ new,
       mkWorld
         (set_trackedServices
            (foldl (λ t service, delete (sr_ID service) t)
                   (trackedServices (w_syncer w)) services) (w_syncer w))
         env'
         (w_log w ++ ((λ service, EvServiceDeregister (sr_ID service))
                        <$> services)))
    ∧ handlers_ran
        ((λ service, (sr_ID service, agent_ServiceDeregister (sr_ID service)))
           <$> services)
        (w_env w) env' new.
Proof.
  revert errs w. induction services as [|service rest IH]; intros errs w.
  - exists (w_env w), []. simpl. rewrite !app_nil_r, set_trackedServices_same.
    split; [by destruct w | constructor].
  - cbn [deregisterStaleServices]. unfold bindM, deregisterService, callM,
      modifySyncer.
    destruct (agent_ServiceDeregister (sr_ID service) (w_env w))
      as [env1 err] eqn:Hcall.
    edestruct IH as (env' & new & -> & Hran).
    cbn [w_syncer w_env w_log trackedServices set_trackedServices].
    exists env'. destruct err as [e|]; simpl.
    + exists (e :: new). rewrite <- !app_assoc. split; [done|].
      by eapply ran_failed.
    + exists new. rewrite <- !app_assoc. split; [done|]. by eapply ran_ok.
Qed.

(** [syncServices] after a successful query: one register call for every
    missing and every changed service and one deregister call for every
    stale one, in that order, each made whatever the earlier ones returned;
    the errors returned are gathered into the result; the tracked services
    gain the missing and lose the stale ones; nothing else of the syncer
    changes.  A failed query is returned at once, with no other call. *)
Theorem syncServices_effect w :
  match agent_Services (w_env w) with
  | (env1, inr err) =>
      syncServices w
      = (Some err, mkWorld (w_syncer w) env1 (w_log w ++ [EvServices]))
  | (env1, inl services) =>
      let c := w_syncer w in
      let d := calcServicesDiff c (filterConsulServices c services) in
      ∃ env' errs,
        syncServices w
        = (ErrorOrNil errs,
           mkWorld
             (set_trackedServices
                (foldl (λ t service, delete (sr_ID service) t)
                   (foldl (λ t service, <[sr_ID service := service]> t)
                      (trackedServices c) (missing d))
                   (stale d)) c)
             env' (w_log w ++ [EvServices] ++ serviceEvents d))
        ∧ handlers_ran (serviceCalls d) env1 env' errs
  end.
Proof.
  destruct (agent_Services (w_env w)) as [env1 [services|err]] eqn:Hq;
    [|unfold syncServices, queryAgentServices, bindM, callM, getSyncer, retM;
      by rewrite Hq].
  intros c d.
  unfold syncServices, queryAgentServices, bindM, callM, getSyncer, retM.
  rewrite Hq. cbn [w_syncer]. fold c. fold d.
  edestruct (registerMissingServices_effect (missing d) [])
    as (env2 & new1 & -> & Hran1).
  edestruct (registerChangedServices_effect (changed d) ([] ++ new1))
    as (env3 & new2 & -> & Hran2).
  edestruct (deregisterStaleServices_effect (stale d) (([] ++ new1) ++ new2))
    as (env4 & new3 & -> & Hran3).
  cbn [w_syncer w_env w_log trackedServices set_trackedServices] in *.
  exists env4, (new1 ++ new2 ++ new3). split.
  - unfold serviceEvents. rewrite fmap_app, <- !app_assoc. done.
  - unfold serviceCalls. rewrite fmap_app, <- app_assoc.
    apply handlers_ran_app with env2; [done|].
    by apply handlers_ran_app with env3.
Qed.


Lemma set_trackedChecks_same (c : Syncer Env) :
  set_trackedChecks (trackedChecks c) c = c.
Proof. by destruct c. Qed.

(** The runner table after the checks [checks] were presented to
    [registerCheck]: the runners of their IDs are started, no runner is
    added or removed. *)
Lemma startRunners_lookup (checks : list AgentCheckRegistration)
    (runners : gmap string CheckRunner) (id : string) :
  foldl (λ rs check,
           match rs !! cr_ID check with
           | Some cr => <[cr_ID check := runner_Start cr]> rs
           | None => rs
           end) runners checks !! id
  = if decide (id ∈ cr_ID <$> checks)
    then runner_Start <$> runners !! id else runners !! id.
Proof.
  revert runners. induction checks as [|check rest IH]; intros runners.
  - cbn [foldl]. destruct (decide _) as [Hin|]; [|done].
    by apply not_elem_of_nil in Hin.
  - cbn [foldl]. rewrite IH.
    assert (match runners !! cr_ID check with
            | Some cr => <[cr_ID check := runner_Start cr]> runners
            | None => runners
            end !! id
            = if decide (cr_ID check = id)
              then runner_Start <$> runners !! id else runners !! id) as ->.
    { destruct (decide (cr_ID check = id)) as [<-|Hid].
      - destruct (runners !! cr_ID check) as [cr|] eqn:Hcr.
        + by rewrite lookup_insert_eq.
        + by rewrite Hcr.
      - destruct (runners !! cr_ID check); [by rewrite lookup_insert_ne|done]. }
    rewrite fmap_cons.
    destruct (decide (cr_ID check = id)) as [Hid|Hid],
      (decide (id ∈ cr_ID <$> rest)) as [Hin|Hin].
    + rewrite decide_True by (subst; by left).
      by destruct (runners !! id).
    + rewrite decide_True by (subst; by left). done.
    + rewrite decide_True by by right. done.
    + rewrite decide_False; [done|].
      intros [?|?]%elem_of_cons; congruence.
Qed.

Lemma registerCheck_effect (check : AgentCheckRegistration) w :
  registerCheck check w
  = (snd (agent_CheckRegister check (w_env w)),
     mkWorld
       (set_checkRunners
          (match checkRunners (w_syncer w) !! cr_ID check with
           | Some cr =>
               <[cr_ID check := runner_Start cr]> (checkRunners (w_syncer w))
           | None => checkRunners (w_syncer w)
           end) (w_syncer w))
       (fst (agent_CheckRegister check (w_env w)))
       (w_log w ++ [EvCheckRegister check])).
Proof.
  unfold registerCheck, bindM, callM, modifySyncer. cbn [w_syncer w_env w_log].
  destruct (agent_CheckRegister check (w_env w)) as [env1 err].
  destruct (checkRunners (w_syncer w) !! cr_ID check); [done|].
  by rewrite set_checkRunners_same.
Qed.

Lemma registerMissingChecks_effect (checks : list AgentCheckRegistration)
    (errs : list error) w :
  ∃ env' new,
    registerMissingChecks checks errs w
    = (errs ++ new,
       mkWorld
         (set_trackedChecks
            (foldl (λ t check, <[cr_ID check := check]> t)
                   (trackedChecks (w_syncer w)) checks)
            (set_checkRunners
               (foldl (λ rs check,
                         match rs !! cr_ID check with
                         | Some cr => <[cr_ID check := runner_Start cr]> rs
                         | None => rs
                         end) (checkRunners (w_syncer w)) checks)
               (w_syncer w)))
         env' (w_log w ++ (EvCheckRegister <$> checks)))
    ∧ handlers_ran
        ((λ check, (cr_ID check, agent_CheckRegister check)) <$> checks)
        (w_env w) env' new.
Proof.
  revert errs w. induction checks as [|check rest IH]; intros errs w.
  - exists (w_env w), []. simpl.
    rewrite !app_nil_r, set_checkRunners_same, set_trackedChecks_same.
    split; [by destruct w | constructor].
  - cbn [registerMissingChecks]. unfold bindM. rewrite registerCheck_effect.
    unfold modifySyncer. cbn [w_syncer w_env w_log].
    destruct (agent_CheckRegister check (w_env w)) as [env1 err] eqn:Hcall.
    edestruct IH as (env' & new & -> & Hran).
    cbn [w_syncer w_env w_log trackedChecks set_trackedChecks checkRunners
         set_checkRunners fst snd] in *.
    exists env'. destruct err as [e|]; simpl.
    + exists (e :: new). rewrite <- !app_assoc. split; [done|].
      by eapply ran_failed.
    + exists new. rewrite <- !app_assoc. split; [done|]. by eapply ran_ok.
Qed.

Lemma registerChangedChecks_effect (checks : list AgentCheckRegistration)
    (errs : list error) w :
  ∃ env' new,
    registerChangedChecks checks errs w
    = (errs ++ new,
       mkWorld
         (set_checkRunners
            (foldl (λ rs check,
                      match rs !! cr_ID check with
                      | Some cr => <[cr_ID check := runner_Start cr]> rs
                      | None => rs
                      end) (checkRunners (w_syncer w)) checks)
            (w_syncer w))
         env' (w_log w ++ (EvCheckRegister <$> checks)))
    ∧ handlers_ran
        ((λ check, (cr_ID check, agent_CheckRegister check)) <$> checks)
        (w_env w) env' new.
Proof.
  revert errs w. induction checks as [|check rest IH]; intros errs w.
  - exists (w_env w), []. simpl. rewrite !app_nil_r, set_checkRunners_same.
    split; [by destruct w | constructor].
  - cbn [registerChangedChecks]. unfold bindM. rewrite registerCheck_effect.
    destruct (agent_CheckRegister check (w_env w)) as [env1 err] eqn:Hcall.
    edestruct IH as (env' & new & -> & Hran).
    cbn [w_syncer w_env w_log checkRunners set_checkRunners fst snd] in *.
    exists env'. destruct err as [e|]; simpl.
    + exists (e :: new). rewrite <- !app_assoc. split; [done|].
      by eapply ran_failed.
    + exists new. rewrite <- !app_assoc. split; [done|]. by eapply ran_ok.
Qed.

Lemma deregisterCheck_effect (id : string) w :
  deregisterCheck id w
  = (snd (agent_CheckDeregister id (w_env w)),
     mkWorld
       (match snd (agent_CheckDeregister id (w_env w)) with
        | Some _ => w_syncer w
        | None =>
            set_checkRunners (delete id (checkRunners (w_syncer w))) (w_syncer w)
        end)
       (fst (agent_CheckDeregister id (w_env w)))
       (w_log w ++ [EvCheckDeregister id])).
Proof.
  unfold deregisterCheck, bindM, callM, modifySyncer, retM.
  cbn [w_syncer w_env w_log].
  destruct (agent_CheckDeregister id (w_env w)) as [env1 [e|]]; [done|].
  cbn [w_syncer w_env w_log fst snd].
  destruct (checkRunners (w_syncer w) !! id) eqn:Hlk; [done|].
  by rewrite delete_id, set_checkRunners_same.
Qed.

Lemma deregisterStaleChecks_effect (checks : list AgentCheckRegistration)
    (errs : list error) w :
  ∃ env' new runners,
    deregisterStaleChecks checks errs w
    = (errs ++ new,
       mkWorld
         (set_trackedChecks
            (foldl (λ t check, delete (cr_ID check) t)
                   (trackedChecks (w_syncer w)) checks)
            (set_checkRunners runners (w_syncer w)))
         env'
         (w_log w ++ ((λ check, EvCheckDeregister (cr_ID check)) <$> checks)))
    ∧ handlers_ran
        ((λ check, (cr_ID check, agent_CheckDeregister (cr_ID check)))
           <$> checks)
        (w_env w) env' new
    ∧ (∀ id, runners !! id = checkRunners (w_syncer w) !! id
             ∨ (runners !! id = None ∧ id ∈ cr_ID <$> checks))
    ∧ (new = [] → ∀ id, id ∈ cr_ID <$> checks → runners !! id = None).
Proof.
  revert errs w. induction checks as [|check rest IH]; intros errs w.
  - exists (w_env w), [], (checkRunners (w_syncer w)). simpl.
    rewrite !app_nil_r, set_checkRunners_same, set_trackedChecks_same.
    split; [by destruct w|]. split; [constructor|]. split; [by left|].
    by intros _ id ?%not_elem_of_nil.
  - cbn [deregisterStaleChecks]. unfold bindM. rewrite deregisterCheck_effect.
    unfold modifySyncer. cbn [w_syncer w_env w_log].
    destruct (agent_CheckDeregister (cr_ID check) (w_env w))
      as [env1 [e|]] eqn:Hcall; cbn [fst snd].
    + edestruct IH as (env' & new & runners & -> & Hran & Hrun & _).
      cbn [w_syncer w_env w_log trackedChecks set_trackedChecks checkRunners
           set_checkRunners] in *.
      exists env', (e :: new), runners. simpl. rewrite <- !app_assoc.
      split; [done|]. split; [by eapply ran_failed|]. split; [|done].
      intros id. destruct (Hrun id) as [?|[? ?]]; [by left|].
      right. split; [done | by right].
    + edestruct IH as (env' & new & runners & -> & Hran & Hrun & Hall).
      cbn [w_syncer w_env w_log trackedChecks set_trackedChecks checkRunners
           set_checkRunners] in *.
      exists env', new, runners. simpl. rewrite <- !app_assoc.
      split; [done|]. split; [by eapply ran_ok|]. split.
      * intros id. destruct (Hrun id) as [Hid|[? ?]].
        -- rewrite lookup_delete in Hid. case_decide; subst.
           ++ right. split; [done | by left].
           ++ by left.
        -- right. split; [done | by right].
      * intros Hnew id [->|Hin]%elem_of_cons; [|by apply Hall].
        destruct (Hrun (cr_ID check)) as [Hid|[? ?]]; [|done].
        by rewrite lookup_delete_eq in Hid.
Qed.

(** [syncChecks] after a successful query: one register call for every
    missing and every changed check and one deregister call for every stale
    one, in that order, each made whatever the earlier ones returned, the
    errors gathered into the result; the tracked checks gain the missing
    and lose the stale ones.  The runner of every check presented for
    registration is started; a runner is removed only for a stale check,
    and for every stale check when no call failed; no runner is created.
    A failed query is returned at once, with no other call. *)
Theorem syncChecks_effect w :
  match agent_Checks (w_env w) with
  | (env1, inr err) =>
      syncChecks w
      = (Some err, mkWorld (w_syncer w) env1 (w_log w ++ [EvChecks]))
  | (env1, inl checks) =>
      let c := w_syncer w in
      let d := calcChecksDiff c (filterConsulChecks c checks) in
      ∃ env' errs runners,
        syncChecks w
        = (ErrorOrNil errs,
           mkWorld
             (set_trackedChecks
                (foldl (λ t check, delete (cr_ID check) t)
                   (foldl (λ t check, <[cr_ID check := check]> t)
                      (trackedChecks c) (missing d))
                   (stale d))
                (set_checkRunners runners c))
             env' (w_log w ++ [EvChecks] ++ checkEvents d))
        ∧ handlers_ran (checkCalls d) env1 env' errs
        ∧ (∀ id,
             runners !! id
             = (if decide (id ∈ cr_ID <$> missing d ++ changed d)
                then runner_Start <$> checkRunners c !! id
                else checkRunners c !! id)
             ∨ (runners !! id = None ∧ id ∈ cr_ID <$> stale d))
        ∧ (errs = [] → ∀ id, id ∈ cr_ID <$> stale d → runners !! id = None)
  end.
Proof.
  destruct (agent_Checks (w_env w)) as [env1 [checks|err]] eqn:Hq;
    [|unfold syncChecks, queryChecks, bindM, callM, getSyncer, retM;
      by rewrite Hq].
  intros c d.
  unfold syncChecks, queryChecks, bindM, callM, getSyncer, retM.
  rewrite Hq. cbn [w_syncer]. fold c. fold d.
  edestruct (registerMissingChecks_effect (missing d) [])
    as (env2 & new1 & -> & Hran1).
  edestruct (registerChangedChecks_effect (changed d) ([] ++ new1))
    as (env3 & new2 & -> & Hran2).
  edestruct (deregisterStaleChecks_effect (stale d) (([] ++ new1) ++ new2))
    as (env4 & new3 & runners & -> & Hran3 & Hrun & Hall).
  cbn [w_syncer w_env w_log trackedChecks set_trackedChecks checkRunners
       set_checkRunners] in *.
  exists env4, (new1 ++ new2 ++ new3), runners. split; [|split; [|split]].
  - unfold checkEvents. rewrite fmap_app, <- !app_assoc. done.
  - unfold checkCalls. rewrite fmap_app, <- app_assoc.
    apply handlers_ran_app with env2; [done|].
    by apply handlers_ran_app with env3.
  - intros id. destruct (Hrun id) as [->|?]; [left|by right].
    rewrite <- foldl_app. apply startRunners_lookup.
  - intros Hnil. apply app_eq_nil in Hnil as [_ [_ ->]%app_eq_nil].
    by apply Hall.
Qed.
End SyncEffects.


(** ** IDs the sync acts on *)

Section ActedOn.
Context {Env : Type} `{RangeOrder}.
Implicit Types c : Syncer Env.

(** With a well-formed desired state and the agent's services keyed by
    their IDs, every service [syncServices] registers carries the full
    prefix "_nomad-" + domain + "-" of a domain of [servicesGroups], and
    every service it deregisters has an ID that starts with
    "_nomad-" + domain for such a domain: no call is made for an agent
    record outside the syncer's own prefixes. *)
Theorem sync_acts_on_own_prefixes c (services : gmap string AgentService) :
  registryWf c →
  (∀ key service, services !! key = Some service → as_ID service = key) →
  let d := calcServicesDiff c (filterConsulServices c services) in
  (∀ r, r ∈ missing d ++ changed d →
     ∃ domain, is_Some (servicesGroups c !! domain)
       ∧ HasPrefix (sr_ID r) (nomadServicePrefix +:+ "-" +:+ domain +:+ "-")
         = true)
  ∧ (∀ r, r ∈ stale d →
       ∃ domain, is_Some (servicesGroups c !! domain)
         ∧ HasPrefix (sr_ID r) (nomadServicePrefix +:+ "-" +:+ domain) = true
         ∧ is_Some (services !! sr_ID r)).
Proof.
  intros (Hsv & _ & _) Hkey d.
  assert (∀ key service,
            filterConsulServices c services !! key = Some service →
            as_ID service = key) as Hkey'.
  { intros key service [Hlk _]%filterConsulServices_lookup. by apply Hkey. }
  destruct (merged_diff_spec sr_ID as_ID compareConsulService
              (λ a, mkServiceReg (as_ID a) (as_Service a) (as_Tags a)
                      (as_Port a) (as_Address a) false)
              (λ a, eq_refl) (flattenedServices c)
              (filterConsulServices c services) Hkey')
    as (Hm & _ & _ & Hc & _ & Hs & _).
  fold (calcServicesDiff c (filterConsulServices c services)) in Hm, Hc, Hs.
  fold d in Hm, Hc, Hs.
  split.
  - intros r Hr.
    assert (r ∈ flattenedServices c) as (domain & key & Hlk)%flattenedServices_elem_of.
    { apply elem_of_app in Hr as [Hr|Hr]; [by apply Hm | by apply Hc]. }
    exists domain. split.
    { unfold groupLookup in Hlk. by destruct (servicesGroups c !! domain). }
    rewrite (Hsv _ _ _ Hlk). apply generateConsulServiceID_prefix.
  - intros r (a & Ha & _ & ->)%Hs. simpl.
    apply filterConsulServices_lookup in Ha as (Ha & domain & Hdom & Hp).
    exists domain. split; [done|]. split; [done | by eexists].
Qed.
End ActedOn.

Lemma registryWf_empty {Env : Type} (c : Syncer Env) :
  servicesGroups c = ∅ → checkGroups c = ∅ → registryWf c.
Proof.
  intros Hs Hc. unfold registryWf, groupLookup. rewrite Hs, Hc.
  split; [|split]; intros domain key; rewrite lookup_empty; simpl; try done;
    try by intros [? ?].
Qed.

(** ** Shutdown and reaping *)

Section ShutdownReap.
Context {Env : Type} `{RangeOrder} `{AgentAPI Env}.
Implicit Types c : Syncer Env.
Implicit Types w : World Env.

Lemma stopRunners_fold (l : list (string * CheckRunner)) c :
  NoDup l.*1 →
  let c' :=
    foldl (λ c entry,
             set_checkRunners
               (<[fst entry := runner_Stop (snd entry)]> (checkRunners c)) c)
          c l in
  c' = set_checkRunners (checkRunners c') c
  ∧ ∀ id, checkRunners c' !! id
          = match (list_to_map l : gmap string CheckRunner) !! id with
            | Some cr => Some (runner_Stop cr)
            | None => checkRunners c !! id
            end.
Proof.
  revert c. induction l as [|[key cr] l IH]; intros c Hnd.
  - simpl. split; [by rewrite set_checkRunners_same | done].
  - apply NoDup_cons in Hnd as [Hfresh Hnd]. cbn [foldl fst snd].
    destruct (IH (set_checkRunners (<[key := runner_Stop cr]> (checkRunners c)) c)
                Hnd) as [Heq Hlk].
    split; [by rewrite Heq at 1|].
    intros id. rewrite Hlk. cbn [list_to_map foldr fst snd checkRunners
      set_checkRunners]. rewrite !lookup_insert.
    destruct (decide (key = id)) as [->|Hne]; [|done].
    by rewrite (not_elem_of_list_to_map_1 l id).
Qed.

Lemma stopRunners_spec c :
  stopRunners c = set_checkRunners (runner_Stop <$> checkRunners c) c.
Proof.
  unfold stopRunners.
  destruct (stopRunners_fold (range (checkRunners c)) c (range_NoDup_fst _))
    as [Heq Hlk].
  rewrite Heq. f_equal. apply map_eq. intros id.
  rewrite Hlk, list_to_map_range, lookup_fmap.
  by destruct (checkRunners c !! id).
Qed.

Lemma deregisterTracked_effect (serviceIDs : list string) (errs : list error) w :
  ∃ env' new,
    deregisterTracked serviceIDs errs w
    = (errs ++ new,
       mkWorld (w_syncer w) env'
         (w_log w ++ (EvServiceDeregister <$> serviceIDs)))
    ∧ handlers_ran
        ((λ id, (id, agent_ServiceDeregister id)) <$> serviceIDs)
        (w_env w) env' new.
Proof.
  revert errs w. induction serviceIDs as [|id rest IH]; intros errs w.
  - exists (w_env w), []. simpl. rewrite !app_nil_r.
    split; [by destruct w | constructor].
  - cbn [deregisterTracked]. unfold bindM, callM.
    destruct (agent_ServiceDeregister id (w_env w)) as [env1 err] eqn:Hcall.
    edestruct IH as (env' & new & -> & Hran).
    cbn [w_syncer w_env w_log].
    exists env'. destruct err as [e|]; simpl.
    + exists (e :: new). rewrite <- !app_assoc. split; [done|].
      by eapply ran_failed.
    + exists new. rewrite <- !app_assoc. split; [done|]. by eapply ran_ok.
Qed.

(** [Shutdown] sets the shutdown flag, stops every runner without removing
    any, and asks the agent to deregister each tracked service once,
    whatever the earlier calls returned, gathering the errors; it issues no
    check call, and leaves the tracked maps and the desired state as they
    were.  Its signal goes to [notifyShutdownCh] without blocking: on the
    nil channel [NewSyncer] leaves there, nothing becomes pending and the
    case of [Run] that returns stays unready. *)
Theorem Shutdown_effect w :
  let c := w_syncer w in
  ∃ env' errs ids c',
    Shutdown w
    = (ErrorOrNil errs,
       mkWorld c' env' (w_log w ++ (EvServiceDeregister <$> ids)))
    ∧ ids ≡ₚ (map_to_list (trackedServices c)).*1
    ∧ handlers_ran ((λ id, (id, agent_ServiceDeregister id)) <$> ids)
        (w_env w) env' errs
    ∧ shutdown c' = true
    ∧ checkRunners c' = runner_Stop <$> checkRunners c
    ∧ notifyShutdownCh c' = fst (trySend (notifyShutdownCh c))
    ∧ c' = set_checkRunners (checkRunners c')
             (set_notifyShutdownCh (notifyShutdownCh c') (set_shutdown true c))
    ∧ (notifyShutdownCh c = None →
       ∀ timerFired shutdownChReady,
         Run_case_ready c' timerFired shutdownChReady CaseNotifyShutdown = false).
Proof.
  intros c. unfold Shutdown, bindM, modifySyncer, getSyncer, retM.
  cbn [w_syncer w_env w_log].
  edestruct deregisterTracked_effect as (env' & new & -> & Hran).
  cbn [w_syncer w_env w_log] in *. fold c in Hran |- *.
  rewrite stopRunners_spec in *.
  set (c0 := if shutdown c then c else set_shutdown true c) in *.
  assert (c0 = set_shutdown true c) as Hc0.
  { unfold c0. destruct (shutdown c) eqn:Hsd; [|done].
    destruct c. simpl in Hsd. by subst. }
  eexists env', new, _, _. split; [reflexivity|].
  cbn [trackedServices set_checkRunners signalShutdown set_notifyShutdownCh
       checkRunners shutdown notifyShutdownCh].
  rewrite Hc0. cbn [trackedServices set_shutdown checkRunners shutdown
                    notifyShutdownCh].
  rewrite Hc0 in Hran.
  split; [by rewrite range_perm|]. split; [exact Hran|]. split; [done|].
  split; [done|]. split; [done|]. split; [done|].
  intros Hnil timer ready. simpl. by rewrite Hnil.
Qed.

Lemma reapLoop_effect (domains : list ServiceDomain) (serviceIDs : list string)
    (errs : list error) w :
  let reaped :=
    List.filter (λ id, HasPrefix id nomadServicePrefix
                       && negb (reapMatch domains id)) serviceIDs in
  ∃ env' new,
    reapLoop domains serviceIDs errs w
    = (errs ++ new,
       mkWorld (w_syncer w) env' (w_log w ++ (EvServiceDeregister <$> reaped)))
    ∧ handlers_ran ((λ id, (id, agent_ServiceDeregister id)) <$> reaped)
        (w_env w) env' new.
Proof.
  revert errs w. induction serviceIDs as [|id rest IH]; intros errs w.
  - exists (w_env w), []. simpl. rewrite !app_nil_r.
    split; [by destruct w | constructor].
  - cbn [reapLoop List.filter].
    destruct (HasPrefix id nomadServicePrefix); cbn [negb andb]; [|apply IH].
    destruct (reapMatch domains id); cbn [negb]; [apply IH|].
    unfold bindM, deregisterService, callM.
    destruct (agent_ServiceDeregister id (w_env w)) as [env1 err] eqn:Hcall.
    edestruct IH as (env' & new & -> & Hran).
    cbn [w_syncer w_env w_log].
    exists env'. destruct err as [e|]; simpl.
    + exists (e :: new). rewrite <- !app_assoc. split; [done|].
      by eapply ran_failed.
    + exists new. rewrite <- !app_assoc. split; [done|]. by eapply ran_ok.
Qed.

(** [ReapUnmatched] asks the agent to deregister, once each and whatever
    the earlier calls returned, exactly the services whose ID starts with
    "_nomad" and does not start with "_nomad-" + d + "-" for any of the
    domains given; a service without the "_nomad" prefix is never touched,
    nor is the syncer.  A failed query is returned at once. *)
Theorem ReapUnmatched_effect (domains : list ServiceDomain) w :
  match agent_Services (w_env w) with
  | (env1, inr err) =>
      ReapUnmatched domains w
      = (Some err, mkWorld (w_syncer w) env1 (w_log w ++ [EvServices]))
  | (env1, inl servicesInConsul) =>
      ∃ env' errs ids,
        ReapUnmatched domains w
        = (ErrorOrNil errs,
           mkWorld (w_syncer w) env'
             (w_log w ++ [EvServices] ++ (EvServiceDeregister <$> ids)))
        ∧ NoDup ids
        ∧ (∀ id, id ∈ ids
                 ↔ is_Some (servicesInConsul !! id)
                   ∧ HasPrefix id nomadServicePrefix = true
                   ∧ ∀ domain, domain ∈ domains →
                       HasPrefix id
                         (nomadServicePrefix +:+ "-" +:+ domain +:+ "-") = false)
        ∧ handlers_ran ((λ id, (id, agent_ServiceDeregister id)) <$> ids)
            env1 env' errs
  end.
Proof.
  unfold ReapUnmatched, bindM, callM, retM.
  destruct (agent_Services (w_env w)) as [env1 [services|err]]; [|done].
  edestruct (reapLoop_effect domains (fst <$> range services) [])
    as (env' & new & -> & Hran).
  cbn [w_syncer w_env w_log] in *.
  eexists env', new, _. split; [by rewrite <- app_assoc|].
  split; [|split; [|done]].
  - apply NoDup_ListNoDup, List.NoDup_filter, NoDup_ListNoDup, range_NoDup_fst.
  - intros id. rewrite list_elem_of_In, filter_In, <- list_elem_of_In.
    rewrite andb_true_iff, negb_true_iff. unfold reapMatch.
    rewrite <- not_true_iff_false, existsb_exists.
    assert (id ∈ (range services).*1 ↔ is_Some (services !! id)) as ->.
    { rewrite list_elem_of_fmap. split.
      - intros ([key a] & -> & Hin%range_elem_of). by eexists.
      - intros [a Ha]. exists (id, a). split; [done | by apply range_elem_of]. }
    split.
    + intros (Hin & Hp & Hno). split; [done|]. split; [done|].
      intros domain Hd%list_elem_of_In. apply not_true_iff_false.
      intros Hm. apply Hno. by exists domain.
    + intros (Hin & Hp & Hno). split; [done|]. split; [done|].
      intros (domain & Hd%list_elem_of_In & Hm). by rewrite (Hno domain Hd) in Hm.
Qed.
End ShutdownReap.

(** ** The periodic loop *)

Section RunLoop.
Context {Env : Type} `{RangeOrder} `{AgentAPI Env}.

(** One turn of [Run].  On the timer the loop re-arms it to
    [syncInterval] less the stagger, more than 4.375 s and at most 5 s,
    runs [SyncServices] and sets [consulAvailable] to whether that returned
    nil.  On the immediate-sync signal it consumes the signal and re-arms
    the timer to the full [syncInterval]; it runs no sync itself.  Only the
    internal shutdown signal stops the timer and makes [Run] return; the
    caller's shutdown channel runs [Shutdown] and loops on. *)
Theorem Run_step_spec (stagger : Z) (st : RunState) :
  (0 ≤ stagger < syncInterval / syncJitter)%Z →
  (∃ d, run_timer (Run_step stagger CaseTimer st) = Some d
        ∧ (4375000000 < d ≤ 5000000000)%Z
        ∧ run_world (Run_step stagger CaseTimer st)
          = (let '(err, w) := SyncServices (run_world st) in
             mkWorld
               (set_consulAvailable (bool_decide (err = None)) (w_syncer w))
               (w_env w) (w_log w)))
  ∧ (run_timer (Run_step stagger CaseNotifySync st) = Some 5000000000%Z
     ∧ w_log (run_world (Run_step stagger CaseNotifySync st))
       = w_log (run_world st)
     ∧ w_env (run_world (Run_step stagger CaseNotifySync st))
       = w_env (run_world st)
     ∧ w_syncer (run_world (Run_step stagger CaseNotifySync st))
       = set_notifySyncCh (chanRecv (notifySyncCh (w_syncer (run_world st))))
           (w_syncer (run_world st)))
  ∧ (run_world (Run_step stagger CaseShutdownCh st)
     = snd (Shutdown (run_world st))
     ∧ run_timer (Run_step stagger CaseShutdownCh st) = run_timer st)
  ∧ (∀ k, run_returned (Run_step stagger k st) = true ↔ k = CaseNotifyShutdown)
  ∧ run_timer (Run_step stagger CaseNotifyShutdown st) = None.
Proof.
  intros Hst. unfold Run_step.
  split; [|split; [|split; [|split]]].
  - destruct (SyncServices (run_world st)) as [err w].
    exists (syncInterval - stagger)%Z. cbn [run_timer run_world].
    split; [done|]. split.
    + unfold syncInterval, syncJitter, second in *.
      change (5 * 1000000000 / 8)%Z with 625000000%Z in Hst. lia.
    + by destruct err.
  - done.
  - by destruct (Shutdown (run_world st)).
  - intros k. destruct k; cbn [run_returned];
      try destruct (SyncServices (run_world st));
      try destruct (Shutdown (run_world st)); cbn [run_returned];
      split; done.
  - done.
Qed.
End RunLoop.

(** ** The further properties on sample input *)

Lemma registryWf_afterSet (c : Syncer FakeAgent) (domain : string)
    (services : gmap string Service) :
  registryWf c → registryWf (afterSet c domain services).
Proof.
  intros Hwf. unfold afterSet.
  destruct (SetServices c domain services) as [[c' [e|]]|] eqn:Hset; try done.
  by eapply SetServices_registryWf.
Qed.

Lemma registryWf_fresh : registryWf fresh.
Proof. by apply registryWf_empty. Qed.

(** Before [SetAddrFinder]: a map with one service panics, the empty map
    does not. *)
Lemma SetServices_without_addrFinder_witness :
  SetServices (NewSyncer FakeAgent) "server" {[nomadKey := nomadService]} = None
  ∧ SetServices (NewSyncer FakeAgent) "server" ∅
    = Some (SyncNow (NewSyncer FakeAgent), None).
Proof.
  rewrite !(SetServices_without_addrFinder (NewSyncer FakeAgent)) by reflexivity.
  split.
  - rewrite decide_False; [done|]. apply insert_non_empty.
  - by rewrite decide_True.
Defined.


(** The web service and its two checks, stored under "client", pass the
    filters when the agent holds them. *)
Lemma desired_state_passes_filters_witness :
  let c := afterSet fresh "client" {["web" := webService]} in
  let service := mkAgentService "_nomad-client-web" "web" [] 80 "10.0.0.1" false in
  let check :=
    mkAgentCheck "c1" "alive" "" "_nomad-client-web" "passing" in
  filterConsulServices c {["_nomad-client-web" := service]} !! "_nomad-client-web"
    = Some service
  ∧ filterConsulChecks c {["c1" := check]} !! "c1" = Some check.
Proof.
  intros c service check.
  destruct (desired_state_passes_filters c) as [Hs Hc].
  { apply registryWf_afterSet, registryWf_fresh. }
  split.
  - destruct (Hs (mkServiceReg "_nomad-client-web" "web" [] 4647 "1.2.3.4" false))
      as [_ Hkeep].
    { vm_compute. by left. }
    apply Hkeep; [|reflexivity]. by rewrite lookup_singleton_eq.
  - apply (Hc (mkCheckReg "_nomad-client-web/alive" "alive" ""
                 "_nomad-client-web" "" "1.2.3.4:4647" "" "10s" "10s")).
    + vm_compute. right. by left.
    + by rewrite lookup_singleton_eq.
    + reflexivity.
Defined.

(** Two domains in the desired state; the agent holds one wanted service
    with another port and one left-over of the domain "client". *)
Lemma sync_acts_on_own_prefixes_witness :
  let c := afterSet (afterSet fresh "client" {["web" := webService]})
             "server" {[nomadKey := nomadService]} in
  let agent : gmap string AgentService :=
    {["_nomad-client-web" :=
        mkAgentService "_nomad-client-web" "web" [] 80 "1.2.3.4" false;
      "_nomad-client-old" :=
        mkAgentService "_nomad-client-old" "old" [] 80 "1.2.3.4" false]} in
  let d := calcServicesDiff c (filterConsulServices c agent) in
  length (missing d ++ changed d) = 2
  ∧ length (stale d) = 1
  ∧ (∀ r, r ∈ missing d ++ changed d →
       ∃ domain, is_Some (servicesGroups c !! domain)
         ∧ HasPrefix (sr_ID r) (nomadServicePrefix +:+ "-" +:+ domain +:+ "-")
           = true).
Proof.
  intros c agent d.
  split; [vm_compute; reflexivity|]. split; [vm_compute; reflexivity|].
  apply (sync_acts_on_own_prefixes c agent).
  - apply registryWf_afterSet, registryWf_afterSet, registryWf_fresh.
  - intros key service Hlk. apply elem_of_map_to_list in Hlk.
    vm_compute in Hlk.
    repeat (apply elem_of_cons in Hlk as [Hlk|Hlk];
            [by injection Hlk as -> ->|]).
    by apply not_elem_of_nil in Hlk.
Defined.

(** A timer tick with a stagger of a tenth of a second, on a syncer with
    one service to register. *)
Lemma Run_step_spec_witness :
  let st := mkRun (mkWorld (afterSet fresh "server" {[nomadKey := nomadService]})
                     emptyAgent []) (Some 0%Z) false in
  run_timer (Run_step 100000000 CaseTimer st) = Some 4900000000%Z
  ∧ ∀ k, run_returned (Run_step 100000000 k st) = true ↔ k = CaseNotifyShutdown.
Proof.
  intros st.
  destruct (Run_step_spec 100000000 st) as (_ & _ & _ & Hret & _).
  { split; [by vm_compute | by vm_compute]. }
  split; [vm_compute; reflexivity | exact Hret].
Defined.
